(** * go-bark: payload preparation and encryption

    A shallow embedding of the Bark push client ([New], [Client.Push],
    [Options.Validate], [Client.preparePayload], [pKCS7Padding],
    [aesEncrypt]) together with the parts of the Go standard library these
    functions call, of the earlier package in [bark.go] ([handleOpt],
    [barkEncrypt], [Push]), and the properties of that code.

    Conventions.
    - A Go [string] is a [string] (a sequence of 8-bit [ascii] characters,
      i.e. of bytes); a [[]byte] is a [list byte] with [byte := ascii].
    - A Go [error] is the text of its message; [nil] is [None].
    - A run-time panic is the outcome [Panic] (or [None] in library code
      that returns no error value).
    - [len] is [length]; a Go [int] that takes part in subtraction or
      remainder is a [Z] (no slice here is long enough to wrap 64 bits). *)

From Stdlib Require Import ZArith List String Ascii Bool Lia Btauto DecimalString.
Import ListNotations.

Local Open Scope string_scope.
Local Open Scope list_scope.

(* ================================================================== *)
(** * Bytes, errors and outcomes *)

Definition byte := ascii.

Definition bytes_of_string (s : string) : list byte := list_ascii_of_string s.
Definition string_of_bytes (b : list byte) : string := string_of_list_ascii b.

Definition byte_of_Z (z : Z) : byte := ascii_of_N (Z.to_N (z mod 256)).
Definition Z_of_byte (b : byte) : Z := Z.of_N (N_of_ascii b).

(** [errors.New] and [fmt.Errorf] build an error from its message. *)
Definition error := string.

Inductive res (A : Type) : Type :=
| Ok (a : A)
| Err (e : error)
| Panic.
Arguments Ok {A} a.
Arguments Err {A} e.
Arguments Panic {A}.

Definition bind {A B : Type} (m : res A) (k : A -> res B) : res B :=
  match m with
  | Ok a => k a
  | Err e => Err e
  | Panic => Panic
  end.

Notation "x <- m ;; k" := (bind m (fun x => k))
  (at level 61, m at next level, right associativity).

(** A library call that panics instead of returning. *)
Definition orPanic {A : Type} (m : option A) : res A :=
  match m with
  | Some a => Ok a
  | None => Panic
  end.

(** [strconv.Itoa], as used by [%d]. *)
Definition itoa (z : Z) : string := NilZero.string_of_int (Z.to_int z).

(* ================================================================== *)
(** * strings.ToUpper

    On a string of ASCII bytes [strings.ToUpper] maps [a]..[z] to [A]..[Z]
    and keeps every other byte.  On a string with a byte above 0x7f Go maps
    each rune through [unicode.ToUpper]; the only runes outside ASCII whose
    upper case lies inside ASCII are U+0131 and U+017F (to [I] and [S]), and
    an invalid byte becomes U+FFFD, so such a string never upper-cases to
    one of the mode names ["CBC"], ["ECB"], ["GCM"], which is all the code
    below asks of the result.  The model keeps bytes above 0x7f as they
    are. *)

Definition upper_byte (c : byte) : byte :=
  let n := N_of_ascii c in
  if ((97 <=? n) && (n <=? 122))%N then ascii_of_N (n - 32) else c.

Fixpoint ToUpper (s : string) : string :=
  match s with
  | EmptyString => EmptyString
  | String c s' => String (upper_byte c) (ToUpper s')
  end.

(* ================================================================== *)
(** * Types of the package *)

Definition EncMode := string.

Definition EncModeCBC : EncMode := "CBC".
Definition EncModeECB : EncMode := "ECB".
Definition EncModeGCM : EncMode := "GCM".

Record EncOpt : Type := mkEncOpt {
  Mode : EncMode;
  Key : string;
  Iv : string
}.

(** [Options].  The fields stand in the order of the struct, which is the
    order [json.Marshal] writes them in.  A [*int] field is [None] when
    nil.  The record leaves open how the slice [DeviceKeys] and the
    pointer [Enc] are held: by value ([Options], below) or as they lie in
    memory ([Mem.OptionsStruct]). *)
Set Implicit Arguments.
Record OptionsOf (Keys EncRef : Type) : Type := mkOptions {
  DeviceKey : string;
  DeviceKeys : Keys;
  Title : string;
  Body : string;
  Markdown : string;
  Subtitle : string;
  Group : string;
  URL : string;
  Icon : string;
  Sound : string;
  Badge : option Z;
  Level : string;
  Copy : string;
  AutoCopy : string;
  IsArchive : option Z;
  Call : string;
  Volume : option Z;
  Action : string;
  ID : string;
  Delete : string;
  Enc : EncRef
}.
Unset Implicit Arguments.

(** A request by value: the keys of [DeviceKeys], and the [EncOpt] that
    [Enc] points to ([None] when nil). *)
Definition Options : Type := OptionsOf (list string) (option EncOpt).

(* ================================================================== *)
(** * Options.Validate *)

Definition errDeviceKeyRequired : error := "device_key is required".
Definition errContentRequired : error := "notification content is required".
Definition errKeyLength : error :=
  "encryption key length must be 16 (AES-128), 24 (AES-192), or 32 (AES-256) bytes".
Definition errCBCRequiresIV : error := "CBC mode requires IV".
Definition errGCMRequiresNonce : error := "GCM mode requires Nonce (Iv field)".
Definition errUnsupportedMode (m : EncMode) : error :=
  ("unsupported encryption mode: " ++ m ++ " (supported: CBC, ECB, GCM)")%string.

(** The [if o.Enc != nil] block of [Validate]. *)
Definition validateEnc (enc : EncOpt) : option error :=
  let keyLen := String.length (Key enc) in
  if negb (keyLen =? 16)%nat && negb (keyLen =? 24)%nat && negb (keyLen =? 32)%nat
  then Some errKeyLength
  else
    let mode := ToUpper (Mode enc) in
    if String.eqb mode EncModeCBC then
      if (String.length (Iv enc) =? 0)%nat then Some errCBCRequiresIV else None
    else if String.eqb mode EncModeGCM then
      if (String.length (Iv enc) =? 0)%nat then Some errGCMRequiresNonce else None
    else if String.eqb mode EncModeECB then None
    else Some (errUnsupportedMode (Mode enc)).

Definition Validate (o : Options) : option error :=
  if (String.length (DeviceKey o) =? 0)%nat && (List.length (DeviceKeys o) =? 0)%nat
  then Some errDeviceKeyRequired
  else if String.eqb (Title o) "" && String.eqb (Body o) "" && String.eqb (Markdown o) ""
  then Some errContentRequired
  else match Enc o with
       | Some enc => validateEnc enc
       | None => None
       end.

(* ================================================================== *)
(** * pKCS7Padding *)

(** [bytes.Repeat([]byte{b}, count)]: panics on a negative count. *)
Definition bytes_Repeat (b : byte) (count : Z) : option (list byte) :=
  if (count <? 0)%Z then None else Some (repeat b (Z.to_nat count)).

(** [%] of Go truncates towards zero ([Z.rem]) and panics on a zero
    divisor. *)
Definition pKCS7Padding (ciphertext : list byte) (blockSize : Z) : res (list byte) :=
  if (blockSize =? 0)%Z then Panic
  else
    let padding := (blockSize - Z.rem (Z.of_nat (List.length ciphertext)) blockSize)%Z in
    padtext <- orPanic (bytes_Repeat (byte_of_Z padding) padding) ;;
    Ok (ciphertext ++ padtext).

(* ================================================================== *)
(** * encoding/base64: StdEncoding.EncodeToString

    The loop of [Encoding.Encode] over groups of three bytes, with the
    standard alphabet and ['='] padding. *)

Definition encodeStd : string :=
  "ABCDEFGHIJKLMNOPQRSTUVWXYZabcdefghijklmnopqrstuvwxyz0123456789+/".

Definition padChar : byte := "="%char.

(** [enc.encode[i]]. *)
Definition b64char (i : Z) : byte :=
  match String.get (Z.to_nat i) encodeStd with
  | Some c => c
  | None => zero
  end.

Fixpoint base64_Encode (src : list byte) : list byte :=
  match src with
  | [] => []
  | [s0] =>
      let val := Z.shiftl (Z_of_byte s0) 16 in
      [ b64char (Z.land (Z.shiftr val 18) 63);
        b64char (Z.land (Z.shiftr val 12) 63);
        padChar; padChar ]
  | [s0; s1] =>
      let val := Z.lor (Z.shiftl (Z_of_byte s0) 16) (Z.shiftl (Z_of_byte s1) 8) in
      [ b64char (Z.land (Z.shiftr val 18) 63);
        b64char (Z.land (Z.shiftr val 12) 63);
        b64char (Z.land (Z.shiftr val 6) 63);
        padChar ]
  | s0 :: s1 :: s2 :: rest =>
      let val := Z.lor (Z.lor (Z.shiftl (Z_of_byte s0) 16) (Z.shiftl (Z_of_byte s1) 8))
                       (Z_of_byte s2) in
      b64char (Z.land (Z.shiftr val 18) 63)
      :: b64char (Z.land (Z.shiftr val 12) 63)
      :: b64char (Z.land (Z.shiftr val 6) 63)
      :: b64char (Z.land val 63)
      :: base64_Encode rest
  end.

Definition EncodeToString (src : list byte) : string :=
  string_of_bytes (base64_Encode src).

(** The matching decoder (RFC 4648, strict): the reader's side of the
    envelope, used to state round trips. *)

Fixpoint index_of (c : byte) (alphabet : list byte) (i : Z) : option Z :=
  match alphabet with
  | [] => None
  | a :: rest => if Ascii.eqb a c then Some i else index_of c rest (i + 1)%Z
  end.

Definition b64index (c : byte) : option Z :=
  index_of c (bytes_of_string encodeStd) 0.

Definition optbind {A B : Type} (m : option A) (k : A -> option B) : option B :=
  match m with
  | Some a => k a
  | None => None
  end.

Notation "x <~ m ;; k" := (optbind m (fun x => k))
  (at level 61, m at next level, right associativity).

Fixpoint base64_Decode (src : list byte) : option (list byte) :=
  match src with
  | [] => Some []
  | [c0; c1; c2; c3] =>
      i0 <~ b64index c0 ;;
      i1 <~ b64index c1 ;;
      if Ascii.eqb c3 padChar then
        if Ascii.eqb c2 padChar then
          let val := Z.lor (Z.shiftl i0 18) (Z.shiftl i1 12) in
          Some [byte_of_Z (Z.shiftr val 16)]
        else
          i2 <~ b64index c2 ;;
          let val := Z.lor (Z.lor (Z.shiftl i0 18) (Z.shiftl i1 12)) (Z.shiftl i2 6) in
          Some [byte_of_Z (Z.shiftr val 16); byte_of_Z (Z.shiftr val 8)]
      else
        i2 <~ b64index c2 ;;
        i3 <~ b64index c3 ;;
        let val := Z.lor (Z.lor (Z.lor (Z.shiftl i0 18) (Z.shiftl i1 12)) (Z.shiftl i2 6)) i3 in
        Some [byte_of_Z (Z.shiftr val 16); byte_of_Z (Z.shiftr val 8); byte_of_Z val]
  | c0 :: c1 :: c2 :: c3 :: rest =>
      i0 <~ b64index c0 ;;
      i1 <~ b64index c1 ;;
      i2 <~ b64index c2 ;;
      i3 <~ b64index c3 ;;
      let val := Z.lor (Z.lor (Z.lor (Z.shiftl i0 18) (Z.shiftl i1 12)) (Z.shiftl i2 6)) i3 in
      tl <~ base64_Decode rest ;;
      Some (byte_of_Z (Z.shiftr val 16) :: byte_of_Z (Z.shiftr val 8) :: byte_of_Z val :: tl)
  | _ => None
  end.

Definition DecodeString (s : string) : option (list byte) :=
  base64_Decode (bytes_of_string s).

(* ================================================================== *)
(** * crypto/cipher: the Block interface, CBC *)

Definition xor_byte (a b : byte) : byte :=
  match a, b with
  | Ascii a0 a1 a2 a3 a4 a5 a6 a7, Ascii b0 b1 b2 b3 b4 b5 b6 b7 =>
      Ascii (xorb a0 b0) (xorb a1 b1) (xorb a2 b2) (xorb a3 b3)
            (xorb a4 b4) (xorb a5 b5) (xorb a6 b6) (xorb a7 b7)
  end.

(** [subtle.XORBytes]: as many bytes as the shorter operand has. *)
Fixpoint XORBytes (x y : list byte) : list byte :=
  match x, y with
  | a :: x', b :: y' => xor_byte a b :: XORBytes x' y'
  | _, _ => []
  end.

(** [cipher.Block].  [Encrypt] and [Decrypt] work on the first block of
    their source and panic ([None]) when it is shorter than a block. *)
Record Block : Type := mkBlock {
  BlockSize : nat;
  Encrypt : list byte -> option (list byte);
  Decrypt : list byte -> option (list byte)
}.

(** What every [cipher.Block] promises: a block goes to a block, and
    [Decrypt] undoes [Encrypt]. *)
Record BlockLaws (b : Block) : Prop := mkBlockLaws {
  block_size_pos : (0 < BlockSize b)%nat;
  encrypt_full : forall src, List.length src = BlockSize b ->
    exists dst, Encrypt b src = Some dst /\ List.length dst = BlockSize b;
  decrypt_encrypt : forall src dst, List.length src = BlockSize b ->
    Encrypt b src = Some dst -> Decrypt b dst = Some src
}.

(** [cipher.NewCBCEncrypter(b, iv)] with the generic [cbcEncrypter]. *)
Record cbcEncrypter : Type := mkCBC {
  cbc_b : Block;
  cbc_blockSize : nat;
  cbc_iv : list byte
}.

Definition NewCBCEncrypter (b : Block) (iv : list byte) : option cbcEncrypter :=
  if negb (List.length iv =? BlockSize b)%nat then None
  else Some (mkCBC b (BlockSize b) iv).

(** The loop of [cbcEncrypter.CryptBlocks]: xor the block with the running
    iv, encrypt it, and carry the result as the next iv. *)
Fixpoint cbcLoop (fuel : nat) (x : cbcEncrypter) (iv src : list byte) : option (list byte) :=
  match src with
  | [] => Some []
  | _ :: _ =>
      match fuel with
      | O => None
      | S fuel' =>
          let blk := XORBytes (firstn (cbc_blockSize x) src) iv in
          dst <~ Encrypt (cbc_b x) blk ;;
          rest <~ cbcLoop fuel' x dst (skipn (cbc_blockSize x) src) ;;
          Some (dst ++ rest)
      end
  end.

(** [CryptBlocks(dst, src)] with [len(dst) = len(src)]: the bytes written
    to [dst].  It panics when [src] is not a whole number of blocks. *)
Definition CryptBlocks (x : cbcEncrypter) (src : list byte) : option (list byte) :=
  if (cbc_blockSize x =? 0)%nat then None
  else if negb (List.length src mod cbc_blockSize x =? 0)%nat then None
  else cbcLoop (List.length src) x (cbc_iv x) src.

(** Standard CBC decryption, the reader's side. *)
Fixpoint cbcDecryptLoop (fuel : nat) (b : Block) (iv src : list byte) : option (list byte) :=
  match src with
  | [] => Some []
  | _ :: _ =>
      match fuel with
      | O => None
      | S fuel' =>
          let c := firstn (BlockSize b) src in
          if (List.length c <? BlockSize b)%nat then None
          else
            d <~ Decrypt b c ;;
            rest <~ cbcDecryptLoop fuel' b c (skipn (BlockSize b) src) ;;
            Some (XORBytes d iv ++ rest)
      end
  end.

Definition cbcDecrypt (b : Block) (iv src : list byte) : option (list byte) :=
  if negb (List.length iv =? BlockSize b)%nat then None
  else cbcDecryptLoop (List.length src) b iv src.

(** Removing PKCS7 padding: the last byte gives the number of padding
    bytes, all of which must hold that number. *)
Definition pKCS7Unpadding (data : list byte) (blockSize : nat) : option (list byte) :=
  match rev data with
  | [] => None
  | lastb :: _ =>
      let n := Z.to_nat (Z_of_byte lastb) in
      if (n =? 0)%nat || (blockSize <? n)%nat || (List.length data <? n)%nat then None
      else
        let body := firstn (List.length data - n) data in
        let pad := skipn (List.length data - n) data in
        if forallb (Ascii.eqb lastb) pad then Some body else None
  end.

(** The [i]-th block of [bs] bytes of [l]. *)
Definition chunk (bs i : nat) (l : list byte) : list byte :=
  firstn bs (skipn (i * bs) l).

(** The block that is xored into block [i] before it is encrypted: the IV
    for the first block, the previous block of ciphertext after that. *)
Definition cbcPrev (bs : nat) (iv ct : list byte) (i : nat) : list byte :=
  match i with
  | O => iv
  | S j => chunk bs j ct
  end.

(** The ECB loop of [aesEncrypt]:
    [for i := 0; i < len(paddedData); i += blockSize], each round
    encrypting [paddedData[i:i+blockSize]] into the same place of
    [encrypted].  [src] is what is left of [paddedData] from [i] on; a
    slice that reaches past the end panics. *)
Fixpoint ecbLoop (fuel : nat) (block : Block) (blockSize : nat) (src : list byte)
  : option (list byte) :=
  match src with
  | [] => Some []
  | _ :: _ =>
      match fuel with
      | O => None
      | S fuel' =>
          if (List.length src <? blockSize)%nat then None
          else
            dst <~ Encrypt block (firstn blockSize src) ;;
            rest <~ ecbLoop fuel' block blockSize (skipn blockSize src) ;;
            Some (dst ++ rest)
      end
  end.

(* ================================================================== *)
(** * crypto/aes: the AES block cipher (FIPS 197)

    The package calls [aes.NewCipher] and uses the block it returns.  The
    cipher is written out here after FIPS 197: the state is four columns of
    four bytes, a round key is four words. *)

Module AES.

Definition word : Type := (byte * byte * byte * byte)%type.
Definition state : Type := (word * word * word * word)%type.

Definition xor_word (x y : word) : word :=
  let '(x0, x1, x2, x3) := x in
  let '(y0, y1, y2, y3) := y in
  (xor_byte x0 y0, xor_byte x1 y1, xor_byte x2 y2, xor_byte x3 y3).

(** Multiplication by [x] in GF(2^8) modulo [x^8 + x^4 + x^3 + x + 1]. *)
Definition xtime (a : byte) : byte :=
  match a with
  | Ascii b0 b1 b2 b3 b4 b5 b6 b7 =>
      Ascii b7 (xorb b0 b7) b1 (xorb b2 b7) (xorb b3 b7) b4 b5 b6
  end.

(** Multiplication in GF(2^8): the bits of [b] from the lowest up. *)
Definition gmul (a b : byte) : byte :=
  match b with
  | Ascii b0 b1 b2 b3 b4 b5 b6 b7 =>
      let a1 := xtime a in
      let a2 := xtime a1 in
      let a3 := xtime a2 in
      let a4 := xtime a3 in
      let a5 := xtime a4 in
      let a6 := xtime a5 in
      let a7 := xtime a6 in
      let pick (c : bool) (v : byte) := if c then v else zero in
      xor_byte (pick b0 a)
        (xor_byte (pick b1 a1)
          (xor_byte (pick b2 a2)
            (xor_byte (pick b3 a3)
              (xor_byte (pick b4 a4)
                (xor_byte (pick b5 a5)
                  (xor_byte (pick b6 a6) (pick b7 a7)))))))
  end.

(** The inverse in GF(2^8) (zero goes to zero): [a^254]. *)
Definition ginv (a : byte) : byte :=
  let a2 := gmul a a in
  let a4 := gmul a2 a2 in
  let a8 := gmul a4 a4 in
  let a16 := gmul a8 a8 in
  let a32 := gmul a16 a16 in
  let a64 := gmul a32 a32 in
  let a128 := gmul a64 a64 in
  gmul a128 (gmul a64 (gmul a32 (gmul a16 (gmul a8 (gmul a4 a2))))).

(** The affine map of the S-box, with the constant [0x63]. *)
Definition affine (a : byte) : byte :=
  match a with
  | Ascii b0 b1 b2 b3 b4 b5 b6 b7 =>
      Ascii (negb (xorb b0 (xorb b4 (xorb b5 (xorb b6 b7)))))
            (negb (xorb b1 (xorb b5 (xorb b6 (xorb b7 b0)))))
            (xorb b2 (xorb b6 (xorb b7 (xorb b0 b1))))
            (xorb b3 (xorb b7 (xorb b0 (xorb b1 b2))))
            (xorb b4 (xorb b0 (xorb b1 (xorb b2 b3))))
            (negb (xorb b5 (xorb b1 (xorb b2 (xorb b3 b4)))))
            (negb (xorb b6 (xorb b2 (xorb b3 (xorb b4 b5)))))
            (xorb b7 (xorb b3 (xorb b4 (xorb b5 b6))))
  end.

Definition all_bytes : list byte := map ascii_of_nat (seq 0 256).

Definition sbox_table : list byte :=
  Eval vm_compute in map (fun a => affine (ginv a)) all_bytes.

Definition sbox (a : byte) : byte := nth (nat_of_ascii a) sbox_table zero.

Definition inv_sbox_table : list byte :=
  Eval vm_compute in
    map (fun y => match find (fun x => Ascii.eqb (sbox x) y) all_bytes with
                  | Some x => x
                  | None => zero
                  end) all_bytes.

Definition inv_sbox (a : byte) : byte := nth (nat_of_ascii a) inv_sbox_table zero.

Definition map_word (f : byte -> byte) (w : word) : word :=
  let '(a, b, c, d) := w in (f a, f b, f c, f d).

Definition map_state (f : word -> word) (s : state) : state :=
  let '(c0, c1, c2, c3) := s in (f c0, f c1, f c2, f c3).

Definition SubBytes (s : state) : state := map_state (map_word sbox) s.
Definition InvSubBytes (s : state) : state := map_state (map_word inv_sbox) s.

(** Row [r] moves left by [r] columns. *)
Definition ShiftRows (s : state) : state :=
  let '((a0, a1, a2, a3), (b0, b1, b2, b3), (c0, c1, c2, c3), (d0, d1, d2, d3)) := s in
  ((a0, b1, c2, d3), (b0, c1, d2, a3), (c0, d1, a2, b3), (d0, a1, b2, c3)).

Definition InvShiftRows (s : state) : state :=
  let '((a0, a1, a2, a3), (b0, b1, b2, b3), (c0, c1, c2, c3), (d0, d1, d2, d3)) := s in
  ((a0, d1, c2, b3), (b0, a1, d2, c3), (c0, b1, a2, d3), (d0, c1, b2, a3)).

Definition mul2 (a : byte) : byte := xtime a.
Definition mul3 (a : byte) : byte := xor_byte (xtime a) a.
Definition mul9 (a : byte) : byte := xor_byte (xtime (xtime (xtime a))) a.
Definition mul11 (a : byte) : byte :=
  xor_byte (xtime (xtime (xtime a))) (xor_byte (xtime a) a).
Definition mul13 (a : byte) : byte :=
  xor_byte (xtime (xtime (xtime a))) (xor_byte (xtime (xtime a)) a).
Definition mul14 (a : byte) : byte :=
  xor_byte (xtime (xtime (xtime a))) (xor_byte (xtime (xtime a)) (xtime a)).

Definition xor4 (a b c d : byte) : byte := xor_byte a (xor_byte b (xor_byte c d)).

Definition MixColumn (w : word) : word :=
  let '(a0, a1, a2, a3) := w in
  (xor4 (mul2 a0) (mul3 a1) a2 a3,
   xor4 a0 (mul2 a1) (mul3 a2) a3,
   xor4 a0 a1 (mul2 a2) (mul3 a3),
   xor4 (mul3 a0) a1 a2 (mul2 a3)).

Definition InvMixColumn (w : word) : word :=
  let '(a0, a1, a2, a3) := w in
  (xor4 (mul14 a0) (mul11 a1) (mul13 a2) (mul9 a3),
   xor4 (mul9 a0) (mul14 a1) (mul11 a2) (mul13 a3),
   xor4 (mul13 a0) (mul9 a1) (mul14 a2) (mul11 a3),
   xor4 (mul11 a0) (mul13 a1) (mul9 a2) (mul14 a3)).

Definition MixColumns (s : state) : state := map_state MixColumn s.
Definition InvMixColumns (s : state) : state := map_state InvMixColumn s.

Definition AddRoundKey (s k : state) : state :=
  let '(s0, s1, s2, s3) := s in
  let '(k0, k1, k2, k3) := k in
  (xor_word s0 k0, xor_word s1 k1, xor_word s2 k2, xor_word s3 k3).

(** ** Key expansion *)

Definition RotWord (w : word) : word := let '(a, b, c, d) := w in (b, c, d, a).
Definition SubWord (w : word) : word := map_word sbox w.

Definition zero_word : word := (zero, zero, zero, zero).

(** [Rcon[i]] for [i >= 1]: [x^(i-1)] in the first byte. *)
Fixpoint rcon_byte (i : nat) : byte :=
  match i with
  | O => zero
  | 1%nat => "001"%char
  | S i' => xtime (rcon_byte i')
  end.

Definition Rcon (i : nat) : word := (rcon_byte i, zero, zero, zero).

Fixpoint words_of_bytes (l : list byte) : list word :=
  match l with
  | a :: b :: c :: d :: rest => (a, b, c, d) :: words_of_bytes rest
  | _ => []
  end.

Fixpoint states_of_words (l : list word) : list state :=
  match l with
  | a :: b :: c :: d :: rest => (a, b, c, d) :: states_of_words rest
  | _ => []
  end.

(** [n] more words, the next one being [w[i]]. *)
Fixpoint expandLoop (n Nk i : nat) (w : list word) : list word :=
  match n with
  | O => w
  | S n' =>
      let temp := nth (i - 1) w zero_word in
      let temp :=
        if (i mod Nk =? 0)%nat then xor_word (SubWord (RotWord temp)) (Rcon (i / Nk))
        else if (6 <? Nk)%nat && (i mod Nk =? 4)%nat then SubWord temp
        else temp in
      expandLoop n' Nk (S i) (w ++ [xor_word (nth (i - Nk) w zero_word) temp])
  end.

(** The round keys of a key of [4 * Nk] bytes: [Nk + 7] of them. *)
Definition KeyExpansion (key : list byte) : list state :=
  let Nk := (List.length key / 4)%nat in
  let Nr := (Nk + 6)%nat in
  states_of_words (expandLoop (4 * (Nr + 1) - Nk) Nk Nk (words_of_bytes key)).

(** ** Cipher and inverse cipher *)

Fixpoint rounds (ks : list state) (s : state) : state :=
  match ks with
  | [] => s
  | [k] => AddRoundKey (ShiftRows (SubBytes s)) k
  | k :: ks' => rounds ks' (AddRoundKey (MixColumns (ShiftRows (SubBytes s))) k)
  end.

Definition Cipher (ks : list state) (s : state) : state :=
  match ks with
  | [] => s
  | k0 :: ks' => rounds ks' (AddRoundKey s k0)
  end.

(** The inverse rounds, over the same keys in the same order: the last
    key is undone first. *)
Fixpoint inv_rounds (ks : list state) (s : state) : state :=
  match ks with
  | [] => s
  | [k] => InvSubBytes (InvShiftRows (AddRoundKey s k))
  | k :: ks' =>
      InvSubBytes (InvShiftRows (InvMixColumns (AddRoundKey (inv_rounds ks' s) k)))
  end.

Definition InvCipher (ks : list state) (s : state) : state :=
  match ks with
  | [] => s
  | k0 :: ks' => AddRoundKey (inv_rounds ks' s) k0
  end.

Definition state_of_bytes (l : list byte) : option state :=
  match l with
  | [a0; a1; a2; a3; b0; b1; b2; b3; c0; c1; c2; c3; d0; d1; d2; d3] =>
      Some ((a0, a1, a2, a3), (b0, b1, b2, b3), (c0, c1, c2, c3), (d0, d1, d2, d3))
  | _ => None
  end.

Definition bytes_of_state (s : state) : list byte :=
  let '((a0, a1, a2, a3), (b0, b1, b2, b3), (c0, c1, c2, c3), (d0, d1, d2, d3)) := s in
  [a0; a1; a2; a3; b0; b1; b2; b3; c0; c1; c2; c3; d0; d1; d2; d3].

(** The size of a block in bytes ([aes.BlockSize]). *)
Definition blockBytes : nat := 16.

(** [aesCipher.Encrypt] and [Decrypt]: the first 16 bytes of the source;
    a shorter source panics. *)
Definition encryptBlock (ks : list state) (src : list byte) : option (list byte) :=
  s <~ state_of_bytes (firstn blockBytes src) ;;
  Some (bytes_of_state (Cipher ks s)).

Definition decryptBlock (ks : list state) (src : list byte) : option (list byte) :=
  s <~ state_of_bytes (firstn blockBytes src) ;;
  Some (bytes_of_state (InvCipher ks s)).

Definition KeySizeError (k : nat) : error :=
  ("crypto/aes: invalid key size " ++ itoa (Z.of_nat k))%string.

(** [aes.NewCipher]. *)
Definition NewCipher (key : list byte) : res Block :=
  let k := List.length key in
  if (k =? 16)%nat || (k =? 24)%nat || (k =? 32)%nat then
    let ks := KeyExpansion key in
    Ok (mkBlock blockBytes (encryptBlock ks) (decryptBlock ks))
  else Err (KeySizeError k).

End AES.

(* ================================================================== *)
(** * crypto/cipher: GCM (NIST SP 800-38D) with the standard 12-byte nonce
      and 16-byte tag *)

Module GCM.

(** The bits of a block, most significant bit of the first byte first. *)
Definition bits_of_byte (a : byte) : list bool :=
  match a with
  | Ascii b0 b1 b2 b3 b4 b5 b6 b7 => [b7; b6; b5; b4; b3; b2; b1; b0]
  end.

Definition bits_of_bytes (l : list byte) : list bool := flat_map bits_of_byte l.

Fixpoint bytes_of_bits (l : list bool) : list byte :=
  match l with
  | b7 :: b6 :: b5 :: b4 :: b3 :: b2 :: b1 :: b0 :: rest =>
      Ascii b0 b1 b2 b3 b4 b5 b6 b7 :: bytes_of_bits rest
  | _ => []
  end.

Fixpoint xor_bits (x y : list bool) : list bool :=
  match x, y with
  | a :: x', b :: y' => xorb a b :: xor_bits x' y'
  | _, _ => []
  end.

(** [R = 11100001 || 0^120]. *)
Definition fieldR : list bool :=
  [true; true; true; false; false; false; false; true] ++ repeat false 120.

(** [V * x]: shift right by one bit, reduce when a bit falls off. *)
Definition mulX (v : list bool) : list bool :=
  let shifted := false :: removelast v in
  if last v false then xor_bits shifted fieldR else shifted.

(** The product [X * Y] in GF(2^128): [z] collects [Y * x^i] for the set
    bits [x_i] of [X]. *)
Fixpoint mulLoop (x z v : list bool) : list bool :=
  match x with
  | [] => z
  | xi :: x' => mulLoop x' (if xi then xor_bits z v else z) (mulX v)
  end.

Definition gfmul (x y : list byte) : list byte :=
  bytes_of_bits (mulLoop (bits_of_bytes x) (repeat false 128) (bits_of_bytes y)).

Definition gcmBlockSize : nat := 16.
Definition gcmStandardNonceSize : nat := 12.
Definition gcmTagSize : nat := 16.

Definition zeroBlock : list byte := repeat zero gcmBlockSize.

Definition padBlock (blk : list byte) : list byte :=
  blk ++ repeat zero (gcmBlockSize - List.length blk).

(** [gcm.update]: fold the data into [y] block by block, the last block
    padded with zeros. *)
Fixpoint update (fuel : nat) (H y data : list byte) : list byte :=
  match data with
  | [] => y
  | _ :: _ =>
      match fuel with
      | O => y
      | S fuel' =>
          update fuel' H (gfmul (XORBytes y (padBlock (firstn gcmBlockSize data))) H)
                 (skipn gcmBlockSize data)
      end
  end.

(** Big-endian bytes of a number. *)
Fixpoint be_bytes (n : nat) (z : Z) : list byte :=
  match n with
  | O => []
  | S n' => be_bytes n' (z / 256) ++ [byte_of_Z z]
  end.

Definition be_value (l : list byte) : Z :=
  fold_left (fun acc b => (acc * 256 + Z_of_byte b)%Z) l 0%Z.

(** [gcmInc32]: add one to the last four bytes, read big-endian, wrapping
    at 2^32. *)
Definition gcmInc32 (counter : list byte) : list byte :=
  let n := (List.length counter - 4)%nat in
  firstn n counter ++ be_bytes 4 ((be_value (skipn n counter) + 1) mod 2 ^ 32).

Record gcm : Type := mkGCM {
  cipher : Block;
  hashKey : list byte
}.

Definition errNewGCM : error := "cipher: NewGCM requires 128-bit block cipher".
Definition errOpen : error := "cipher: message authentication failed".

(** [cipher.NewGCM]: the hash key is the encryption of the zero block. *)
Definition NewGCM (b : Block) : res gcm :=
  if negb (BlockSize b =? gcmBlockSize)%nat then Err errNewGCM
  else
    H <- orPanic (Encrypt b zeroBlock) ;;
    Ok (mkGCM b H).

(** [deriveCounter] for a 12-byte nonce: the nonce, then the counter 1. *)
Definition deriveCounter (nonce : list byte) : list byte :=
  nonce ++ [zero; zero; zero; "001"%char].

(** [counterCrypt]: xor the input with the encrypted counter blocks. *)
Fixpoint counterCrypt (fuel : nat) (b : Block) (counter input : list byte)
  : option (list byte) :=
  match input with
  | [] => Some []
  | _ :: _ =>
      match fuel with
      | O => None
      | S fuel' =>
          mask <~ Encrypt b counter ;;
          rest <~ counterCrypt fuel' b (gcmInc32 counter) (skipn gcmBlockSize input) ;;
          Some (XORBytes (firstn gcmBlockSize input) mask ++ rest)
      end
  end.

(** [gcm.auth]: GHASH over the additional data, the ciphertext and their
    bit lengths, masked with the encrypted initial counter. *)
Definition auth (g : gcm) (ciphertext additionalData tagMask : list byte) : list byte :=
  let y := update (List.length additionalData) (hashKey g) zeroBlock additionalData in
  let y := update (List.length ciphertext) (hashKey g) y ciphertext in
  let lens := be_bytes 8 (Z.of_nat (List.length additionalData) * 8)
              ++ be_bytes 8 (Z.of_nat (List.length ciphertext) * 8) in
  XORBytes (gfmul (XORBytes y lens) (hashKey g)) tagMask.

(** The longest plaintext [Seal] takes: [((1 << 32) - 2) * BlockSize]. *)
Definition maxPlaintext (g : gcm) : Z := ((2 ^ 32 - 2) * Z.of_nat (BlockSize (cipher g)))%Z.

(** [gcm.Seal(nil, nonce, plaintext, data)]: ciphertext, then tag.  A
    nonce of the wrong length or an over-long plaintext panics. *)
Definition Seal (g : gcm) (nonce plaintext data : list byte) : option (list byte) :=
  if negb (List.length nonce =? gcmStandardNonceSize)%nat then None
  else if (maxPlaintext g <? Z.of_nat (List.length plaintext))%Z then None
  else
    let counter := deriveCounter nonce in
    tagMask <~ Encrypt (cipher g) counter ;;
    out <~ counterCrypt (List.length plaintext) (cipher g) (gcmInc32 counter) plaintext ;;
    Some (out ++ auth g out data tagMask).

(** [subtle.ConstantTimeCompare(x, y) == 1]. *)
Definition ConstantTimeCompare (x y : list byte) : bool :=
  (List.length x =? List.length y)%nat
  && forallb (fun p => Ascii.eqb (fst p) (snd p)) (combine x y).

(** [gcm.Open(nil, nonce, ciphertext, data)], the reader's side. *)
Definition Open (g : gcm) (nonce sealed data : list byte) : res (list byte) :=
  if negb (List.length nonce =? gcmStandardNonceSize)%nat then Panic
  else if (List.length sealed <? gcmTagSize)%nat then Err errOpen
  else if (maxPlaintext g + Z.of_nat gcmTagSize <? Z.of_nat (List.length sealed))%Z
  then Err errOpen
  else
    let n := (List.length sealed - gcmTagSize)%nat in
    let tag := skipn n sealed in
    let ciphertext := firstn n sealed in
    let counter := deriveCounter nonce in
    tagMask <- orPanic (Encrypt (cipher g) counter) ;;
    let expectedTag := auth g ciphertext data tagMask in
    if negb (ConstantTimeCompare expectedTag tag) then Err errOpen
    else orPanic (counterCrypt (List.length ciphertext) (cipher g) (gcmInc32 counter) ciphertext).

End GCM.

(** ** The field of GHASH

    Not part of the program: the vocabulary in which the properties of
    [gfmul] are proved. *)

(** The elements of GF(2^128) as [gfmul] sees them: 128 bits, the
    coefficient of [x^0] first. *)
Module GF.
Import GCM.

Definition zeroV : list bool := repeat false 128.
Definition oneV : list bool := true :: repeat false 127.

(** [x^i]. *)
Definition unitV (i : nat) : list bool := repeat false i ++ true :: repeat false (127 - i).

Definition mul (a b : list bool) : list bool := mulLoop a zeroV b.
Definition sq (a : list bool) : list bool := mul a a.

(** [a * a^2 * a^4 * ... * a^(2^(n-1))]. *)
Fixpoint conjugates (n : nat) (a : list bool) : list bool :=
  match n with
  | O => oneV
  | S n' => mul a (conjugates n' (sq a))
  end.

(** The candidate inverse [a^(2^128 - 2)]. *)
Definition inv (a : list bool) : list bool := conjugates 127 (sq a).

(** [a^2 + a], whose kernel is the prime field. *)
Definition psi (a : list bool) : list bool := xor_bits (sq a) a.

(** A linear map given by the images of [x^0], [x^1], ... *)
Fixpoint applyCols (cols : list (list bool)) (v : list bool) : list bool :=
  match v, cols with
  | c :: v', col :: cols' =>
      if c then xor_bits col (applyCols cols' v') else applyCols cols' v'
  | _, _ => zeroV
  end.

(** Gaussian elimination on rows [(psi a, a)], to find a linear map that
    undoes [psi] on the span of [x^1 .. x^127]. *)
Definition row : Type := (list bool * list bool)%type.

Definition xorRow (p q : row) : row :=
  (xor_bits (fst p) (fst q), xor_bits (snd p) (snd q)).

Definition clearWith (j : nat) (pivot r : row) : row :=
  if nth j (fst r) false then xorRow r pivot else r.

Fixpoint pick (j : nat) (rows : list row) : option (row * list row) :=
  match rows with
  | [] => None
  | r :: rest =>
      if nth j (fst r) false then Some (r, rest)
      else match pick j rest with
           | Some (p, others) => Some (p, r :: others)
           | None => None
           end
  end.

Fixpoint eliminate (cols : list nat) (rows : list row) (pivots : list (nat * row))
  : list (nat * row) :=
  match cols with
  | [] => pivots
  | j :: cols' =>
      match pick j rows with
      | None => eliminate cols' rows pivots
      | Some (p, others) =>
          eliminate cols' (map (clearWith j p) others)
                    ((j, p) :: map (fun q => (fst q, clearWith j p (snd q))) pivots)
      end
  end.

Definition column (pivots : list (nat * row)) (j : nat) : list bool :=
  match find (fun q => Nat.eqb (fst q) j) pivots with
  | Some q => snd (snd q)
  | None => zeroV
  end.

Definition psiInverse : list (list bool) := Eval vm_compute in
  let rows := map (fun i => (psi (unitV i), unitV i)) (seq 1 127) in
  let pivots := eliminate (seq 0 128) rows [] in
  map (column pivots) (seq 0 128).

Fixpoint eqbV (a b : list bool) : bool :=
  match a, b with
  | [], [] => true
  | x :: a', y :: b' => Bool.eqb x y && eqbV a' b'
  | _, _ => false
  end.

(** Well-formed elements, and the maps that respect sums. *)
Definition is128 (a : list bool) : Prop := List.length a = 128%nat.

Definition additive (F : list bool -> list bool) : Prop :=
  (forall a, is128 a -> is128 (F a))
  /\ (forall a b, is128 a -> is128 b -> F (xor_bits a b) = xor_bits (F a) (F b)).

End GF.

(* ================================================================== *)
(** * aesEncrypt *)

Definition errCBCIVLength (blockSize : nat) : error :=
  ("CBC IV length must be " ++ itoa (Z.of_nat blockSize))%string.
Definition errGCMNonceLength : error := "GCM Nonce length must be 12 bytes".
Definition errUnsupportedEncryptionMode : error := "unsupported encryption mode".

Definition aesEncrypt (data : list byte) (opt : EncOpt) : res string :=
  let key := bytes_of_string (Key opt) in
  block <- AES.NewCipher key ;;
  let blockSize := BlockSize block in
  let mode := ToUpper (Mode opt) in
  if String.eqb mode "CBC" then
    let iv := bytes_of_string (Iv opt) in
    if negb (List.length iv =? blockSize)%nat then Err (errCBCIVLength blockSize)
    else
      paddedData <- pKCS7Padding data (Z.of_nat blockSize) ;;
      blockMode <- orPanic (NewCBCEncrypter block iv) ;;
      encrypted <- orPanic (CryptBlocks blockMode paddedData) ;;
      Ok (EncodeToString encrypted)
  else if String.eqb mode "ECB" then
    paddedData <- pKCS7Padding data (Z.of_nat blockSize) ;;
    encrypted <- orPanic (ecbLoop (List.length paddedData) block blockSize paddedData) ;;
    Ok (EncodeToString encrypted)
  else if String.eqb mode "GCM" then
    let nonce := bytes_of_string (Iv opt) in
    if negb (List.length nonce =? 12)%nat then Err errGCMNonceLength
    else
      aesGCM <- GCM.NewGCM block ;;
      encrypted <- orPanic (GCM.Seal aesGCM nonce data []) ;;
      Ok (EncodeToString encrypted)
  else Err errUnsupportedEncryptionMode.

(* ================================================================== *)
(** * The reader's side *)

(** The longest plaintext GCM takes: [(2^32 - 2) * 16] bytes. *)
Definition gcmMaxPlaintext : Z := ((2 ^ 32 - 2) * 16)%Z.

(** Standard ECB decryption, the reader's side. *)
Fixpoint ecbDecryptLoop (fuel : nat) (block : Block) (blockSize : nat) (src : list byte)
  : option (list byte) :=
  match src with
  | [] => Some []
  | _ :: _ =>
      match fuel with
      | O => None
      | S fuel' =>
          if (List.length src <? blockSize)%nat then None
          else
            dst <~ Decrypt block (firstn blockSize src) ;;
            rest <~ ecbDecryptLoop fuel' block blockSize (skipn blockSize src) ;;
            Some (dst ++ rest)
      end
  end.

(** Tampering: bit [i] of a byte string flipped, bit 0 being the lowest
    bit of the first byte. *)
Definition flipBitOfByte (a : byte) (i : nat) : byte :=
  match a with
  | Ascii b0 b1 b2 b3 b4 b5 b6 b7 =>
      match i with
      | 0%nat => Ascii (negb b0) b1 b2 b3 b4 b5 b6 b7
      | 1%nat => Ascii b0 (negb b1) b2 b3 b4 b5 b6 b7
      | 2%nat => Ascii b0 b1 (negb b2) b3 b4 b5 b6 b7
      | 3%nat => Ascii b0 b1 b2 (negb b3) b4 b5 b6 b7
      | 4%nat => Ascii b0 b1 b2 b3 (negb b4) b5 b6 b7
      | 5%nat => Ascii b0 b1 b2 b3 b4 (negb b5) b6 b7
      | 6%nat => Ascii b0 b1 b2 b3 b4 b5 (negb b6) b7
      | _ => Ascii b0 b1 b2 b3 b4 b5 b6 (negb b7)
      end
  end.

Fixpoint flipBit (l : list byte) (i : nat) : list byte :=
  match l with
  | [] => []
  | a :: l' => if (i <? 8)%nat then flipBitOfByte a i :: l' else a :: flipBit l' (i - 8)
  end.

Definition errBase64 : error := "illegal base64 data".
Definition errBadCiphertext : error := "bad ciphertext".

(** The reader's side of [aesEncrypt]: decode the base64 text, decrypt in
    the mode of [opt], and remove the padding in CBC and ECB mode. *)
Definition aesDecrypt (cipherText : string) (opt : EncOpt) : res (list byte) :=
  let key := bytes_of_string (Key opt) in
  block <- AES.NewCipher key ;;
  let blockSize := BlockSize block in
  let mode := ToUpper (Mode opt) in
  match DecodeString cipherText with
  | None => Err errBase64
  | Some encrypted =>
      if String.eqb mode "CBC" then
        match cbcDecrypt block (bytes_of_string (Iv opt)) encrypted with
        | None => Err errBadCiphertext
        | Some padded =>
            match pKCS7Unpadding padded blockSize with
            | None => Err errBadCiphertext
            | Some data => Ok data
            end
        end
      else if String.eqb mode "ECB" then
        match ecbDecryptLoop (List.length encrypted) block blockSize encrypted with
        | None => Err errBadCiphertext
        | Some padded =>
            match pKCS7Unpadding padded blockSize with
            | None => Err errBadCiphertext
            | Some data => Ok data
            end
        end
      else if String.eqb mode "GCM" then
        aesGCM <- GCM.NewGCM block ;;
        if negb (List.length (bytes_of_string (Iv opt)) =? 12)%nat then Err errGCMNonceLength
        else GCM.Open aesGCM (bytes_of_string (Iv opt)) encrypted []
      else Err errUnsupportedEncryptionMode
  end.

(* ================================================================== *)
(** * encoding/json: what [json.Marshal] writes for the values of the
      package *)

(** The values the package writes: strings, integers (behind [*int]) and
    slices of strings; an object is its fields in the order written. *)
Inductive jvalue : Type :=
| JString (s : string)
| JNumber (z : Z)
| JStrings (l : list string).

Definition jobject : Type := list (string * jvalue).

(** A field tagged [omitempty] is left out when it is the empty string, a
    slice of length zero or a nil pointer. *)
Definition fieldString (name value : string) : jobject :=
  if String.eqb value "" then [] else [(name, JString value)].

Definition fieldStrings (name : string) (value : list string) : jobject :=
  match value with
  | [] => []
  | _ :: _ => [(name, JStrings value)]
  end.

Definition fieldIntPtr (name : string) (value : option Z) : jobject :=
  match value with
  | None => []
  | Some z => [(name, JNumber z)]
  end.

(** The JSON object of an [Options] value: the tagged fields in the order
    of the struct; [Enc] is tagged ["-"] and never written. *)
Definition jsonOfOptions (o : Options) : jobject :=
    (fieldString "device_key" (DeviceKey o)
     ++ fieldStrings "device_keys" (DeviceKeys o)
     ++ fieldString "title" (Title o)
     ++ fieldString "body" (Body o)
     ++ fieldString "markdown" (Markdown o)
     ++ fieldString "subtitle" (Subtitle o)
     ++ fieldString "group" (Group o)
     ++ fieldString "url" (URL o)
     ++ fieldString "icon" (Icon o)
     ++ fieldString "sound" (Sound o)
     ++ fieldIntPtr "badge" (Badge o)
     ++ fieldString "level" (Level o)
     ++ fieldString "copy" (Copy o)
     ++ fieldString "autoCopy" (AutoCopy o)
     ++ fieldIntPtr "isArchive" (IsArchive o)
     ++ fieldString "call" (Call o)
     ++ fieldIntPtr "volume" (Volume o)
     ++ fieldString "action" (Action o)
     ++ fieldString "id" (ID o)
     ++ fieldString "delete" (Delete o)).

(** A [map[string]interface{}]: one value per key; assignment replaces. *)
Definition gomap : Type := list (string * jvalue).

Fixpoint mapSet (k : string) (v : jvalue) (m : gomap) : gomap :=
  match m with
  | [] => [(k, v)]
  | (k', v') :: rest =>
      if String.eqb k' k then (k, v) :: rest else (k', v') :: mapSet k v rest
  end.

Fixpoint mapGet (k : string) (m : gomap) : option jvalue :=
  match m with
  | [] => None
  | (k', v') :: rest => if String.eqb k' k then Some v' else mapGet k rest
  end.

(** [json.Marshal] writes the keys of a map in sorted order. *)
Fixpoint insertKey (kv : string * jvalue) (m : gomap) : gomap :=
  match m with
  | [] => [kv]
  | kv' :: rest =>
      if String.leb (fst kv) (fst kv') then kv :: m else kv' :: insertKey kv rest
  end.

Definition sortKeys (m : gomap) : gomap := fold_right insertKey [] m.

Definition jsonOfMap (m : gomap) : jobject := sortKeys m.

(** The names of the fields of an object, in the order written. *)
Definition keysOf (obj : jobject) : list string := map fst obj.

(** The JSON names of the fields of [Options] other than the routing keys. *)
Definition contentFields : list string :=
  ["title"; "body"; "markdown"; "subtitle"; "group"; "url"; "icon"; "sound"; "badge";
   "level"; "copy"; "autoCopy"; "isArchive"; "call"; "volume"; "action"; "id"; "delete"].

Section Marshal.

(** The quoted form of a string ([appendString] of encoding/json: the
    surrounding quotes, the escapes, the coercion to valid UTF-8).  Its
    details differ between Go releases and nothing below depends on
    them. *)
Variable quoteString : string -> list byte.

Definition joinBytes (sep : list byte) (parts : list (list byte)) : list byte :=
  match parts with
  | [] => []
  | p :: ps => p ++ flat_map (fun q => sep ++ q) ps
  end.

Definition encodeValue (v : jvalue) : list byte :=
  match v with
  | JString s => quoteString s
  | JNumber z => bytes_of_string (itoa z)
  | JStrings l =>
      bytes_of_string "[" ++ joinBytes (bytes_of_string ",") (map quoteString l)
      ++ bytes_of_string "]"
  end.

Definition encode (fields : jobject) : list byte :=
  bytes_of_string "{"
  ++ joinBytes (bytes_of_string ",")
       (map (fun kv => quoteString (fst kv) ++ bytes_of_string ":" ++ encodeValue (snd kv))
            fields)
  ++ bytes_of_string "}".

(* ================================================================== *)
(** * Client.preparePayload *)

Definition errMissingRoutingKey : error := "missing device key for routing".

(** Slices of strings by their elements: [make([]string, n, c)] has [n]
    empty strings, [copy] overwrites the first [min(len(dst), len(src))]
    elements of [dst], [append] adds one at the end. *)
Definition make (len cap : nat) : list string := repeat ""%string len.

Definition copy (dst src : list string) : list string :=
  let n := Nat.min (List.length dst) (List.length src) in
  firstn n src ++ skipn n dst.

Definition append (s : list string) (x : string) : list string := s ++ [x].

Definition Contains (s : list string) (v : string) : bool :=
  existsb (String.eqb v) s.

Definition setDeviceKey {K E : Type} (o : OptionsOf K E) (v : string) : OptionsOf K E :=
  mkOptions v (DeviceKeys o) (Title o) (Body o) (Markdown o) (Subtitle o)
    (Group o) (URL o) (Icon o) (Sound o) (Badge o) (Level o) (Copy o) (AutoCopy o)
    (IsArchive o) (Call o) (Volume o) (Action o) (ID o) (Delete o) (Enc o).

Definition setDeviceKeys {K K' E : Type} (o : OptionsOf K E) (v : K') : OptionsOf K' E :=
  mkOptions (DeviceKey o) v (Title o) (Body o) (Markdown o) (Subtitle o)
    (Group o) (URL o) (Icon o) (Sound o) (Badge o) (Level o) (Copy o) (AutoCopy o)
    (IsArchive o) (Call o) (Volume o) (Action o) (ID o) (Delete o) (Enc o).

Definition setEnc {K E E' : Type} (o : OptionsOf K E) (v : E') : OptionsOf K E' :=
  mkOptions (DeviceKey o) (DeviceKeys o) (Title o) (Body o) (Markdown o) (Subtitle o)
    (Group o) (URL o) (Icon o) (Sound o) (Badge o) (Level o) (Copy o) (AutoCopy o)
    (IsArchive o) (Call o) (Volume o) (Action o) (ID o) (Delete o) v.

Definition preparePayload (o : Options) : res (list byte) :=
  match Enc o with
  | None => Ok (encode (jsonOfOptions o))
  | Some enc =>
      let deviceKeyToUse := DeviceKey o in
      let deviceKeysToUse := DeviceKeys o in
      let encOpts := o in
      let encOpts := setDeviceKey encOpts "" in
      let encOpts := setDeviceKeys encOpts [] in
      let encOpts := setEnc encOpts None in
      let plainBytes := encode (jsonOfOptions encOpts) in
      cipherText <- aesEncrypt plainBytes enc ;;
      let encryptedPayload := mapSet "ciphertext" (JString cipherText) [] in
      if (0 <? List.length deviceKeysToUse)%nat then
        let finalRoutingKeys := make 0 (List.length deviceKeysToUse + 1) in
        let finalRoutingKeys := copy finalRoutingKeys deviceKeysToUse in
        let finalRoutingKeys :=
          if negb (String.eqb deviceKeyToUse "")
             && negb (Contains finalRoutingKeys deviceKeyToUse)
          then append finalRoutingKeys deviceKeyToUse
          else finalRoutingKeys in
        if (1 <? List.length finalRoutingKeys)%nat then
          let encryptedPayload :=
            mapSet "device_keys" (JStrings finalRoutingKeys) encryptedPayload in
          Ok (encode (jsonOfMap encryptedPayload))
        else if (List.length finalRoutingKeys =? 1)%nat then
          let encryptedPayload :=
            mapSet "device_key" (JString (nth 0 finalRoutingKeys ""%string))
                   encryptedPayload in
          Ok (encode (jsonOfMap encryptedPayload))
        else Err errMissingRoutingKey
      else
        let encryptedPayload :=
          mapSet "device_key" (JString deviceKeyToUse) encryptedPayload in
        Ok (encode (jsonOfMap encryptedPayload))
  end.

(** The parts of [preparePayload] by name.  [contentCopy] is [encOpts]
    after steps 1 and 2, [plainBytes] what step 3 hands to the cipher, and
    [routingEnvelope] the map of step 5. *)
Definition contentCopy (o : Options) : Options :=
  setEnc (setDeviceKeys (setDeviceKey o "") []) None.

Definition plainBytes (o : Options) : list byte := encode (jsonOfOptions (contentCopy o)).

Definition routingEnvelope (deviceKeyToUse : string) (deviceKeysToUse : list string)
    (cipherText : string) : res gomap :=
  let encryptedPayload := mapSet "ciphertext" (JString cipherText) [] in
  if (0 <? List.length deviceKeysToUse)%nat then
    let finalRoutingKeys := make 0 (List.length deviceKeysToUse + 1) in
    let finalRoutingKeys := copy finalRoutingKeys deviceKeysToUse in
    let finalRoutingKeys :=
      if negb (String.eqb deviceKeyToUse "")
         && negb (Contains finalRoutingKeys deviceKeyToUse)
      then append finalRoutingKeys deviceKeyToUse
      else finalRoutingKeys in
    if (1 <? List.length finalRoutingKeys)%nat then
      Ok (mapSet "device_keys" (JStrings finalRoutingKeys) encryptedPayload)
    else if (List.length finalRoutingKeys =? 1)%nat then
      Ok (mapSet "device_key" (JString (nth 0 finalRoutingKeys ""%string)) encryptedPayload)
    else Err errMissingRoutingKey
  else Ok (mapSet "device_key" (JString deviceKeyToUse) encryptedPayload).

(** [Client.Push] up to the HTTP request: validation, then the payload. *)
Definition pushPayload (o : Options) : res (list byte) :=
  match Validate o with
  | Some err => Err err
  | None => preparePayload o
  end.

End Marshal.

(* ================================================================== *)
(** * The request in memory

    [Validate] and [preparePayload] take a pointer to the caller's
    [Options].  Here the same two functions are written over a store that
    holds the struct, the [EncOpt] its [Enc] field points to and the
    backing arrays of slices of strings, with every read and write of
    memory spelled out.  The local variables of a call, the struct
    [encOpts] among them, are values of the call. *)

Module Mem.

Definition loc : Type := nat.

(** A slice header: the backing array ([None] for a nil slice), where the
    slice starts in it, its length and its capacity. *)
Record slice : Type := mkSlice {
  array : option loc;
  offset : nat;
  len : nat;
  cap : nat
}.

Definition nilSlice : slice := mkSlice None 0 0 0.

(** The struct as it lies in memory. *)
Definition OptionsStruct : Type := OptionsOf slice (option loc).

Inductive cell : Type :=
| COptions (s : OptionsStruct)
| CEncOpt (e : EncOpt)
| CStrings (a : list string).

Definition heap : Type := list cell.

(** A computation on the store: its outcome and the store it leaves. *)
Definition M (A : Type) : Type := heap -> res A * heap.

Definition ret {A : Type} (a : A) : M A := fun h => (Ok a, h).

Definition bindM {A B : Type} (m : M A) (k : A -> M B) : M B :=
  fun h =>
    match m h with
    | (Ok a, h') => k a h'
    | (Err e, h') => (Err e, h')
    | (Panic, h') => (Panic, h')
    end.

Definition panicM {A : Type} : M A := fun h => (Panic, h).
Definition failM {A : Type} (e : error) : M A := fun h => (Err e, h).
Definition liftM {A : Type} (r : res A) : M A := fun h => (r, h).

Definition loadOptions (p : loc) : M OptionsStruct :=
  fun h => match nth_error h p with
           | Some (COptions s) => (Ok s, h)
           | _ => (Panic, h)
           end.

Definition loadEncOpt (p : loc) : M EncOpt :=
  fun h => match nth_error h p with
           | Some (CEncOpt e) => (Ok e, h)
           | _ => (Panic, h)
           end.

Definition loadStrings (a : loc) : M (list string) :=
  fun h => match nth_error h a with
           | Some (CStrings l) => (Ok l, h)
           | _ => (Panic, h)
           end.

Definition storeStrings (a : loc) (l : list string) : M unit :=
  fun h => match nth_error h a with
           | Some (CStrings _) => (Ok tt, firstn a h ++ [CStrings l] ++ skipn (S a) h)
           | _ => (Panic, h)
           end.

Definition alloc (c : cell) : M loc :=
  fun h => (Ok (List.length h), h ++ [c]).

Notation "x <== m ;; k" := (bindM m (fun x => k))
  (at level 61, m at next level, right associativity).

(** The elements of a slice. *)
Definition readSlice (s : slice) : M (list string) :=
  match array s with
  | None => if (len s =? 0)%nat then ret [] else panicM
  | Some a =>
      arr <== loadStrings a ;;
      if (List.length arr <? offset s + len s)%nat then panicM
      else ret (firstn (len s) (skipn (offset s) arr))
  end.

(** [s[i] = v], for an index within the capacity. *)
Definition writeSlice (s : slice) (i : nat) (v : string) : M unit :=
  match array s with
  | None => panicM
  | Some a =>
      arr <== loadStrings a ;;
      if (offset s + i <? List.length arr)%nat
      then storeStrings a (firstn (offset s + i) arr ++ [v] ++ skipn (S (offset s + i)) arr)
      else panicM
  end.

(** [make([]string, len, cap)]. *)
Definition make (len cap : nat) : M slice :=
  if (cap <? len)%nat then panicM
  else
    a <== alloc (CStrings (repeat ""%string cap)) ;;
    ret (mkSlice (Some a) 0 len cap).

Fixpoint writeFrom (dst : slice) (i : nat) (elems : list string) : M unit :=
  match elems with
  | [] => ret tt
  | v :: rest =>
      _ <== writeSlice dst i v ;;
      writeFrom dst (S i) rest
  end.

(** [copy(dst, src)]: the first [min(len(dst), len(src))] elements. *)
Definition copy (dst src : slice) : M nat :=
  let n := Nat.min (len dst) (len src) in
  elems <== readSlice src ;;
  _ <== writeFrom dst 0 (firstn n elems) ;;
  ret n.

(** [append(s, x)]: in place while the capacity lasts, into a larger
    array otherwise (the run time picks the new capacity; here twice the
    length plus one). *)
Definition append (s : slice) (x : string) : M slice :=
  if (len s <? cap s)%nat then
    _ <== writeSlice s (len s) x ;;
    ret (mkSlice (array s) (offset s) (S (len s)) (cap s))
  else
    elems <== readSlice s ;;
    a <== alloc (CStrings (elems ++ [x] ++ repeat ""%string (len s))) ;;
    ret (mkSlice (Some a) 0 (S (len s)) (2 * len s + 1)).

(** [slices.Contains]. *)
Definition Contains (s : slice) (v : string) : M bool :=
  elems <== readSlice s ;;
  ret (existsb (String.eqb v) elems).

(** The request a struct stands for: its keys read from their array, its
    [EncOpt] read through the pointer. *)
Definition view (s : OptionsStruct) : M Options :=
  keys <== readSlice (DeviceKeys s) ;;
  enc <== match Enc s with
          | None => ret None
          | Some p =>
              e <== loadEncOpt p ;;
              ret (Some e)
          end ;;
  ret (setEnc (setDeviceKeys s keys) enc).

Section Functions.

Variable quoteString : string -> list byte.

(** [json.Marshal] of the struct: it reads the keys and never [Enc]. *)
Definition Marshal (s : OptionsStruct) : M (list byte) :=
  keys <== readSlice (DeviceKeys s) ;;
  ret (encode quoteString (jsonOfOptions (setEnc (setDeviceKeys s keys) (@None EncOpt)))).

Definition Validate (o : loc) : M (option error) :=
  s <== loadOptions o ;;
  if (String.length (DeviceKey s) =? 0)%nat && (len (DeviceKeys s) =? 0)%nat
  then ret (Some errDeviceKeyRequired)
  else if String.eqb (Title s) "" && String.eqb (Body s) "" && String.eqb (Markdown s) ""
  then ret (Some errContentRequired)
  else match Enc s with
       | Some p =>
           enc <== loadEncOpt p ;;
           ret (validateEnc enc)
       | None => ret None
       end.

Definition preparePayload (o : loc) : M (list byte) :=
  s <== loadOptions o ;;
  match Enc s with
  | None => Marshal s
  | Some p =>
      let deviceKeyToUse := DeviceKey s in
      let deviceKeysToUse := DeviceKeys s in
      let encOpts := s in
      let encOpts := setDeviceKey encOpts "" in
      let encOpts := setDeviceKeys encOpts nilSlice in
      let encOpts := setEnc encOpts (@None loc) in
      plainBytes <== Marshal encOpts ;;
      enc <== loadEncOpt p ;;
      cipherText <== liftM (aesEncrypt plainBytes enc) ;;
      let encryptedPayload := mapSet "ciphertext" (JString cipherText) [] in
      if (0 <? len deviceKeysToUse)%nat then
        finalRoutingKeys <== make 0 (len deviceKeysToUse + 1) ;;
        _ <== copy finalRoutingKeys deviceKeysToUse ;;
        finalRoutingKeys <==
          (if String.eqb deviceKeyToUse "" then ret finalRoutingKeys
           else
             has <== Contains finalRoutingKeys deviceKeyToUse ;;
             if has then ret finalRoutingKeys
             else append finalRoutingKeys deviceKeyToUse) ;;
        if (1 <? len finalRoutingKeys)%nat then
          keys <== readSlice finalRoutingKeys ;;
          ret (encode quoteString
                 (jsonOfMap (mapSet "device_keys" (JStrings keys) encryptedPayload)))
        else if (len finalRoutingKeys =? 1)%nat then
          keys <== readSlice finalRoutingKeys ;;
          ret (encode quoteString
                 (jsonOfMap (mapSet "device_key" (JString (nth 0 keys ""%string))
                                    encryptedPayload)))
        else failM errMissingRoutingKey
      else
        ret (encode quoteString
               (jsonOfMap (mapSet "device_key" (JString deviceKeyToUse) encryptedPayload)))
  end.

End Functions.

(** The store [h] holds at [o] a struct that stands for the request [v]. *)
Definition represents (h : heap) (o : loc) (v : Options) : Prop :=
  exists s, nth_error h o = Some (COptions s) /\ fst (view s h) = Ok v.

End Mem.

(* ================================================================== *)
(** * strings.HasPrefix, HasSuffix, TrimSuffix *)

(** [len(s) >= len(prefix) && s[:len(prefix)] == prefix]. *)
Definition HasPrefix (s prefix : string) : bool :=
  (String.length prefix <=? String.length s)%nat
  && String.eqb (substring 0 (String.length prefix) s) prefix.

(** [len(s) >= len(suffix) && s[len(s)-len(suffix):] == suffix]. *)
Definition HasSuffix (s suffix : string) : bool :=
  (String.length suffix <=? String.length s)%nat
  && String.eqb (substring (String.length s - String.length suffix)
                           (String.length suffix) s) suffix.

Definition TrimSuffix (s suffix : string) : string :=
  if HasSuffix s suffix then substring 0 (String.length s - String.length suffix) s
  else s.

(* ================================================================== *)
(** * New *)

(** [http.Client], of which the package sets the timeout (in
    nanoseconds, as [time.Duration] counts). *)
Record httpClient : Type := mkHTTPClient {
  Timeout : Z
}.

Definition Second : Z := 1000000000.

(** [Client]; [HTTPClient] is [None] when the pointer is nil. *)
Record Client : Type := mkClient {
  ServerURL : string;
  HTTPClient : option httpClient
}.

Definition DefaultDomain : string := "api.day.app".
Definition DefaultURL : string := ("https://" ++ DefaultDomain)%string.

Definition New (serverURL : string) : Client :=
  let serverURL := if String.eqb serverURL "" then DefaultURL else serverURL in
  let serverURL := TrimSuffix serverURL "/" in
  let serverURL :=
    if negb (HasPrefix serverURL "http://") && negb (HasPrefix serverURL "https://")
    then ("https://" ++ serverURL)%string
    else serverURL in
  mkClient serverURL (Some (mkHTTPClient (10 * Second))).

Definition DefaultClient : Client := New DefaultURL.

(** [IntPtr] and [ToPtr]: a pointer to a fresh copy of the value. *)
Definition IntPtr (v : Z) : option Z := Some v.
Definition ToPtr {T : Type} (v : T) : option T := Some v.

(* ================================================================== *)
(** * Client.Push *)

(** An [http.Request] as [Push] builds it, and the part of an
    [http.Response] it reads: the status code, and what [io.ReadAll]
    returns for the body. *)
Record Request : Type := mkRequest {
  Method : string;
  RequestURL : string;
  Header : list (string * string);
  RequestBody : list byte
}.

Record Response : Type := mkResponse {
  StatusCode : Z;
  ReadAll : list byte * option error
}.

(** [Header.Set]: one value per key. *)
Fixpoint HeaderSet (h : list (string * string)) (key value : string)
  : list (string * string) :=
  match h with
  | [] => [(key, value)]
  | (k, v) :: rest =>
      if String.eqb k key then (key, value) :: rest else (k, v) :: HeaderSet rest key value
  end.

(** What [Push] does to the world: a request handed to the HTTP client,
    a response body closed. *)
Inductive event : Type :=
| Sent (hc : httpClient) (req : Request)
| Closed (resp : Response).

Definition errStatus (status : Z) (body : list byte) : error :=
  ("status: " ++ itoa status ++ ", body: " ++ string_of_bytes body)%string.

Definition errBark (code : Z) (message : string) : error :=
  ("bark error (" ++ itoa code ++ "): " ++ message)%string.

Section Push.

Variable quoteString : string -> list byte.

(** [url.Parse], on which [http.NewRequest] fails: [Some] is its error. *)
Variable urlParse : string -> option error.

(** [Do] of [http.Client]: the server and the network. *)
Variable Do : httpClient -> Request -> res Response.

(** [json.Unmarshal] of the reply into [struct{Code int; Message string}]:
    the two fields, or [None] for an error. *)
Variable Unmarshal : list byte -> option (Z * string).

(** [http.NewRequest] with a method that is valid. *)
Definition NewRequest (method url : string) (body : list byte) : res Request :=
  match urlParse url with
  | Some err => Err err
  | None => Ok (mkRequest method url [] body)
  end.

(** [Push] returns the outcome ([Ok tt] for a nil error) and what it did;
    the deferred [Close] runs when the function returns. *)
Definition Push (c : Client) (o : Options) : res unit * list event :=
  match Validate o with
  | Some err => (Err err, [])
  | None =>
      match preparePayload quoteString o with
      | Err err => (Err err, [])
      | Panic => (Panic, [])
      | Ok payload =>
          match NewRequest "POST" (ServerURL c ++ "/push")%string payload with
          | Err err => (Err err, [])
          | Panic => (Panic, [])
          | Ok req =>
              let req := mkRequest (Method req) (RequestURL req)
                           (HeaderSet (Header req) "Content-Type"
                                      "application/json; charset=utf-8")
                           (RequestBody req) in
              match HTTPClient c with
              | None => (Panic, [])
              | Some hc =>
                  match Do hc req with
                  | Err err => (Err err, [Sent hc req])
                  | Panic => (Panic, [Sent hc req])
                  | Ok resp =>
                      let result :=
                        match ReadAll resp with
                        | (_, Some err) => Err err
                        | (respBody, None) =>
                            match Unmarshal respBody with
                            | None => Err (errStatus (StatusCode resp) respBody)
                            | Some (code, message) =>
                                if negb (code =? 200)%Z then Err (errBark code message)
                                else Ok tt
                            end
                        end in
                      (result, [Sent hc req; Closed resp])
                  end
              end
          end
      end
  end.

End Push.

(* ================================================================== *)
(** * src/bark.go: the package with go-cryptobin

    [bark.go] holds the package in another form: the token goes into the
    URL, [handleOpt] checks and clamps the request in place and writes the
    JSON, and the encryption (ECB and CBC only) is left to the library
    go-cryptobin. *)

Module BarkGo.

Record Client : Type := mkClient {
  ServerURL : string
}.

(** An [*int] is the address of an int; the ints live in a store, so that
    two pointers may name the same int. *)
Definition intPtr : Type := option nat.
Definition store : Type := nat -> Z.

Definition load (m : store) (p : nat) : Z := m p.
Definition storeAt (m : store) (p : nat) (v : Z) : store :=
  fun q => if (q =? p)%nat then v else m q.

(** [Options], the embedded [Client] first.  [Copy] and [AutoCopy] are
    pointers that are only read: [None] when nil. *)
Record Options : Type := mkOptions {
  OptClient : Client;
  Token : string;
  Title : string;
  Msg : string;
  Group : string;
  URL : string;
  Level : string;
  Copy : option string;
  AutoCopy : option bool;
  Sound : string;
  Icon : string;
  Badge : intPtr;
  IsArchive : Z;
  Call : Z;
  Volume : intPtr;
  Enc : option EncOpt
}.

Definition setIsArchive (o : Options) (v : Z) : Options :=
  mkOptions (OptClient o) (Token o) (Title o) (Msg o) (Group o) (URL o) (Level o) (Copy o)
            (AutoCopy o) (Sound o) (Icon o) (Badge o) v (Call o) (Volume o) (Enc o).

Definition setCall (o : Options) (v : Z) : Options :=
  mkOptions (OptClient o) (Token o) (Title o) (Msg o) (Group o) (URL o) (Level o) (Copy o)
            (AutoCopy o) (Sound o) (Icon o) (Badge o) (IsArchive o) v (Volume o) (Enc o).

Definition DefaultDomain : string := "api.day.app".
Definition DefaultURL : string := ("https://" ++ DefaultDomain)%string.

Definition New (url : string) : Client := mkClient (TrimSuffix url "/").

Definition DefaultClient : Client := New DefaultURL.

(** ** encoding/json for [Options] *)

(** The values written: strings, numbers, booleans, and numbers inside
    quotes (the [string] option of a tag). *)
Inductive jvalue : Type :=
| JString (s : string)
| JNumber (z : Z)
| JBool (b : bool)
| JQuoted (z : Z).

Definition jobject : Type := list (string * jvalue).

Definition always (name value : string) : jobject := [(name, JString value)].

Definition omitString (name value : string) : jobject :=
  if String.eqb value "" then [] else [(name, JString value)].

Definition omitStringPtr (name : string) (value : option string) : jobject :=
  match value with
  | None => []
  | Some s => [(name, JString s)]
  end.

Definition omitBoolPtr (name : string) (value : option bool) : jobject :=
  match value with
  | None => []
  | Some b => [(name, JBool b)]
  end.

Definition omitIntPtr (m : store) (name : string) (value : intPtr) : jobject :=
  match value with
  | None => []
  | Some p => [(name, JNumber (load m p))]
  end.

Definition omitQuotedInt (name : string) (value : Z) : jobject :=
  if (value =? 0)%Z then [] else [(name, JQuoted value)].

Definition omitQuotedIntPtr (m : store) (name : string) (value : intPtr) : jobject :=
  match value with
  | None => []
  | Some p => [(name, JQuoted (load m p))]
  end.

(** The object of an [Options] value: [Client], [Token] and [Enc] are
    tagged ["-"]; [title] has no [omitempty]. *)
Definition jsonOfOptions (m : store) (o : Options) : jobject :=
  always "title" (Title o)
  ++ omitString "body" (Msg o)
  ++ omitString "group" (Group o)
  ++ omitString "url" (URL o)
  ++ omitString "level" (Level o)
  ++ omitStringPtr "copy" (Copy o)
  ++ omitBoolPtr "autoCopy" (AutoCopy o)
  ++ omitString "sound" (Sound o)
  ++ omitString "icon" (Icon o)
  ++ omitIntPtr m "badge" (Badge o)
  ++ omitQuotedInt "isArchive" (IsArchive o)
  ++ omitQuotedInt "call" (Call o)
  ++ omitQuotedIntPtr m "volume" (Volume o).

Fixpoint lookup (k : string) (obj : jobject) : option jvalue :=
  match obj with
  | [] => None
  | (k', v) :: rest => if String.eqb k' k then Some v else lookup k rest
  end.

Definition errTitleEmpty : error := "title is empty".
Definition errTokenEmpty : error := "token is empty".
Definition errEncMode : error := "enc mode must be ECB or CBC".

(** What [Push] does to the world. *)
Inductive event : Type :=
| Posted (url contentType body : string)
| Closed (resp : Response).

Section Package.

(** The quoted form of a string, as in [Marshal] above. *)
Variable quoteString : string -> list byte.

Definition encodeValue (v : jvalue) : list byte :=
  match v with
  | JString s => quoteString s
  | JNumber z => bytes_of_string (itoa z)
  | JBool b => bytes_of_string (if b then "true" else "false")
  | JQuoted z => ["034"%char] ++ bytes_of_string (itoa z) ++ ["034"%char]
  end.

Definition encode (fields : jobject) : list byte :=
  bytes_of_string "{"
  ++ joinBytes (bytes_of_string ",")
       (map (fun kv => quoteString (fst kv) ++ bytes_of_string ":" ++ encodeValue (snd kv))
            fields)
  ++ bytes_of_string "}".

(** The names [ECB] and [CBC] of the package, declared in a file that is
    not at hand. *)
Variable ECB CBC : string.

(** go-cryptobin: the value that [Encrypt] returns at the end of the
    chain [FromBytes(s).SetKey(key)[.SetIv(iv)].Aes().ECB()|CBC()
    .PKCS7Padding().Encrypt()], its error and its base64 text. *)
Variable Cryptobin : Type.
Variable encryptECB : string -> list byte -> Cryptobin.
Variable encryptCBC : string -> string -> list byte -> Cryptobin.
Variable Error : Cryptobin -> option error.
Variable ToBase64String : Cryptobin -> string.

Definition barkEncrypt (e : EncOpt) (s : list byte) : res string :=
  let chosen :=
    if String.eqb (ToUpper (Mode e)) ECB then Ok (encryptECB (Key e) s)
    else if String.eqb (ToUpper (Mode e)) CBC then Ok (encryptCBC (Key e) (Iv e) s)
    else Err errEncMode in
  c <- chosen ;;
  match Error c with
  | Some err => Err err
  | None => Ok (ToBase64String c)
  end.

(** The three blocks of [handleOpt] that bring [*o.Volume], [o.IsArchive]
    and [o.Call] into range. *)
Definition clampVolume (o : Options) (m : store) : store :=
  match Volume o with
  | Some p =>
      if String.eqb (Level o) "critical" then
        if (load m p <? 0)%Z then storeAt m p 0
        else if (10 <? load m p)%Z then storeAt m p 10
        else m
      else m
  | None => m
  end.

Definition clampIsArchive (o : Options) : Options :=
  if negb (IsArchive o =? 0)%Z then
    if (IsArchive o <? 0)%Z then setIsArchive o 0
    else if (1 <? IsArchive o)%Z then setIsArchive o 1
    else o
  else o.

Definition clampCall (o : Options) : Options :=
  if negb (Call o =? 0)%Z then
    if (Call o <? 0)%Z then setCall o 0
    else if (1 <? Call o)%Z then setCall o 1
    else o
  else o.

(** [handleOpt] works on the request in place: it returns its result, the
    request and the store as it leaves them.  [json.Marshal] has no error
    for the types of [Options] and of the map. *)
Definition handleOpt (o : Options) (m : store) : res string * Options * store :=
  if String.eqb (Title o) "" then (Err errTitleEmpty, o, m)
  else if String.eqb (Token o) "" then (Err errTokenEmpty, o, m)
  else
    let m := clampVolume o m in
    let o := clampIsArchive o in
    let o := clampCall o in
    let b := encode (jsonOfOptions m o) in
    match Enc o with
    | Some enc =>
        match barkEncrypt enc b with
        | Ok c => (Ok (string_of_bytes (encode [("ciphertext", JString c)])), o, m)
        | Err err => (Err err, o, m)
        | Panic => (Panic, o, m)
        end
    | None => (Ok (string_of_bytes b), o, m)
    end.

(** [http.Post(url, contentType, body)] and [json.NewDecoder(r.Body)
    .Decode] into [struct{Code int; Message string}]. *)
Variable Post : string -> string -> string -> res Response.
Variable Decode : Response -> res (Z * string).

(** [Client.Push]: the outcome, the request and the store afterwards, and
    what was done. *)
Definition ClientPush (c : Client) (o : Options) (m : store)
  : res unit * Options * store * list event :=
  match handleOpt o m with
  | (Err err, o, m) => (Err err, o, m, [])
  | (Panic, o, m) => (Panic, o, m, [])
  | (Ok s, o, m) =>
      let url :=
        if String.eqb (ServerURL (OptClient o)) ""
        then (ServerURL c ++ "/" ++ Token o)%string
        else (ServerURL (OptClient o) ++ "/" ++ Token o)%string in
      let contentType := "application/json;charset:utf-8"%string in
      match Post url contentType s with
      | Err err => (Err err, o, m, [Posted url contentType s])
      | Panic => (Panic, o, m, [Posted url contentType s])
      | Ok r =>
          let result :=
            match Decode r with
            | Err err => Err err
            | Panic => Panic
            | Ok (code, message) =>
                if negb (code =? 200)%Z then Err message else Ok tt
            end in
          (result, o, m, [Posted url contentType s; Closed r])
      end
  end.

(** The function [Push] of the package. *)
Definition Push (o : Options) (m : store) : res unit * Options * store * list event :=
  ClientPush DefaultClient o m.

End Package.

End BarkGo.

(* ================================================================== *)
(** * Hexadecimal, for test vectors *)

Definition hexValue (c : byte) : N :=
  let n := N_of_ascii c in
  if ((48 <=? n) && (n <=? 57))%N then (n - 48)%N
  else if ((97 <=? n) && (n <=? 102))%N then (n - 87)%N
  else 0%N.

Fixpoint unhex (s : string) : list byte :=
  match s with
  | String hi (String lo rest) => ascii_of_N (hexValue hi * 16 + hexValue lo) :: unhex rest
  | _ => []
  end.

(** [Seal] under the key and nonce of a test vector. *)
Definition sealVector (key nonce plaintext : string) : option (list byte) :=
  match AES.NewCipher (unhex key) with
  | Ok block =>
      match GCM.NewGCM block with
      | Ok g => GCM.Seal g (unhex nonce) (unhex plaintext) []
      | _ => None
      end
  | _ => None
  end.

(** One block encrypted under the key of a test vector. *)
Definition encryptVector (key plaintext : string) : option (list byte) :=
  match AES.NewCipher (unhex key) with
  | Ok block => Encrypt block (unhex plaintext)
  | _ => None
  end.

(* ================================================================== *)
(** * Sample requests *)

Definition cbcExample : EncOpt := mkEncOpt "cbc" "1234567890abcdef" "1111111111111111".

Definition gcmExample : EncOpt := mkEncOpt "gcm" "1234567890abcdef" "111111111111".

Definition ecbExample : EncOpt := mkEncOpt "ECB" "1234567890abcdef" "".

(** A plaintext one byte above the limit of GCM, [(2^32 - 2) * 16] bytes. *)
Definition tooLong : list byte := repeat zero (Z.to_nat (gcmMaxPlaintext + 1)).

(** The quoted form of a string in which nothing needs an escape
    (printable ASCII without the quote, the backslash, [<], [>] and [&]):
    the string between two quotes. *)
Definition quotePlain (s : string) : list byte :=
  ["034"%char] ++ bytes_of_string s ++ ["034"%char].

(** Scenario B: one device key, CBC. *)
Definition scenarioB : Options :=
  mkOptions "abc" [] "T" "B" "" "" "" "" "" "" None "" "" "" None "" None "" "" ""
            (Some cbcExample).

(** Scenario C: one key and a list that holds it. *)
Definition scenarioC : Options :=
  mkOptions "a" ["a"; "b"; "c"] "T" "B" "" "" "" "" "" "" None "" "" "" None "" None "" "" ""
            (Some cbcExample).

(** Scenario D: no routing key at all. *)
Definition scenarioD : Options :=
  mkOptions "" [] "T" "B" "" "" "" "" "" "" None "" "" "" None "" None "" "" ""
            (Some cbcExample).

(** A list of keys and no single key. *)
Definition keysOnly : Options :=
  mkOptions "" ["a"; "b"] "T" "B" "" "" "" "" "" "" None "" "" "" None "" None "" "" ""
            (Some cbcExample).

(** A store that holds the request [keysOnly]: the struct, the [EncOpt]
    and the array of the two keys. *)
Definition keysOnlyStore : Mem.heap :=
  [ Mem.COptions
      (mkOptions "" (Mem.mkSlice (Some 2%nat) 0 2 2) "T" "B" "" "" "" "" "" "" None "" "" ""
                 None "" None "" "" "" (Some 1%nat));
    Mem.CEncOpt cbcExample;
    Mem.CStrings ["a"; "b"] ].

(** A request for [bark.go]: level critical, the volume and the badge
    behind one pointer, and fields out of range; with it a store whose
    ints are all 20. *)
Definition barkGoRequest : BarkGo.Options :=
  BarkGo.mkOptions (BarkGo.mkClient "") "token" "T" "B" "" "" "critical" None None "" ""
                   (Some 0%nat) 5 (-3) (Some 0%nat) None.

Definition barkGoStore : BarkGo.store := fun _ => 20%Z.


(** A stand-in for go-cryptobin: AES with PKCS7 padding as [aesEncrypt]
    does it. *)
Definition standInECB (key : string) (s : list byte) : res string :=
  aesEncrypt s (mkEncOpt "ECB" key "").

Definition standInCBC (key iv : string) (s : list byte) : res string :=
  aesEncrypt s (mkEncOpt "CBC" key iv).

Definition standInError (c : res string) : option error :=
  match c with
  | Err e => Some e
  | _ => None
  end.

Definition standInText (c : res string) : string :=
  match c with
  | Ok t => t
  | _ => ""
  end.

(* ================================================================== *)
(** * Properties *)

(** ** Validate *)

Lemma length_zero_string (s : string) :
  (String.length s =? 0)%nat = true <-> s = ""%string.
Proof.
  destruct s; simpl; split; intro H; try reflexivity; discriminate.
Qed.

Lemma length_zero_list {A : Type} (l : list A) :
  (List.length l =? 0)%nat = true <-> l = [].
Proof.
  destruct l; simpl; split; intro H; try reflexivity; discriminate.
Qed.

Lemma eqb_empty (s : string) : String.eqb s "" = true <-> s = ""%string.
Proof. apply String.eqb_eq. Qed.

(** A request names no device. *)
Definition noDevice (o : Options) : Prop :=
  DeviceKey o = ""%string /\ DeviceKeys o = [].

(** A request has no content. *)
Definition noContent (o : Options) : Prop :=
  Title o = ""%string /\ Body o = ""%string /\ Markdown o = ""%string.

Definition keyLenOK (enc : EncOpt) : Prop :=
  String.length (Key enc) = 16%nat \/ String.length (Key enc) = 24%nat
  \/ String.length (Key enc) = 32%nat.

Definition knownMode (enc : EncOpt) : Prop :=
  ToUpper (Mode enc) = "CBC"%string \/ ToUpper (Mode enc) = "ECB"%string
  \/ ToUpper (Mode enc) = "GCM"%string.

Lemma Validate_noDevice (o : Options) :
  noDevice o -> Validate o = Some errDeviceKeyRequired.
Proof.
  intros [Hk Hks]. unfold Validate. rewrite Hk, Hks. reflexivity.
Qed.

Lemma Validate_device (o : Options) :
  ~ noDevice o ->
  Validate o =
    if String.eqb (Title o) "" && String.eqb (Body o) "" && String.eqb (Markdown o) ""
    then Some errContentRequired
    else match Enc o with Some enc => validateEnc enc | None => None end.
Proof.
  intros Hd. unfold Validate.
  destruct ((String.length (DeviceKey o) =? 0)%nat && (List.length (DeviceKeys o) =? 0)%nat)
    eqn:E; [| reflexivity].
  apply andb_true_iff in E as [E1 E2].
  apply length_zero_string in E1. apply length_zero_list in E2.
  exfalso. apply Hd. split; assumption.
Qed.

Lemma Validate_noContent (o : Options) :
  ~ noDevice o -> noContent o -> Validate o = Some errContentRequired.
Proof.
  intros Hd (Ht & Hb & Hm). rewrite Validate_device by assumption.
  rewrite Ht, Hb, Hm. reflexivity.
Qed.

Lemma Validate_enc (o : Options) :
  ~ noDevice o -> ~ noContent o ->
  Validate o = match Enc o with Some enc => validateEnc enc | None => None end.
Proof.
  intros Hd Hc. rewrite Validate_device by assumption.
  destruct (String.eqb (Title o) "" && String.eqb (Body o) "" && String.eqb (Markdown o) "")
    eqn:E; [| reflexivity].
  apply andb_true_iff in E as [E E3]. apply andb_true_iff in E as [E1 E2].
  apply eqb_empty in E1, E2, E3. exfalso. apply Hc. repeat split; assumption.
Qed.

Lemma validateEnc_keyLen (enc : EncOpt) :
  ~ keyLenOK enc -> validateEnc enc = Some errKeyLength.
Proof.
  intros Hk. unfold validateEnc.
  destruct (String.length (Key enc) =? 16)%nat eqn:E1.
  { apply Nat.eqb_eq in E1. exfalso. apply Hk. left. exact E1. }
  destruct (String.length (Key enc) =? 24)%nat eqn:E2.
  { apply Nat.eqb_eq in E2. exfalso. apply Hk. right. left. exact E2. }
  destruct (String.length (Key enc) =? 32)%nat eqn:E3.
  { apply Nat.eqb_eq in E3. exfalso. apply Hk. right. right. exact E3. }
  reflexivity.
Qed.

Lemma validateEnc_keyOK (enc : EncOpt) :
  keyLenOK enc ->
  validateEnc enc =
    let mode := ToUpper (Mode enc) in
    if String.eqb mode EncModeCBC then
      if (String.length (Iv enc) =? 0)%nat then Some errCBCRequiresIV else None
    else if String.eqb mode EncModeGCM then
      if (String.length (Iv enc) =? 0)%nat then Some errGCMRequiresNonce else None
    else if String.eqb mode EncModeECB then None
    else Some (errUnsupportedMode (Mode enc)).
Proof.
  intros Hk. unfold validateEnc.
  destruct Hk as [H | [H | H]]; rewrite H; reflexivity.
Qed.

(** C4.  [Validate] checks its rules in order and the first failure wins:
    no device identifier, then no content, then (with an encryption spec)
    a key length outside 16/24/32 (a 15-byte key, say), then, the mode
    upper-cased, an unknown mode, CBC with an empty IV, GCM with an empty
    nonce.  Nothing else is rejected: a GCM nonce passes as soon as it is
    not empty, whatever its length. *)
Theorem Validate_rules (o : Options) :
  (noDevice o -> Validate o = Some errDeviceKeyRequired)
  /\ (~ noDevice o -> noContent o -> Validate o = Some errContentRequired)
  /\ (~ noDevice o -> ~ noContent o -> Enc o = None -> Validate o = None)
  /\ (forall enc, ~ noDevice o -> ~ noContent o -> Enc o = Some enc ->
        (~ keyLenOK enc -> Validate o = Some errKeyLength)
        /\ (String.length (Key enc) = 15%nat -> Validate o = Some errKeyLength)
        /\ (keyLenOK enc -> ~ knownMode enc ->
              Validate o = Some (errUnsupportedMode (Mode enc)))
        /\ (keyLenOK enc -> ToUpper (Mode enc) = "CBC"%string ->
              Validate o = if String.eqb (Iv enc) "" then Some errCBCRequiresIV else None)
        /\ (keyLenOK enc -> ToUpper (Mode enc) = "GCM"%string ->
              Validate o = if String.eqb (Iv enc) "" then Some errGCMRequiresNonce else None)
        /\ (keyLenOK enc -> ToUpper (Mode enc) = "ECB"%string -> Validate o = None)).
Proof.
  split; [apply Validate_noDevice |].
  split; [apply Validate_noContent |].
  split.
  { intros Hd Hc He. rewrite Validate_enc by assumption. rewrite He. reflexivity. }
  intros enc Hd Hc He.
  rewrite Validate_enc by assumption. rewrite He.
  assert (Hiv : forall (A : Type) (x y : A),
             (if (String.length (Iv enc) =? 0)%nat then x else y)
             = if String.eqb (Iv enc) "" then x else y).
  { intros A x y. destruct (Iv enc); reflexivity. }
  repeat split.
  - apply validateEnc_keyLen.
  - intros H15. apply validateEnc_keyLen. unfold keyLenOK. rewrite H15. lia.
  - intros Hk Hm. rewrite validateEnc_keyOK by assumption. cbv zeta.
    unfold knownMode in Hm.
    destruct (String.eqb (ToUpper (Mode enc)) EncModeCBC) eqn:E1.
    { apply String.eqb_eq in E1. tauto. }
    destruct (String.eqb (ToUpper (Mode enc)) EncModeGCM) eqn:E2.
    { apply String.eqb_eq in E2. tauto. }
    destruct (String.eqb (ToUpper (Mode enc)) EncModeECB) eqn:E3.
    { apply String.eqb_eq in E3. tauto. }
    reflexivity.
  - intros Hk Hm. rewrite validateEnc_keyOK by assumption. cbv zeta.
    rewrite Hm. simpl. apply Hiv.
  - intros Hk Hm. rewrite validateEnc_keyOK by assumption. cbv zeta.
    rewrite Hm. simpl. apply Hiv.
  - intros Hk Hm. rewrite validateEnc_keyOK by assumption. cbv zeta.
    rewrite Hm. reflexivity.
Qed.

(** ** PKCS7 padding *)

Lemma Z_of_byte_of_Z (z : Z) : (0 <= z < 256)%Z -> Z_of_byte (byte_of_Z z) = z.
Proof.
  intros Hz. unfold Z_of_byte, byte_of_Z.
  rewrite Z.mod_small by assumption.
  rewrite N_ascii_embedding.
  - apply Z2N.id. lia.
  - change 256%N with (Z.to_N 256). apply Z2N.inj_lt; lia.
Qed.

Lemma Z_of_byte_range (b : byte) : (0 <= Z_of_byte b < 256)%Z.
Proof.
  unfold Z_of_byte. pose proof (N_ascii_bounded b). lia.
Qed.

Lemma byte_of_Z_of_byte (b : byte) : byte_of_Z (Z_of_byte b) = b.
Proof.
  unfold byte_of_Z. rewrite Z.mod_small by apply Z_of_byte_range.
  unfold Z_of_byte. rewrite N2Z.id. apply ascii_N_embedding.
Qed.

(** The number of padding bytes for [n] bytes of data and a block of
    [blockSize]. *)
Definition padLen (n : nat) (blockSize : Z) : Z :=
  (blockSize - Z.of_nat n mod blockSize)%Z.

Lemma padLen_range (n : nat) (blockSize : Z) :
  (0 < blockSize)%Z -> (1 <= padLen n blockSize <= blockSize)%Z.
Proof.
  intros Hb. unfold padLen.
  pose proof (Z.mod_pos_bound (Z.of_nat n) blockSize Hb). lia.
Qed.

Lemma pKCS7Padding_pos (data : list byte) (blockSize : Z) :
  (0 < blockSize)%Z ->
  pKCS7Padding data blockSize
  = Ok (data ++ repeat (byte_of_Z (padLen (List.length data) blockSize))
                       (Z.to_nat (padLen (List.length data) blockSize))).
Proof.
  intros Hb. unfold pKCS7Padding.
  replace (blockSize =? 0)%Z with false by (symmetry; apply Z.eqb_neq; lia).
  rewrite Z.rem_mod_nonneg by lia.
  fold (padLen (List.length data) blockSize).
  pose proof (padLen_range (List.length data) blockSize Hb) as Hr.
  unfold bytes_Repeat.
  replace (padLen (List.length data) blockSize <? 0)%Z with false
    by (symmetry; apply Z.ltb_ge; lia).
  reflexivity.
Qed.

Lemma padded_length (n : nat) (blockSize : Z) :
  (0 < blockSize)%Z ->
  ((Z.of_nat n + padLen n blockSize) mod blockSize = 0)%Z.
Proof.
  intros Hb. unfold padLen.
  replace (Z.of_nat n + (blockSize - Z.of_nat n mod blockSize))%Z
    with (Z.of_nat n - Z.of_nat n mod blockSize + 1 * blockSize)%Z by lia.
  rewrite Z.mod_add by lia.
  rewrite Zminus_mod_idemp_r. rewrite Z.sub_diag. apply Z.mod_0_l. lia.
Qed.

(** C7.  With 16-byte blocks [pKCS7Padding] appends [N] bytes of value
    [N], where [N = 16 - len mod 16] lies between 1 and 16 (16 when the
    input is block-aligned); the result is a positive multiple of 16 bytes
    long and longer than the input. *)
Theorem pKCS7Padding_spec (data : list byte) :
  exists N : Z,
    N = (16 - Z.of_nat (List.length data) mod 16)%Z
    /\ (1 <= N <= 16)%Z
    /\ ((Z.of_nat (List.length data) mod 16 = 0)%Z -> N = 16%Z)
    /\ Z_of_byte (byte_of_Z N) = N
    /\ pKCS7Padding data 16 = Ok (data ++ repeat (byte_of_Z N) (Z.to_nat N))
    /\ (List.length (data ++ repeat (byte_of_Z N) (Z.to_nat N))
        = List.length data + Z.to_nat N)%nat
    /\ (List.length (data ++ repeat (byte_of_Z N) (Z.to_nat N)) mod 16 = 0)%nat
    /\ (0 < List.length (data ++ repeat (byte_of_Z N) (Z.to_nat N)))%nat
    /\ (List.length data < List.length (data ++ repeat (byte_of_Z N) (Z.to_nat N)))%nat.
Proof.
  exists (padLen (List.length data) 16).
  pose proof (padLen_range (List.length data) 16 ltac:(lia)) as Hr.
  assert (Hlen : (List.length (data ++ repeat (byte_of_Z (padLen (List.length data) 16))
                                 (Z.to_nat (padLen (List.length data) 16)))
                  = List.length data + Z.to_nat (padLen (List.length data) 16))%nat).
  { rewrite length_app, repeat_length. reflexivity. }
  split; [reflexivity |].
  split; [exact Hr |].
  split; [unfold padLen; intros H0; rewrite H0; reflexivity |].
  split; [apply Z_of_byte_of_Z; lia |].
  split; [apply pKCS7Padding_pos; lia |].
  split; [exact Hlen |].
  rewrite Hlen.
  pose proof (padded_length (List.length data) 16 ltac:(lia)) as Hm.
  split.
  { apply Nat2Z.inj. rewrite Nat2Z.inj_mod, Nat2Z.inj_add, Z2Nat.id by lia. exact Hm. }
  split; lia.
Qed.

(** ** base64 *)

Lemma lor_disjoint (x y k : Z) :
  (0 <= k)%Z -> (x mod 2 ^ k = 0)%Z -> (0 <= y < 2 ^ k)%Z -> Z.lor x y = (x + y)%Z.
Proof.
  intros Hk Hx Hy.
  assert (Hland : Z.land x y = 0%Z).
  { apply Z.bits_inj'. intros n Hn. rewrite Z.land_spec, Z.bits_0.
    destruct (Z.lt_ge_cases n k) as [Hlt | Hge].
    - rewrite <- (Z.mod_pow2_bits_low x k n) by lia. rewrite Hx, Z.bits_0. reflexivity.
    - assert (Z.testbit y n = false) as ->; [| apply andb_false_r].
      destruct (Z.eq_dec y 0) as [-> | Hy0]; [apply Z.bits_0 |].
      apply Z.bits_above_log2; [lia |].
      assert (Z.log2 y < k)%Z by (apply Z.log2_lt_pow2; lia). lia. }
  rewrite <- (Z.lxor_lor _ _ Hland). symmetry. apply Z.add_nocarry_lxor. exact Hland.
Qed.

Lemma b64index_b64char (i : Z) : (0 <= i < 64)%Z -> b64index (b64char i) = Some i.
Proof.
  intros Hi.
  assert (H : exists n, (n < 64)%nat /\ i = Z.of_nat n).
  { exists (Z.to_nat i). split; lia. }
  destruct H as (n & Hn & ->).
  do 64 (destruct n as [| n]; [vm_compute; reflexivity |]).
  lia.
Qed.

Lemma b64char_not_pad (i : Z) : (0 <= i < 64)%Z -> Ascii.eqb (b64char i) padChar = false.
Proof.
  intros Hi.
  assert (H : exists n, (n < 64)%nat /\ i = Z.of_nat n).
  { exists (Z.to_nat i). split; lia. }
  destruct H as (n & Hn & ->).
  do 64 (destruct n as [| n]; [vm_compute; reflexivity |]).
  lia.
Qed.

Lemma sextet_range (v : Z) : (0 <= Z.land v 63 < 64)%Z.
Proof.
  change 63%Z with (Z.ones 6). rewrite Z.land_ones by lia.
  apply Z.mod_pos_bound. reflexivity.
Qed.

Ltac to_arith :=
  repeat rewrite Z.shiftl_mul_pow2 by lia;
  repeat rewrite Z.shiftr_div_pow2 by lia;
  change 63%Z with (Z.ones 6);
  repeat rewrite Z.land_ones by lia;
  change (2 ^ 6)%Z with 64%Z; change (2 ^ 8)%Z with 256%Z;
  change (2 ^ 12)%Z with 4096%Z; change (2 ^ 16)%Z with 65536%Z;
  change (2 ^ 18)%Z with 262144%Z.

Lemma group3 (b0 b1 b2 : Z) :
  (0 <= b0 < 256)%Z -> (0 <= b1 < 256)%Z -> (0 <= b2 < 256)%Z ->
  let val := Z.lor (Z.lor (Z.shiftl b0 16) (Z.shiftl b1 8)) b2 in
  let i0 := Z.land (Z.shiftr val 18) 63 in
  let i1 := Z.land (Z.shiftr val 12) 63 in
  let i2 := Z.land (Z.shiftr val 6) 63 in
  let i3 := Z.land val 63 in
  let val' := Z.lor (Z.lor (Z.lor (Z.shiftl i0 18) (Z.shiftl i1 12)) (Z.shiftl i2 6)) i3 in
  (Z.shiftr val' 16 mod 256 = b0 /\ Z.shiftr val' 8 mod 256 = b1 /\ val' mod 256 = b2)%Z.
Proof.
  intros H0 H1 H2 val i0 i1 i2 i3 val'.
  assert (Hval : val = (b0 * 65536 + b1 * 256 + b2)%Z).
  { unfold val. to_arith.
    rewrite (lor_disjoint (b0 * 65536) (b1 * 256) 16); try lia.
    - rewrite (lor_disjoint _ b2 8); try lia.
      change (2 ^ 8)%Z with 256%Z.
      replace (b0 * 65536 + b1 * 256)%Z with ((b0 * 256 + b1) * 256)%Z by lia.
      apply Z.mod_mul. lia.
    - change (2 ^ 16)%Z with 65536%Z. apply Z.mod_mul. lia. }
  pose proof (sextet_range (Z.shiftr val 18)) as R0.
  pose proof (sextet_range (Z.shiftr val 12)) as R1.
  pose proof (sextet_range (Z.shiftr val 6)) as R2.
  pose proof (sextet_range val) as R3.
  fold i0 in R0. fold i1 in R1. fold i2 in R2. fold i3 in R3.
  assert (Hval' : val' = (i0 * 262144 + i1 * 4096 + i2 * 64 + i3)%Z).
  { unfold val'. to_arith.
    rewrite (lor_disjoint (i0 * 262144) (i1 * 4096) 18); try lia.
    - rewrite (lor_disjoint _ (i2 * 64) 12); try lia.
      + rewrite (lor_disjoint _ i3 6); try lia.
        change (2 ^ 6)%Z with 64%Z.
        replace (i0 * 262144 + i1 * 4096 + i2 * 64)%Z
          with ((i0 * 4096 + i1 * 64 + i2) * 64)%Z by lia.
        apply Z.mod_mul. lia.
      + change (2 ^ 12)%Z with 4096%Z.
        replace (i0 * 262144 + i1 * 4096)%Z with ((i0 * 64 + i1) * 4096)%Z by lia.
        apply Z.mod_mul. lia.
    - change (2 ^ 18)%Z with 262144%Z. apply Z.mod_mul. lia. }
  assert (Hi0 : (i0 = (val / 262144) mod 64)%Z) by (unfold i0; to_arith; reflexivity).
  assert (Hi1 : (i1 = (val / 4096) mod 64)%Z) by (unfold i1; to_arith; reflexivity).
  assert (Hi2 : (i2 = (val / 64) mod 64)%Z) by (unfold i2; to_arith; reflexivity).
  assert (Hi3 : (i3 = val mod 64)%Z) by (unfold i3; to_arith; reflexivity).
  rewrite !Z.shiftr_div_pow2 by lia.
  change (2 ^ 16)%Z with 65536%Z. change (2 ^ 8)%Z with 256%Z.
  clearbody val val' i0 i1 i2 i3. subst val val'.
  repeat split; Z.div_mod_to_equations; lia.
Qed.

Lemma group2 (b0 b1 : Z) :
  (0 <= b0 < 256)%Z -> (0 <= b1 < 256)%Z ->
  let val := Z.lor (Z.shiftl b0 16) (Z.shiftl b1 8) in
  let i0 := Z.land (Z.shiftr val 18) 63 in
  let i1 := Z.land (Z.shiftr val 12) 63 in
  let i2 := Z.land (Z.shiftr val 6) 63 in
  let val' := Z.lor (Z.lor (Z.shiftl i0 18) (Z.shiftl i1 12)) (Z.shiftl i2 6) in
  (Z.shiftr val' 16 mod 256 = b0 /\ Z.shiftr val' 8 mod 256 = b1)%Z.
Proof.
  intros H0 H1 val i0 i1 i2 val'.
  assert (Hval : val = (b0 * 65536 + b1 * 256)%Z).
  { unfold val. to_arith.
    rewrite (lor_disjoint (b0 * 65536) (b1 * 256) 16); try lia.
    change (2 ^ 16)%Z with 65536%Z. apply Z.mod_mul. lia. }
  pose proof (sextet_range (Z.shiftr val 18)) as R0.
  pose proof (sextet_range (Z.shiftr val 12)) as R1.
  pose proof (sextet_range (Z.shiftr val 6)) as R2.
  fold i0 in R0. fold i1 in R1. fold i2 in R2.
  assert (Hval' : val' = (i0 * 262144 + i1 * 4096 + i2 * 64)%Z).
  { unfold val'. to_arith.
    rewrite (lor_disjoint (i0 * 262144) (i1 * 4096) 18); try lia.
    - rewrite (lor_disjoint _ (i2 * 64) 12); try lia.
      change (2 ^ 12)%Z with 4096%Z.
      replace (i0 * 262144 + i1 * 4096)%Z with ((i0 * 64 + i1) * 4096)%Z by lia.
      apply Z.mod_mul. lia.
    - change (2 ^ 18)%Z with 262144%Z. apply Z.mod_mul. lia. }
  assert (Hi0 : (i0 = (val / 262144) mod 64)%Z) by (unfold i0; to_arith; reflexivity).
  assert (Hi1 : (i1 = (val / 4096) mod 64)%Z) by (unfold i1; to_arith; reflexivity).
  assert (Hi2 : (i2 = (val / 64) mod 64)%Z) by (unfold i2; to_arith; reflexivity).
  rewrite !Z.shiftr_div_pow2 by lia.
  change (2 ^ 16)%Z with 65536%Z. change (2 ^ 8)%Z with 256%Z.
  clearbody val val' i0 i1 i2. subst val val'.
  repeat split; Z.div_mod_to_equations; lia.
Qed.

Lemma group1 (b0 : Z) :
  (0 <= b0 < 256)%Z ->
  let val := Z.shiftl b0 16 in
  let i0 := Z.land (Z.shiftr val 18) 63 in
  let i1 := Z.land (Z.shiftr val 12) 63 in
  let val' := Z.lor (Z.shiftl i0 18) (Z.shiftl i1 12) in
  (Z.shiftr val' 16 mod 256 = b0)%Z.
Proof.
  intros H0 val i0 i1 val'.
  assert (Hval : val = (b0 * 65536)%Z) by (unfold val; to_arith; reflexivity).
  pose proof (sextet_range (Z.shiftr val 18)) as R0.
  pose proof (sextet_range (Z.shiftr val 12)) as R1.
  fold i0 in R0. fold i1 in R1.
  assert (Hval' : val' = (i0 * 262144 + i1 * 4096)%Z).
  { unfold val'. to_arith.
    rewrite (lor_disjoint (i0 * 262144) (i1 * 4096) 18); try lia.
    change (2 ^ 18)%Z with 262144%Z. apply Z.mod_mul. lia. }
  assert (Hi0 : (i0 = (val / 262144) mod 64)%Z) by (unfold i0; to_arith; reflexivity).
  assert (Hi1 : (i1 = (val / 4096) mod 64)%Z) by (unfold i1; to_arith; reflexivity).
  rewrite !Z.shiftr_div_pow2 by lia.
  change (2 ^ 16)%Z with 65536%Z.
  clearbody val val' i0 i1. subst val val'.
  Z.div_mod_to_equations; lia.
Qed.

Lemma byte_of_Z_mod (z : Z) (b : byte) : (z mod 256 = Z_of_byte b)%Z -> byte_of_Z z = b.
Proof.
  intros H. unfold byte_of_Z. rewrite H.
  unfold Z_of_byte. rewrite N2Z.id. apply ascii_N_embedding.
Qed.

Lemma base64_Decode_cons (c0 c1 c2 c3 : byte) (rest : list byte) :
  rest <> [] ->
  base64_Decode (c0 :: c1 :: c2 :: c3 :: rest) =
    (i0 <~ b64index c0 ;;
     i1 <~ b64index c1 ;;
     i2 <~ b64index c2 ;;
     i3 <~ b64index c3 ;;
     let val := Z.lor (Z.lor (Z.lor (Z.shiftl i0 18) (Z.shiftl i1 12)) (Z.shiftl i2 6)) i3 in
     tl <~ base64_Decode rest ;;
     Some (byte_of_Z (Z.shiftr val 16) :: byte_of_Z (Z.shiftr val 8) :: byte_of_Z val :: tl)).
Proof.
  intros Hr. destruct rest; [congruence | reflexivity].
Qed.

Lemma base64_Encode_nonempty (src : list byte) : src <> [] -> base64_Encode src <> [].
Proof.
  destruct src as [| a [| b [| c rest]]]; intros H; [congruence | | |];
    cbn [base64_Encode]; discriminate.
Qed.

(** Decoding undoes encoding. *)
Lemma base64_roundtrip_le (n : nat) (src : list byte) :
  (List.length src <= n)%nat -> base64_Decode (base64_Encode src) = Some src.
Proof.
  revert src. induction n as [| n IH]; intros src Hn.
  { destruct src; [reflexivity | simpl in Hn; lia]. }
  destruct src as [| s0 [| s1 [| s2 rest]]].
  - reflexivity.
  - pose proof (group1 (Z_of_byte s0) (Z_of_byte_range s0)) as G. cbv zeta in G.
    cbn [base64_Encode base64_Decode].
    rewrite !b64index_b64char by apply sextet_range. cbn [optbind].
    rewrite Ascii.eqb_refl.
    rewrite (byte_of_Z_mod _ s0 G). reflexivity.
  - pose proof (group2 (Z_of_byte s0) (Z_of_byte s1) (Z_of_byte_range s0) (Z_of_byte_range s1))
      as G. cbv zeta in G. destruct G as [G0 G1].
    cbn [base64_Encode base64_Decode].
    rewrite !b64index_b64char by apply sextet_range. cbn [optbind].
    rewrite Ascii.eqb_refl.
    rewrite (b64char_not_pad _ (sextet_range _)).
    rewrite (byte_of_Z_mod _ s0 G0), (byte_of_Z_mod _ s1 G1). reflexivity.
  - pose proof (group3 (Z_of_byte s0) (Z_of_byte s1) (Z_of_byte s2)
                  (Z_of_byte_range s0) (Z_of_byte_range s1) (Z_of_byte_range s2)) as G.
    cbv zeta in G. destruct G as (G0 & G1 & G2).
    assert (IHrest : base64_Decode (base64_Encode rest) = Some rest).
    { apply IH. simpl in Hn. lia. }
    change (base64_Encode (s0 :: s1 :: s2 :: rest)) with
      (let val := Z.lor (Z.lor (Z.shiftl (Z_of_byte s0) 16) (Z.shiftl (Z_of_byte s1) 8))
                        (Z_of_byte s2) in
       b64char (Z.land (Z.shiftr val 18) 63)
       :: b64char (Z.land (Z.shiftr val 12) 63)
       :: b64char (Z.land (Z.shiftr val 6) 63)
       :: b64char (Z.land val 63)
       :: base64_Encode rest).
    cbv zeta.
    destruct rest as [| r0 rest'].
    + cbn [base64_Encode base64_Decode].
      rewrite !b64index_b64char by apply sextet_range. cbn [optbind].
      rewrite (b64char_not_pad _ (sextet_range _)).
      rewrite (byte_of_Z_mod _ s0 G0), (byte_of_Z_mod _ s1 G1), (byte_of_Z_mod _ s2 G2).
      reflexivity.
    + rewrite base64_Decode_cons by (apply base64_Encode_nonempty; congruence).
      rewrite !b64index_b64char by apply sextet_range. cbn [optbind].
      rewrite IHrest.
      rewrite (byte_of_Z_mod _ s0 G0), (byte_of_Z_mod _ s1 G1), (byte_of_Z_mod _ s2 G2).
      reflexivity.
Qed.

Lemma base64_roundtrip (src : list byte) :
  DecodeString (EncodeToString src) = Some src.
Proof.
  unfold DecodeString, EncodeToString, bytes_of_string, string_of_bytes.
  rewrite list_ascii_of_string_of_list_ascii.
  apply (base64_roundtrip_le (List.length src)). lia.
Qed.

(** ** Exclusive or *)

Lemma xor_byte_cancel (a b : byte) : xor_byte (xor_byte a b) b = a.
Proof.
  destruct a, b. cbn. f_equal; btauto.
Qed.

Lemma xor_byte_comm (a b : byte) : xor_byte a b = xor_byte b a.
Proof.
  destruct a, b. cbn. f_equal; apply xorb_comm.
Qed.

Lemma xor_byte_assoc (a b c : byte) :
  xor_byte (xor_byte a b) c = xor_byte a (xor_byte b c).
Proof.
  destruct a, b, c. cbn. f_equal; apply xorb_assoc.
Qed.

Lemma XORBytes_length (x y : list byte) :
  List.length (XORBytes x y) = Nat.min (List.length x) (List.length y).
Proof.
  revert y. induction x as [| a x IH]; intros [| b y]; simpl; auto.
Qed.

Lemma XORBytes_cancel (x y : list byte) :
  (List.length x <= List.length y)%nat -> XORBytes (XORBytes x y) y = x.
Proof.
  revert y. induction x as [| a x IH]; intros [| b y] H; simpl in *; try reflexivity; try lia.
  rewrite xor_byte_cancel, IH by lia. reflexivity.
Qed.

(** ** Blocks of a byte string *)

Lemma chunk_0 (bs : nat) (l : list byte) : chunk bs 0 l = firstn bs l.
Proof. reflexivity. Qed.

Lemma chunk_S (bs i : nat) (l : list byte) :
  chunk bs (S i) l = chunk bs i (skipn bs l).
Proof.
  unfold chunk. rewrite skipn_skipn. f_equal. f_equal. simpl. lia.
Qed.

Lemma chunk_app_0 (bs : nat) (x rest : list byte) :
  List.length x = bs -> chunk bs 0 (x ++ rest) = x.
Proof.
  intros H. rewrite chunk_0. rewrite firstn_app, H, Nat.sub_diag. simpl.
  rewrite app_nil_r. rewrite <- H. apply firstn_all.
Qed.

Lemma skipn_app_exact {A : Type} (x rest : list A) (n : nat) :
  List.length x = n -> skipn n (x ++ rest) = rest.
Proof.
  intros H. rewrite skipn_app, H, Nat.sub_diag. simpl.
  rewrite <- H, skipn_all. reflexivity.
Qed.

Lemma firstn_app_exact {A : Type} (x rest : list A) (n : nat) :
  List.length x = n -> firstn n (x ++ rest) = x.
Proof.
  intros H. rewrite firstn_app, H, Nat.sub_diag. simpl.
  rewrite app_nil_r. rewrite <- H. apply firstn_all.
Qed.

Lemma chunk_app_S (bs i : nat) (x rest : list byte) :
  List.length x = bs -> chunk bs (S i) (x ++ rest) = chunk bs i rest.
Proof.
  intros H. rewrite chunk_S, skipn_app_exact by assumption. reflexivity.
Qed.

Lemma blocks_nonempty (bs k : nat) (l : list byte) :
  (0 < bs)%nat -> List.length l = (S k * bs)%nat -> exists a l', l = a :: l'.
Proof.
  intros Hbs Hl. destruct l as [| a l']; [simpl in Hl; lia | eauto].
Qed.

(** ** CBC and ECB over any block cipher *)

Section Modes.

Variable b : Block.
Hypothesis laws : BlockLaws b.

Let bs := BlockSize b.

Lemma cbcLoop_roundtrip (x : cbcEncrypter) (k : nat) :
  cbc_b x = b -> cbc_blockSize x = bs ->
  forall (src iv : list byte) (fuel : nat),
    List.length src = (k * bs)%nat -> List.length iv = bs -> (k <= fuel)%nat ->
    exists ct,
      cbcLoop fuel x iv src = Some ct
      /\ List.length ct = List.length src
      /\ forall fuel', (k <= fuel')%nat -> cbcDecryptLoop fuel' b iv ct = Some src.
Proof.
  intros Hb Hbs. pose proof (block_size_pos b laws) as Hpos. fold bs in Hpos.
  induction k as [| k IH]; intros src iv fuel Hsrc Hiv Hfuel.
  - destruct src; [| simpl in Hsrc; lia].
    exists []. split; [destruct fuel; reflexivity |]. split; [reflexivity |].
    intros fuel' _. destruct fuel'; reflexivity.
  - destruct (blocks_nonempty bs k src Hpos Hsrc) as (a & src' & Esrc).
    destruct fuel as [| fuel]; [lia |].
    rewrite Esrc. cbn [cbcLoop]. rewrite <- Esrc. rewrite Hb, Hbs.
    set (blk := XORBytes (firstn bs src) iv).
    assert (Hfirst : List.length (firstn bs src) = bs).
    { rewrite length_firstn. rewrite Hsrc. simpl. lia. }
    assert (Hblk : List.length blk = bs).
    { unfold blk. rewrite XORBytes_length. lia. }
    destruct (encrypt_full b laws blk Hblk) as (dst & Edst & Hdst). fold bs in Hdst.
    rewrite Edst. cbn [optbind].
    assert (Hskip : List.length (skipn bs src) = (k * bs)%nat).
    { rewrite length_skipn. rewrite Hsrc. simpl. lia. }
    destruct (IH (skipn bs src) dst fuel Hskip Hdst ltac:(lia)) as (rest & Erest & Hrest & Drest).
    rewrite Erest. cbn [optbind].
    exists (dst ++ rest). split; [reflexivity |]. split.
    { rewrite length_app, Hrest, Hdst, Hskip, Hsrc. simpl. lia. }
    intros fuel' Hfuel'. destruct fuel' as [| fuel']; [lia |].
    assert (Hne : exists c ct', dst ++ rest = c :: ct').
    { destruct dst as [| c dst']; [simpl in Hdst; lia | simpl; eauto]. }
    destruct Hne as (c & ct' & Ect). rewrite Ect. cbn [cbcDecryptLoop]. rewrite <- Ect.
    fold bs. rewrite firstn_app_exact by assumption.
    replace (List.length dst <? bs)%nat with false by (symmetry; apply Nat.ltb_ge; lia).
    rewrite (decrypt_encrypt b laws blk dst Hblk Edst). cbn [optbind].
    rewrite skipn_app_exact by assumption.
    rewrite (Drest fuel') by lia. cbn [optbind].
    unfold blk. rewrite XORBytes_cancel by lia.
    rewrite firstn_skipn. reflexivity.
Qed.

(** [CryptBlocks] on whole blocks returns, and standard CBC decryption
    with the same IV gives the input back. *)
Lemma CryptBlocks_roundtrip (iv src : list byte) :
  List.length iv = bs -> (List.length src mod bs = 0)%nat ->
  exists x ct,
    NewCBCEncrypter b iv = Some x
    /\ CryptBlocks x src = Some ct
    /\ List.length ct = List.length src
    /\ cbcDecrypt b iv ct = Some src.
Proof.
  intros Hiv Hsrc. pose proof (block_size_pos b laws) as Hpos. fold bs in Hpos.
  unfold NewCBCEncrypter. fold bs. rewrite Hiv, Nat.eqb_refl. cbn [negb].
  exists (mkCBC b bs iv).
  assert (Hk : List.length src = (List.length src / bs * bs)%nat).
  { pose proof (Nat.div_mod_eq (List.length src) bs). lia. }
  assert (Hfuel : (List.length src / bs <= List.length src)%nat).
  { apply Nat.Div0.div_le_upper_bound. nia. }
  destruct (cbcLoop_roundtrip (mkCBC b bs iv) (List.length src / bs) eq_refl eq_refl
              src iv (List.length src) Hk Hiv Hfuel) as (ct & Ect & Hct & Dct).
  exists ct. split; [reflexivity |].
  unfold CryptBlocks. cbn [cbc_blockSize cbc_iv].
  replace (bs =? 0)%nat with false by (symmetry; apply Nat.eqb_neq; lia).
  rewrite Hsrc. cbn [Nat.eqb negb].
  split; [exact Ect |]. split; [exact Hct |].
  unfold cbcDecrypt. fold bs. rewrite Hiv, Nat.eqb_refl. cbn [negb].
  apply Dct. rewrite Hct. exact Hfuel.
Qed.

(** The ECB loop encrypts each block on its own: block [i] of the output
    is the encryption of block [i] of the input. *)
Lemma ecbLoop_blocks (k : nat) :
  forall (src : list byte) (fuel : nat),
    List.length src = (k * bs)%nat -> (k <= fuel)%nat ->
    exists ct,
      ecbLoop fuel b bs src = Some ct
      /\ List.length ct = List.length src
      /\ forall i, (i < k)%nat -> Encrypt b (chunk bs i src) = Some (chunk bs i ct).
Proof.
  pose proof (block_size_pos b laws) as Hpos. fold bs in Hpos.
  induction k as [| k IH]; intros src fuel Hsrc Hfuel.
  - destruct src; [| simpl in Hsrc; lia].
    exists []. split; [destruct fuel; reflexivity |]. split; [reflexivity |].
    intros i Hi. lia.
  - destruct (blocks_nonempty bs k src Hpos Hsrc) as (a & src' & Esrc).
    destruct fuel as [| fuel]; [lia |].
    rewrite Esrc. cbn [ecbLoop]. rewrite <- Esrc.
    replace (List.length src <? bs)%nat with false
      by (symmetry; apply Nat.ltb_ge; rewrite Hsrc; simpl; lia).
    assert (Hfirst : List.length (firstn bs src) = bs).
    { rewrite length_firstn. rewrite Hsrc. simpl. lia. }
    destruct (encrypt_full b laws (firstn bs src) Hfirst) as (dst & Edst & Hdst).
    fold bs in Hdst. rewrite Edst. cbn [optbind].
    assert (Hskip : List.length (skipn bs src) = (k * bs)%nat).
    { rewrite length_skipn. rewrite Hsrc. simpl. lia. }
    destruct (IH (skipn bs src) fuel Hskip ltac:(lia)) as (rest & Erest & Hrest & Brest).
    rewrite Erest. cbn [optbind].
    exists (dst ++ rest). split; [reflexivity |]. split.
    { rewrite length_app, Hrest, Hdst, Hskip, Hsrc. simpl. lia. }
    intros [| i] Hi.
    + rewrite chunk_app_0 by assumption. rewrite chunk_0. exact Edst.
    + rewrite chunk_app_S by assumption. rewrite chunk_S. apply Brest. lia.
Qed.

End Modes.

(** ** PKCS7 unpadding *)

Lemma rev_repeat {A : Type} (a : A) (n : nat) : rev (repeat a n) = repeat a n.
Proof.
  induction n as [| n IH]; [reflexivity |].
  simpl. rewrite IH. symmetry. apply repeat_cons.
Qed.

Lemma forallb_repeat (c : byte) (n : nat) : forallb (Ascii.eqb c) (repeat c n) = true.
Proof.
  induction n as [| n IH]; simpl; [reflexivity |].
  rewrite Ascii.eqb_refl. exact IH.
Qed.

Lemma pKCS7Unpadding_padded (data : list byte) (N : Z) (blockSize : nat) :
  (1 <= N <= Z.of_nat blockSize)%Z -> (N < 256)%Z ->
  pKCS7Unpadding (data ++ repeat (byte_of_Z N) (Z.to_nat N)) blockSize = Some data.
Proof.
  intros HN H256. unfold pKCS7Unpadding.
  rewrite rev_app_distr, rev_repeat.
  assert (Hhd : exists tl, repeat (byte_of_Z N) (Z.to_nat N) ++ rev data = byte_of_Z N :: tl).
  { destruct (Z.to_nat N) as [| n] eqn:En; [lia |]. simpl. eauto. }
  destruct Hhd as (tl & ->).
  rewrite Z_of_byte_of_Z by lia.
  rewrite length_app, repeat_length.
  replace (Z.to_nat N =? 0)%nat with false by (symmetry; apply Nat.eqb_neq; lia).
  replace (blockSize <? Z.to_nat N)%nat with false by (symmetry; apply Nat.ltb_ge; lia).
  replace (List.length data + Z.to_nat N <? Z.to_nat N)%nat with false
    by (symmetry; apply Nat.ltb_ge; lia).
  cbn [orb].
  replace (List.length data + Z.to_nat N - Z.to_nat N)%nat with (List.length data) by lia.
  rewrite skipn_app_exact, firstn_app_exact by reflexivity.
  rewrite forallb_repeat. reflexivity.
Qed.

(** ** AES: the inverse cipher undoes the cipher *)

Module AESFacts.
Import AES.

Ltac destruct_state s :=
  destruct s as [[[[[[? ?] ?] ?] [[[? ?] ?] ?]] [[[? ?] ?] ?]] [[[? ?] ?] ?]].

Lemma inv_sbox_sbox (a : byte) : inv_sbox (sbox a) = a.
Proof.
  destruct a as [b0 b1 b2 b3 b4 b5 b6 b7].
  destruct b0, b1, b2, b3, b4, b5, b6, b7; vm_compute; reflexivity.
Qed.

Lemma InvSubBytes_SubBytes (s : state) : InvSubBytes (SubBytes s) = s.
Proof.
  destruct_state s.
  unfold InvSubBytes, SubBytes, map_state, map_word.
  rewrite !inv_sbox_sbox. reflexivity.
Qed.

Lemma InvShiftRows_ShiftRows (s : state) : InvShiftRows (ShiftRows s) = s.
Proof.
  destruct_state s.
  reflexivity.
Qed.

Lemma InvMixColumn_MixColumn (w : word) : InvMixColumn (MixColumn w) = w.
Proof.
  destruct w as [[[a0 a1] a2] a3].
  destruct a0, a1, a2, a3.
  cbv [InvMixColumn MixColumn xor4 mul2 mul3 mul9 mul11 mul13 mul14 xtime xor_byte].
  repeat f_equal; btauto.
Qed.

Lemma InvMixColumns_MixColumns (s : state) : InvMixColumns (MixColumns s) = s.
Proof.
  destruct s as [[[c0 c1] c2] c3].
  unfold InvMixColumns, MixColumns, map_state.
  rewrite !InvMixColumn_MixColumn. reflexivity.
Qed.

Lemma xor_word_cancel (x y : word) : xor_word (xor_word x y) y = x.
Proof.
  destruct x as [[[? ?] ?] ?], y as [[[? ?] ?] ?].
  unfold xor_word. rewrite !xor_byte_cancel. reflexivity.
Qed.

Lemma AddRoundKey_cancel (s k : state) : AddRoundKey (AddRoundKey s k) k = s.
Proof.
  destruct s as [[[? ?] ?] ?], k as [[[? ?] ?] ?].
  unfold AddRoundKey. rewrite !xor_word_cancel. reflexivity.
Qed.

Lemma inv_rounds_rounds (ks : list state) (s : state) :
  inv_rounds ks (rounds ks s) = s.
Proof.
  revert s. induction ks as [| k ks IH]; intros s; [reflexivity |].
  destruct ks as [| k' ks'].
  - cbn [rounds inv_rounds].
    rewrite AddRoundKey_cancel, InvShiftRows_ShiftRows, InvSubBytes_SubBytes.
    reflexivity.
  - change (rounds (k :: k' :: ks') s)
      with (rounds (k' :: ks') (AddRoundKey (MixColumns (ShiftRows (SubBytes s))) k)).
    change (inv_rounds (k :: k' :: ks') ?t)
      with (InvSubBytes (InvShiftRows (InvMixColumns
              (AddRoundKey (inv_rounds (k' :: ks') t) k)))).
    rewrite IH.
    rewrite AddRoundKey_cancel, InvMixColumns_MixColumns, InvShiftRows_ShiftRows,
      InvSubBytes_SubBytes.
    reflexivity.
Qed.

Lemma InvCipher_Cipher (ks : list state) (s : state) : InvCipher ks (Cipher ks s) = s.
Proof.
  destruct ks as [| k0 ks]; [reflexivity |].
  unfold InvCipher, Cipher. rewrite inv_rounds_rounds. apply AddRoundKey_cancel.
Qed.

Lemma state_of_bytes_of_state (s : state) : state_of_bytes (bytes_of_state s) = Some s.
Proof.
  destruct_state s.
  reflexivity.
Qed.

Lemma bytes_of_state_length (s : state) : List.length (bytes_of_state s) = 16%nat.
Proof.
  destruct_state s.
  reflexivity.
Qed.

Lemma state_of_bytes_16 (l : list byte) :
  List.length l = 16%nat -> exists s, state_of_bytes l = Some s /\ bytes_of_state s = l.
Proof.
  intros H.
  do 16 (destruct l as [| ? l]; [discriminate H |]).
  destruct l; [| discriminate H].
  eexists. split; reflexivity.
Qed.

Lemma firstn_exact {A : Type} (l : list A) (n : nat) :
  List.length l = n -> firstn n l = l.
Proof.
  intros <-. apply firstn_all.
Qed.

Lemma block_laws (ks : list state) :
  BlockLaws (mkBlock blockBytes (encryptBlock ks) (decryptBlock ks)).
Proof.
  constructor; cbn [BlockSize Encrypt Decrypt].
  - unfold blockBytes. lia.
  - intros src Hsrc. unfold encryptBlock.
    rewrite (firstn_exact src blockBytes Hsrc).
    destruct (state_of_bytes_16 src Hsrc) as (s & -> & _). cbn [optbind].
    eexists. split; [reflexivity | apply bytes_of_state_length].
  - intros src dst Hsrc. unfold encryptBlock, decryptBlock.
    rewrite (firstn_exact src blockBytes Hsrc).
    destruct (state_of_bytes_16 src Hsrc) as (s & -> & Hs). cbn [optbind].
    intros [= <-].
    rewrite (firstn_exact _ blockBytes (bytes_of_state_length (Cipher ks s))).
    rewrite state_of_bytes_of_state. cbn [optbind].
    rewrite InvCipher_Cipher, Hs. reflexivity.
Qed.

(** [aes.NewCipher] takes keys of 16, 24 and 32 bytes, and the block it
    returns is a lawful 16-byte block cipher. *)
Lemma NewCipher_ok (key : list byte) :
  List.length key = 16%nat \/ List.length key = 24%nat \/ List.length key = 32%nat ->
  exists block,
    NewCipher key = Ok block /\ BlockSize block = 16%nat /\ BlockLaws block.
Proof.
  intros Hk. unfold NewCipher.
  assert (E : ((List.length key =? 16)%nat || (List.length key =? 24)%nat
               || (List.length key =? 32)%nat) = true).
  { destruct Hk as [-> | [-> | ->]]; reflexivity. }
  rewrite E. eexists. split; [reflexivity |]. split; [reflexivity | apply block_laws].
Qed.

Lemma NewCipher_bad (key : list byte) :
  ~ (List.length key = 16%nat \/ List.length key = 24%nat \/ List.length key = 32%nat) ->
  NewCipher key = Err (KeySizeError (List.length key)).
Proof.
  intros Hk. unfold NewCipher.
  destruct (List.length key =? 16)%nat eqn:E1; [apply Nat.eqb_eq in E1; tauto |].
  destruct (List.length key =? 24)%nat eqn:E2; [apply Nat.eqb_eq in E2; tauto |].
  destruct (List.length key =? 32)%nat eqn:E3; [apply Nat.eqb_eq in E3; tauto |].
  reflexivity.
Qed.

End AESFacts.

(** ** aesEncrypt in CBC and ECB mode *)

Section Chain.

Variable b : Block.
Hypothesis laws : BlockLaws b.

Let bs := BlockSize b.

Lemma cbcLoop_chain (x : cbcEncrypter) (k : nat) :
  cbc_b x = b -> cbc_blockSize x = bs ->
  forall (src iv ct : list byte) (fuel : nat),
    List.length src = (k * bs)%nat -> List.length iv = bs ->
    cbcLoop fuel x iv src = Some ct ->
    forall i, (i < k)%nat ->
      Encrypt b (XORBytes (chunk bs i src) (cbcPrev bs iv ct i)) = Some (chunk bs i ct).
Proof.
  intros Hb Hbs. pose proof (block_size_pos b laws) as Hpos. fold bs in Hpos.
  induction k as [| k IH]; intros src iv ct fuel Hsrc Hiv Hct i Hi; [lia |].
  destruct (blocks_nonempty bs k src Hpos Hsrc) as (a & src' & Esrc).
  destruct fuel as [| fuel]; [rewrite Esrc in Hct; discriminate Hct |].
  rewrite Esrc in Hct. cbn [cbcLoop] in Hct. rewrite <- Esrc in Hct.
  rewrite Hb, Hbs in Hct.
  assert (Hblk : List.length (XORBytes (firstn bs src) iv) = bs).
  { rewrite XORBytes_length, length_firstn, Hsrc. simpl. lia. }
  destruct (encrypt_full b laws _ Hblk) as (dst & Edst & Hdst). fold bs in Hdst.
  rewrite Edst in Hct. cbn [optbind] in Hct.
  destruct (cbcLoop fuel x dst (skipn bs src)) as [rest |] eqn:Erest; [| discriminate Hct].
  cbn [optbind] in Hct. injection Hct as <-.
  assert (Hskip : List.length (skipn bs src) = (k * bs)%nat).
  { rewrite length_skipn, Hsrc. simpl. lia. }
  destruct i as [| i].
  - cbn [cbcPrev]. rewrite chunk_app_0 by assumption. rewrite chunk_0. exact Edst.
  - rewrite chunk_app_S by assumption. rewrite chunk_S.
    pose proof (IH (skipn bs src) dst rest fuel Hskip Hdst Erest i ltac:(lia)) as Hi'.
    destruct i as [| i]; cbn [cbcPrev] in *.
    + rewrite chunk_app_0 by assumption. exact Hi'.
    + rewrite chunk_app_S by assumption. exact Hi'.
Qed.

End Chain.

Lemma bytes_of_string_length (s : string) :
  List.length (bytes_of_string s) = String.length s.
Proof.
  induction s as [| c s IH]; simpl; [reflexivity | f_equal; exact IH].
Qed.

Lemma keyLenOK_bytes (opt : EncOpt) :
  keyLenOK opt ->
  List.length (bytes_of_string (Key opt)) = 16%nat
  \/ List.length (bytes_of_string (Key opt)) = 24%nat
  \/ List.length (bytes_of_string (Key opt)) = 32%nat.
Proof.
  unfold keyLenOK. rewrite bytes_of_string_length. tauto.
Qed.

(** The padded plaintext of the CBC and ECB branches. *)
Lemma padded16 (data : list byte) :
  exists padded,
    pKCS7Padding data 16 = Ok padded
    /\ (List.length padded mod 16 = 0)%nat
    /\ (List.length data < List.length padded)%nat
    /\ pKCS7Unpadding padded 16 = Some data.
Proof.
  pose proof (padLen_range (List.length data) 16 ltac:(lia)) as Hr.
  pose proof (padded_length (List.length data) 16 ltac:(lia)) as Hm.
  eexists. split; [apply pKCS7Padding_pos; lia |].
  rewrite length_app, repeat_length.
  split; [| split].
  - apply Nat2Z.inj. rewrite Nat2Z.inj_mod, Nat2Z.inj_add, Z2Nat.id by lia. exact Hm.
  - lia.
  - apply pKCS7Unpadding_padded; [change (Z.of_nat 16) with 16%Z |]; lia.
Qed.

Lemma aesEncrypt_CBC (data : list byte) (opt : EncOpt) (block : Block) :
  ToUpper (Mode opt) = "CBC"%string ->
  AES.NewCipher (bytes_of_string (Key opt)) = Ok block ->
  aesEncrypt data opt =
    let iv := bytes_of_string (Iv opt) in
    if negb (List.length iv =? BlockSize block)%nat then Err (errCBCIVLength (BlockSize block))
    else
      paddedData <- pKCS7Padding data (Z.of_nat (BlockSize block)) ;;
      blockMode <- orPanic (NewCBCEncrypter block iv) ;;
      encrypted <- orPanic (CryptBlocks blockMode paddedData) ;;
      Ok (EncodeToString encrypted).
Proof.
  intros Hm Hk. unfold aesEncrypt. rewrite Hk. cbn [bind]. rewrite Hm. reflexivity.
Qed.

Lemma aesEncrypt_ECB (data : list byte) (opt : EncOpt) (block : Block) :
  ToUpper (Mode opt) = "ECB"%string ->
  AES.NewCipher (bytes_of_string (Key opt)) = Ok block ->
  aesEncrypt data opt =
    (paddedData <- pKCS7Padding data (Z.of_nat (BlockSize block)) ;;
     encrypted <- orPanic (ecbLoop (List.length paddedData) block (BlockSize block) paddedData) ;;
     Ok (EncodeToString encrypted)).
Proof.
  intros Hm Hk. unfold aesEncrypt. rewrite Hk. cbn [bind]. rewrite Hm. reflexivity.
Qed.

(** C5.  In CBC mode with a key of 16, 24 or 32 bytes: with a 16-byte IV
    [aesEncrypt] pads the plaintext with PKCS7, chains the blocks from the
    IV (each block is xored with the previous block of ciphertext, the
    first with the IV, and encrypted), and returns the base64 text of the
    result; decoding that text, decrypting it with standard AES-CBC under
    the same key and IV and removing the padding gives the plaintext
    back.  With an IV of any other length it returns an error. *)
Theorem aesEncrypt_CBC_roundtrip (data : list byte) (opt : EncOpt) :
  ToUpper (Mode opt) = "CBC"%string ->
  keyLenOK opt ->
  (String.length (Iv opt) = 16%nat ->
     exists (block : Block) (padded ct : list byte),
       AES.NewCipher (bytes_of_string (Key opt)) = Ok block
       /\ pKCS7Padding data 16 = Ok padded
       /\ List.length ct = List.length padded
       /\ (forall i, (i < List.length padded / 16)%nat ->
             Encrypt block (XORBytes (chunk 16 i padded)
                                     (cbcPrev 16 (bytes_of_string (Iv opt)) ct i))
             = Some (chunk 16 i ct))
       /\ aesEncrypt data opt = Ok (EncodeToString ct)
       /\ DecodeString (EncodeToString ct) = Some ct
       /\ cbcDecrypt block (bytes_of_string (Iv opt)) ct = Some padded
       /\ pKCS7Unpadding padded 16 = Some data)
  /\ (String.length (Iv opt) <> 16%nat ->
        aesEncrypt data opt = Err "CBC IV length must be 16").
Proof.
  intros Hm Hk.
  destruct (AESFacts.NewCipher_ok _ (keyLenOK_bytes opt Hk)) as (block & Eblock & Hbs & laws).
  rewrite (aesEncrypt_CBC data opt block Hm Eblock). cbv zeta.
  rewrite Hbs, bytes_of_string_length.
  split.
  - intros Hiv. rewrite Hiv. cbn [Nat.eqb negb].
    destruct (padded16 data) as (padded & Epad & Hmod & _ & Hunpad).
    change (Z.of_nat 16) with 16%Z. rewrite Epad. cbn [bind].
    assert (Hiv' : List.length (bytes_of_string (Iv opt)) = BlockSize block).
    { rewrite bytes_of_string_length, Hbs. exact Hiv. }
    assert (Hmod' : (List.length padded mod BlockSize block = 0)%nat) by (rewrite Hbs; exact Hmod).
    destruct (CryptBlocks_roundtrip block laws _ padded Hiv' Hmod')
      as (x & ct & Ex & Ect & Hct & Dct).
    rewrite Ex. cbn [orPanic bind]. rewrite Ect. cbn [orPanic bind].
    exists block, padded, ct.
    split; [exact Eblock |]. split; [reflexivity |]. split; [exact Hct |].
    split.
    { intros i Hi.
      assert (Hx : cbc_b x = block /\ cbc_blockSize x = BlockSize block
                   /\ cbc_iv x = bytes_of_string (Iv opt)).
      { unfold NewCBCEncrypter in Ex. rewrite Hiv', Nat.eqb_refl in Ex. cbn [negb] in Ex.
        injection Ex as <-. repeat split. }
      destruct Hx as (Hxb & Hxs & Hxi).
      unfold CryptBlocks in Ect. rewrite Hxs, Hbs, Hmod, Hxi in Ect.
      cbn [Nat.eqb negb] in Ect.
      pose proof (cbcLoop_chain block laws x (List.length padded / 16) Hxb Hxs padded
                    (bytes_of_string (Iv opt)) ct (List.length padded)) as Hchain.
      rewrite Hbs in Hchain. apply Hchain; try assumption.
      - pose proof (Nat.div_mod_eq (List.length padded) 16). lia.
      - rewrite bytes_of_string_length. exact Hiv. }
    split; [reflexivity |].
    split; [apply base64_roundtrip |].
    split; [exact Dct | exact Hunpad].
  - intros Hiv.
    replace (String.length (Iv opt) =? 16)%nat with false
      by (symmetry; apply Nat.eqb_neq; exact Hiv).
    reflexivity.
Qed.

Lemma aesEncrypt_CBC_roundtrip_witness :
  ToUpper (Mode cbcExample) = "CBC"%string
  /\ keyLenOK cbcExample
  /\ exists (block : Block) (padded ct : list byte),
       AES.NewCipher (bytes_of_string (Key cbcExample)) = Ok block
       /\ aesEncrypt (bytes_of_string "{}") cbcExample = Ok (EncodeToString ct)
       /\ cbcDecrypt block (bytes_of_string (Iv cbcExample)) ct = Some padded
       /\ pKCS7Unpadding padded 16 = Some (bytes_of_string "{}").
Proof.
  assert (Hm : ToUpper (Mode cbcExample) = "CBC"%string) by reflexivity.
  assert (Hk : keyLenOK cbcExample) by (left; reflexivity).
  split; [exact Hm |]. split; [exact Hk |].
  destruct (aesEncrypt_CBC_roundtrip (bytes_of_string "{}") cbcExample Hm Hk) as [H _].
  destruct (H eq_refl) as (block & padded & ct & H1 & _ & _ & _ & H5 & _ & H7 & H8).
  exists block, padded, ct. repeat split; assumption.
Defined.

(** C8.  In ECB mode with a key of 16, 24 or 32 bytes [aesEncrypt] pads
    the plaintext with PKCS7 and encrypts each 16-byte block on its own:
    block [i] of the output is the encryption of block [i] of the padded
    plaintext and of nothing else.  So equal plaintext blocks, in one
    message or in two, give equal ciphertext blocks under the same key. *)
Theorem aesEncrypt_ECB_blocks (data1 data2 : list byte) (opt : EncOpt) :
  ToUpper (Mode opt) = "ECB"%string ->
  keyLenOK opt ->
  exists (block : Block) (padded1 padded2 ct1 ct2 : list byte),
    AES.NewCipher (bytes_of_string (Key opt)) = Ok block
    /\ pKCS7Padding data1 16 = Ok padded1
    /\ pKCS7Padding data2 16 = Ok padded2
    /\ aesEncrypt data1 opt = Ok (EncodeToString ct1)
    /\ aesEncrypt data2 opt = Ok (EncodeToString ct2)
    /\ List.length ct1 = List.length padded1
    /\ List.length ct2 = List.length padded2
    /\ (forall i, (i < List.length padded1 / 16)%nat ->
          Encrypt block (chunk 16 i padded1) = Some (chunk 16 i ct1))
    /\ (forall j, (j < List.length padded2 / 16)%nat ->
          Encrypt block (chunk 16 j padded2) = Some (chunk 16 j ct2))
    /\ (forall i j, (i < List.length padded1 / 16)%nat -> (j < List.length padded2 / 16)%nat ->
          chunk 16 i padded1 = chunk 16 j padded2 -> chunk 16 i ct1 = chunk 16 j ct2).
Proof.
  intros Hm Hk.
  destruct (AESFacts.NewCipher_ok _ (keyLenOK_bytes opt Hk)) as (block & Eblock & Hbs & laws).
  rewrite !(aesEncrypt_ECB _ opt block Hm Eblock). rewrite Hbs.
  change (Z.of_nat 16) with 16%Z.
  destruct (padded16 data1) as (padded1 & Epad1 & Hmod1 & _ & _).
  destruct (padded16 data2) as (padded2 & Epad2 & Hmod2 & _ & _).
  rewrite Epad1, Epad2. cbn [bind].
  assert (Hblocks : forall padded, (List.length padded mod 16 = 0)%nat ->
            exists ct, ecbLoop (List.length padded) block 16 padded = Some ct
                       /\ List.length ct = List.length padded
                       /\ forall i, (i < List.length padded / 16)%nat ->
                            Encrypt block (chunk 16 i padded) = Some (chunk 16 i ct)).
  { intros padded Hmod.
    pose proof (ecbLoop_blocks block laws (List.length padded / 16) padded (List.length padded))
      as H. rewrite Hbs in H. apply H.
    - pose proof (Nat.div_mod_eq (List.length padded) 16). lia.
    - apply Nat.Div0.div_le_upper_bound. lia. }
  destruct (Hblocks padded1 Hmod1) as (ct1 & E1 & L1 & B1).
  destruct (Hblocks padded2 Hmod2) as (ct2 & E2 & L2 & B2).
  rewrite E1, E2. cbn [orPanic bind].
  exists block, padded1, padded2, ct1, ct2.
  repeat (split; [first [reflexivity | assumption] |]).
  intros i j Hi Hj Heq.
  pose proof (B1 i Hi) as H1. pose proof (B2 j Hj) as H2.
  rewrite Heq in H1. rewrite H1 in H2. injection H2 as H2. exact H2.
Qed.

Lemma aesEncrypt_ECB_blocks_witness :
  ToUpper (Mode ecbExample) = "ECB"%string
  /\ keyLenOK ecbExample
  /\ exists (ct1 ct2 : list byte),
       aesEncrypt (bytes_of_string "0123456789abcdef0123456789abcdef") ecbExample
         = Ok (EncodeToString ct1)
       /\ aesEncrypt (bytes_of_string "0123456789abcdef") ecbExample = Ok (EncodeToString ct2)
       /\ chunk 16 0 ct1 = chunk 16 0 ct2
       /\ chunk 16 1 ct1 = chunk 16 0 ct2.
Proof.
  assert (Hm : ToUpper (Mode ecbExample) = "ECB"%string) by reflexivity.
  assert (Hk : keyLenOK ecbExample) by (left; reflexivity).
  split; [exact Hm |]. split; [exact Hk |].
  destruct (aesEncrypt_ECB_blocks (bytes_of_string "0123456789abcdef0123456789abcdef")
              (bytes_of_string "0123456789abcdef") ecbExample Hm Hk)
    as (block & p1 & p2 & ct1 & ct2 & _ & P1 & P2 & E1 & E2 & _ & _ & _ & _ & B12).
  exists ct1, ct2.
  split; [exact E1 |]. split; [exact E2 |].
  vm_compute in P1. injection P1 as <-.
  vm_compute in P2. injection P2 as <-.
  split; apply B12; vm_compute; try lia; reflexivity.
Defined.

(** ** preparePayload *)

Section Payload.

Variable quoteString : string -> list byte.

(** [preparePayload] by its steps. *)
Lemma preparePayload_steps (o : Options) :
  preparePayload quoteString o =
    match Enc o with
    | None => Ok (encode quoteString (jsonOfOptions o))
    | Some enc =>
        cipherText <- aesEncrypt (plainBytes quoteString o) enc ;;
        encryptedPayload <- routingEnvelope (DeviceKey o) (DeviceKeys o) cipherText ;;
        Ok (encode quoteString (jsonOfMap encryptedPayload))
    end.
Proof.
  unfold preparePayload, plainBytes, contentCopy, routingEnvelope.
  destruct (Enc o) as [enc |]; [| reflexivity].
  cbv zeta.
  destruct (aesEncrypt _ enc) as [c | e |]; cbn [bind]; try reflexivity.
  destruct (0 <? List.length (DeviceKeys o))%nat; [| reflexivity].
  match goal with |- context [if ?c then append _ _ else _] => destruct c end.
  - destruct (1 <? _)%nat; [reflexivity |].
    destruct (_ =? 1)%nat; reflexivity.
  - destruct (1 <? _)%nat; [reflexivity |].
    destruct (_ =? 1)%nat; reflexivity.
Qed.

(** The keys that [copy] leaves in the fresh slice: none, the slice
    having length zero. *)
Lemma copy_into_empty (n : nat) (src : list string) : copy (make 0 n) src = [].
Proof. reflexivity. Qed.

(** With a list of keys, the envelope carries the single key alone, or
    nothing when there is none; the list itself is never used. *)
Lemma routingEnvelope_keys (deviceKey : string) (deviceKeys : list string) (c : string) :
  deviceKeys <> [] ->
  routingEnvelope deviceKey deviceKeys c =
    if String.eqb deviceKey "" then Err errMissingRoutingKey
    else Ok [("ciphertext", JString c); ("device_key", JString deviceKey)].
Proof.
  intros Hne. unfold routingEnvelope.
  destruct deviceKeys as [| k ks]; [congruence |].
  cbn [List.length Nat.ltb Nat.leb]. rewrite copy_into_empty.
  destruct (String.eqb deviceKey ""); reflexivity.
Qed.

Lemma routingEnvelope_nokeys (deviceKey : string) (c : string) :
  routingEnvelope deviceKey [] c
  = Ok [("ciphertext", JString c); ("device_key", JString deviceKey)].
Proof. reflexivity. Qed.

Lemma jsonOfMap_envelope (c : string) (v : jvalue) :
  jsonOfMap [("ciphertext", JString c); ("device_key", v)]
  = [("ciphertext", JString c); ("device_key", v)].
Proof. reflexivity. Qed.

(** With encryption and a list of keys: the single key alone goes into
    the envelope, and without one the call fails. *)
Lemma preparePayload_keys (o : Options) (enc : EncOpt) :
  Enc o = Some enc -> DeviceKeys o <> [] ->
  preparePayload quoteString o =
    (cipherText <- aesEncrypt (plainBytes quoteString o) enc ;;
     if String.eqb (DeviceKey o) "" then Err errMissingRoutingKey
     else Ok (encode quoteString
                [("ciphertext", JString cipherText); ("device_key", JString (DeviceKey o))])).
Proof.
  intros He Hks. rewrite preparePayload_steps, He.
  destruct (aesEncrypt _ enc) as [c | e |]; cbn [bind]; try reflexivity.
  rewrite routingEnvelope_keys by assumption.
  destruct (String.eqb (DeviceKey o) ""); reflexivity.
Qed.

Lemma preparePayload_nokeys (o : Options) (enc : EncOpt) :
  Enc o = Some enc -> DeviceKeys o = [] ->
  preparePayload quoteString o =
    (cipherText <- aesEncrypt (plainBytes quoteString o) enc ;;
     Ok (encode quoteString
           [("ciphertext", JString cipherText); ("device_key", JString (DeviceKey o))])).
Proof.
  intros He Hks. rewrite preparePayload_steps, He, Hks.
  destruct (aesEncrypt _ enc) as [c | e |]; reflexivity.
Qed.

(** C2, as the code has it.  A request with no device key and no list of
    keys is rejected by [Validate] ("device_key is required"), which
    [Push] runs first, so [Push] builds no envelope for it.
    [preparePayload] does not check again: given a cipher that works it
    writes an envelope whose [device_key] is the empty string. *)
Theorem no_routing_key_rejected_by_Validate (o : Options) :
  noDevice o ->
  Validate o = Some errDeviceKeyRequired
  /\ pushPayload quoteString o = Err errDeviceKeyRequired
  /\ (forall enc, Enc o = Some enc ->
        preparePayload quoteString o =
          (cipherText <- aesEncrypt (plainBytes quoteString o) enc ;;
           Ok (encode quoteString
                 [("ciphertext", JString cipherText); ("device_key", JString "")]))).
Proof.
  intros Hd. pose proof (Validate_noDevice o Hd) as Hv.
  split; [exact Hv |]. split.
  - unfold pushPayload. rewrite Hv. reflexivity.
  - intros enc He. destruct Hd as [Hk Hks].
    rewrite (preparePayload_nokeys o enc He Hks), Hk. reflexivity.
Qed.


End Payload.

(** C1, at the input of scenario C.  The key ["a"] with the list
    ["a"; "b"; "c"]: the envelope holds [device_key] ["a"] and no
    [device_keys]. *)
Theorem preparePayload_scenarioC :
  preparePayload quotePlain scenarioC
  = Ok (encode quotePlain
          [("ciphertext", JString "3//lM01VF8SfDBGKHwrUIdyZcGYJ/EffZUMcJLRUGRw=");
           ("device_key", JString "a")]).
Proof. vm_compute. reflexivity. Qed.

(** Scenario D: both routing fields empty.  [preparePayload] returns an
    envelope whose [device_key] is empty, and no error. *)
Lemma preparePayload_scenarioD :
  preparePayload quotePlain scenarioD
  = Ok (encode quotePlain
          [("ciphertext", JString "3//lM01VF8SfDBGKHwrUIdyZcGYJ/EffZUMcJLRUGRw=");
           ("device_key", JString "")]).
Proof. vm_compute. reflexivity. Qed.

Lemma no_routing_key_rejected_by_Validate_witness :
  noDevice scenarioD
  /\ Validate scenarioD = Some errDeviceKeyRequired
  /\ pushPayload quotePlain scenarioD = Err errDeviceKeyRequired.
Proof.
  assert (Hd : noDevice scenarioD) by (split; reflexivity).
  split; [exact Hd |].
  destruct (no_routing_key_rejected_by_Validate quotePlain scenarioD Hd) as (H1 & H2 & _).
  split; assumption.
Defined.


(** ** GCM *)

Module GCMFacts.
Import GCM.

Lemma be_bytes_length (n : nat) (z : Z) : List.length (be_bytes n z) = n.
Proof.
  revert z. induction n as [| n IH]; intros z; [reflexivity |].
  cbn [be_bytes]. rewrite length_app, IH. simpl. lia.
Qed.

Lemma gcmInc32_length (counter : list byte) :
  (4 <= List.length counter)%nat -> List.length (gcmInc32 counter) = List.length counter.
Proof.
  intros H. unfold gcmInc32.
  rewrite length_app, length_firstn, be_bytes_length. lia.
Qed.

Lemma deriveCounter_length (nonce : list byte) :
  List.length nonce = gcmStandardNonceSize ->
  List.length (deriveCounter nonce) = gcmBlockSize.
Proof.
  intros H. unfold deriveCounter. rewrite length_app, H. reflexivity.
Qed.

Lemma xor_bits_length (x y : list bool) :
  List.length (xor_bits x y) = Nat.min (List.length x) (List.length y).
Proof.
  revert y. induction x as [| a x IH]; intros [| c y]; simpl; auto.
Qed.

Lemma removelast_length {A : Type} (l : list A) :
  List.length (removelast l) = (List.length l - 1)%nat.
Proof.
  induction l as [| a l IH]; [reflexivity |].
  destruct l as [| a' l']; [reflexivity |].
  change (removelast (a :: a' :: l')) with (a :: removelast (a' :: l')).
  cbn [List.length] in *. lia.
Qed.

Lemma mulX_length (v : list bool) :
  List.length v = 128%nat -> List.length (mulX v) = 128%nat.
Proof.
  intros H. unfold mulX.
  assert (Hs : List.length (false :: removelast v) = 128%nat).
  { cbn [List.length]. rewrite removelast_length. lia. }
  destruct (last v false); [| exact Hs].
  rewrite xor_bits_length, Hs. reflexivity.
Qed.

Lemma mulLoop_length (x z v : list bool) :
  List.length z = 128%nat -> List.length v = 128%nat ->
  List.length (mulLoop x z v) = 128%nat.
Proof.
  revert z v. induction x as [| xi x IH]; intros z v Hz Hv; [exact Hz |].
  cbn [mulLoop]. apply IH.
  - destruct xi; [| exact Hz]. rewrite xor_bits_length. lia.
  - apply mulX_length. exact Hv.
Qed.

Lemma bits_of_bytes_length (l : list byte) :
  List.length (bits_of_bytes l) = (8 * List.length l)%nat.
Proof.
  induction l as [| a l IH]; [reflexivity |].
  unfold bits_of_bytes in *. cbn [flat_map]. rewrite length_app, IH.
  destruct a. cbn [bits_of_byte List.length]. lia.
Qed.

Lemma bytes_of_bits_length (n : nat) (l : list bool) :
  List.length l = (8 * n)%nat -> List.length (bytes_of_bits l) = n.
Proof.
  revert l. induction n as [| n IH]; intros l H.
  - destruct l; [reflexivity | discriminate H].
  - do 8 (destruct l as [| ? l]; [simpl in H; lia |]).
    cbn [bytes_of_bits List.length]. f_equal. apply IH. simpl in H. lia.
Qed.

(** A product is a block as soon as its second factor is. *)
Lemma gfmul_length (x y : list byte) :
  List.length y = 16%nat -> List.length (gfmul x y) = 16%nat.
Proof.
  intros Hy. unfold gfmul. apply bytes_of_bits_length.
  apply mulLoop_length.
  - apply repeat_length.
  - rewrite bits_of_bytes_length, Hy. reflexivity.
Qed.

Lemma auth_length (g : gcm) (ciphertext data tagMask : list byte) :
  List.length (hashKey g) = 16%nat -> List.length tagMask = 16%nat ->
  List.length (auth g ciphertext data tagMask) = gcmTagSize.
Proof.
  intros HH Hm. unfold auth. rewrite XORBytes_length, gfmul_length, Hm by assumption.
  reflexivity.
Qed.

Lemma ConstantTimeCompare_eq (x y : list byte) :
  ConstantTimeCompare x y = true <-> x = y.
Proof.
  unfold ConstantTimeCompare. split.
  - intros H. apply andb_true_iff in H as [Hl Hf]. apply Nat.eqb_eq in Hl.
    revert y Hl Hf. induction x as [| a x IH]; intros [| c y] Hl Hf;
      try reflexivity; try discriminate Hl.
    cbn [combine forallb fst snd] in Hf. apply andb_true_iff in Hf as [Hac Hf].
    apply Ascii.eqb_eq in Hac. subst c. f_equal. apply IH; [| exact Hf].
    simpl in Hl. lia.
  - intros <-. rewrite Nat.eqb_refl. cbn [andb].
    induction x as [| a x IH]; [reflexivity |].
    cbn [combine forallb fst snd]. rewrite Ascii.eqb_refl. exact IH.
Qed.

Section Counter.

Variable b : Block.
Hypothesis laws : BlockLaws b.
Hypothesis size16 : BlockSize b = 16%nat.

Lemma counterCrypt_step (fuel : nat) (counter input : list byte) :
  input <> [] ->
  counterCrypt (S fuel) b counter input =
    (mask <~ Encrypt b counter ;;
     rest <~ counterCrypt fuel b (gcmInc32 counter) (skipn gcmBlockSize input) ;;
     Some (XORBytes (firstn gcmBlockSize input) mask ++ rest)).
Proof.
  intros H. destruct input; [congruence | reflexivity].
Qed.

Lemma counterCrypt_nil (fuel : nat) (counter : list byte) :
  counterCrypt fuel b counter [] = Some [].
Proof. destruct fuel; reflexivity. Qed.

(** Counter mode returns on every input and is its own inverse. *)
Lemma counterCrypt_involution (fuel : nat) :
  forall (counter input : list byte),
    List.length counter = 16%nat -> (List.length input <= fuel)%nat ->
    exists out,
      counterCrypt fuel b counter input = Some out
      /\ List.length out = List.length input
      /\ counterCrypt fuel b counter out = Some input.
Proof.
  induction fuel as [| fuel IH]; intros counter input Hc Hfuel.
  - destruct input; [| simpl in Hfuel; lia]. exists []. repeat split.
  - destruct (list_eq_dec ascii_dec input []) as [-> | Hne].
    { exists []. repeat split. }
    assert (Hlen : (1 <= List.length input)%nat).
    { destruct input; [exfalso; apply Hne; reflexivity | simpl; lia]. }
    assert (Hcb : List.length counter = BlockSize b) by (rewrite size16; exact Hc).
    destruct (encrypt_full b laws counter Hcb) as (mask & Emask & Hmask).
    rewrite size16 in Hmask.
    assert (Hinc : List.length (gcmInc32 counter) = 16%nat).
    { rewrite gcmInc32_length; lia. }
    assert (Hskip : (List.length (skipn gcmBlockSize input) <= fuel)%nat).
    { rewrite length_skipn. unfold gcmBlockSize. lia. }
    destruct (IH (gcmInc32 counter) (skipn gcmBlockSize input) Hinc Hskip)
      as (rest & Erest & Hrest & Drest).
    set (x := XORBytes (firstn gcmBlockSize input) mask).
    assert (Hx : List.length x = Nat.min 16 (List.length input)).
    { unfold x. rewrite XORBytes_length, length_firstn, Hmask. unfold gcmBlockSize. lia. }
    assert (Hout : List.length (x ++ rest) = List.length input).
    { rewrite length_app, Hx, Hrest, length_skipn. unfold gcmBlockSize. lia. }
    assert (Hxne : x ++ rest <> []).
    { intros E. rewrite E in Hout. simpl in Hout. lia. }
    exists (x ++ rest).
    split.
    { rewrite counterCrypt_step by assumption.
      rewrite Emask. cbn [optbind]. rewrite Erest. reflexivity. }
    split; [exact Hout |].
    rewrite counterCrypt_step by assumption. rewrite Emask. cbn [optbind].
    destruct (Nat.le_gt_cases 16 (List.length input)) as [Hfull | Hshort].
    + assert (Hx16 : List.length x = gcmBlockSize) by (unfold gcmBlockSize; lia).
      rewrite (skipn_app_exact x rest gcmBlockSize Hx16).
      rewrite (firstn_app_exact x rest gcmBlockSize Hx16).
      rewrite Drest. cbn [optbind]. unfold x.
      rewrite XORBytes_cancel by (rewrite length_firstn, Hmask; unfold gcmBlockSize; lia).
      rewrite firstn_skipn. reflexivity.
    + assert (Hnil : skipn gcmBlockSize input = []).
      { apply skipn_all2. unfold gcmBlockSize. lia. }
      rewrite Hnil in Erest, Hrest.
      assert (rest = []) by (destruct rest; [reflexivity | simpl in Hrest; lia]).
      subst rest. rewrite app_nil_r.
      assert (Hfx : firstn gcmBlockSize x = x).
      { apply firstn_all2. unfold gcmBlockSize. lia. }
      assert (Hsx : skipn gcmBlockSize x = []).
      { apply skipn_all2. unfold gcmBlockSize. lia. }
      rewrite Hfx, Hsx, counterCrypt_nil. cbn [optbind]. rewrite app_nil_r. unfold x.
      rewrite XORBytes_cancel by (rewrite length_firstn, Hmask; unfold gcmBlockSize; lia).
      f_equal. apply firstn_all2. unfold gcmBlockSize. lia.
Qed.

End Counter.

End GCMFacts.

(** ** Tampering with a byte string *)

Lemma flipBitOfByte_neq (a : byte) (i : nat) : flipBitOfByte a i <> a.
Proof.
  destruct a as [b0 b1 b2 b3 b4 b5 b6 b7].
  assert (Hneg : forall c : bool, negb c = c -> False)
    by (intros c Hc; exact (no_fixpoint_negb c Hc)).
  destruct i as [| [| [| [| [| [| [| i]]]]]]]; cbn; intros [=]; eauto.
Qed.

Lemma flipBit_length (l : list byte) (i : nat) :
  List.length (flipBit l i) = List.length l.
Proof.
  revert i. induction l as [| a l IH]; intros i; [reflexivity |].
  cbn [flipBit]. destruct (i <? 8)%nat; cbn [List.length]; [reflexivity |].
  rewrite IH. reflexivity.
Qed.

Lemma flipBit_neq (l : list byte) (i : nat) :
  (i < 8 * List.length l)%nat -> flipBit l i <> l.
Proof.
  revert i. induction l as [| a l IH]; intros i Hi; [simpl in Hi; lia |].
  cbn [flipBit]. destruct (i <? 8)%nat eqn:E.
  - intros [= H]. exact (flipBitOfByte_neq a i H).
  - apply Nat.ltb_ge in E. intros [= H]. apply (IH (i - 8)%nat); [| exact H].
    cbn [List.length] in Hi. lia.
Qed.

Lemma flipBit_app_r (x y : list byte) (i : nat) :
  (8 * List.length x <= i)%nat ->
  flipBit (x ++ y) i = x ++ flipBit y (i - 8 * List.length x).
Proof.
  revert i. induction x as [| a x IH]; intros i Hi.
  - cbn [app List.length]. f_equal. lia.
  - cbn [app flipBit List.length] in *.
    replace (i <? 8)%nat with false by (symmetry; apply Nat.ltb_ge; lia).
    f_equal. rewrite IH by lia. f_equal. f_equal. lia.
Qed.

(** ** ECB decryption *)

Section ECBDecrypt.

Variable b : Block.
Hypothesis laws : BlockLaws b.

Let bs := BlockSize b.

Lemma ecbLoop_roundtrip (k : nat) :
  forall (src : list byte) (fuel : nat),
    List.length src = (k * bs)%nat -> (k <= fuel)%nat ->
    exists ct,
      ecbLoop fuel b bs src = Some ct
      /\ List.length ct = List.length src
      /\ forall fuel', (k <= fuel')%nat -> ecbDecryptLoop fuel' b bs ct = Some src.
Proof.
  pose proof (block_size_pos b laws) as Hpos. fold bs in Hpos.
  induction k as [| k IH]; intros src fuel Hsrc Hfuel.
  - destruct src; [| simpl in Hsrc; lia].
    exists []. split; [destruct fuel; reflexivity |]. split; [reflexivity |].
    intros fuel' _. destruct fuel'; reflexivity.
  - destruct (blocks_nonempty bs k src Hpos Hsrc) as (a & src' & Esrc).
    destruct fuel as [| fuel]; [lia |].
    rewrite Esrc. cbn [ecbLoop]. rewrite <- Esrc.
    replace (List.length src <? bs)%nat with false
      by (symmetry; apply Nat.ltb_ge; rewrite Hsrc; simpl; lia).
    assert (Hfirst : List.length (firstn bs src) = bs).
    { rewrite length_firstn. rewrite Hsrc. simpl. lia. }
    destruct (encrypt_full b laws (firstn bs src) Hfirst) as (dst & Edst & Hdst).
    fold bs in Hdst. rewrite Edst. cbn [optbind].
    assert (Hskip : List.length (skipn bs src) = (k * bs)%nat).
    { rewrite length_skipn. rewrite Hsrc. simpl. lia. }
    destruct (IH (skipn bs src) fuel Hskip ltac:(lia)) as (rest & Erest & Hrest & Drest).
    rewrite Erest. cbn [optbind].
    exists (dst ++ rest). split; [reflexivity |]. split.
    { rewrite length_app, Hrest, Hdst, Hskip, Hsrc. simpl. lia. }
    intros fuel' Hfuel'. destruct fuel' as [| fuel']; [lia |].
    assert (Hne : exists c ct', dst ++ rest = c :: ct').
    { destruct dst as [| c dst']; [simpl in Hdst; lia | simpl; eauto]. }
    destruct Hne as (c & ct' & Ect). rewrite Ect. cbn [ecbDecryptLoop]. rewrite <- Ect.
    replace (List.length (dst ++ rest) <? bs)%nat with false
      by (symmetry; apply Nat.ltb_ge; rewrite length_app; lia).
    rewrite firstn_app_exact by assumption.
    rewrite (decrypt_encrypt b laws _ dst Hfirst Edst). cbn [optbind].
    rewrite skipn_app_exact by assumption.
    rewrite (Drest fuel') by lia. cbn [optbind].
    rewrite firstn_skipn. reflexivity.
Qed.

End ECBDecrypt.

(** ** GF(2^128) is a field *)

Module GFFacts.
Import GCM GCMFacts GF.

(** *** Sums of bit vectors *)

Lemma xor_bits_comm (a b : list bool) : xor_bits a b = xor_bits b a.
Proof.
  revert b. induction a as [| x a IH]; intros [| y b]; try reflexivity.
  cbn [xor_bits]. rewrite xorb_comm, IH. reflexivity.
Qed.

Lemma xor_bits_assoc (a b c : list bool) :
  xor_bits (xor_bits a b) c = xor_bits a (xor_bits b c).
Proof.
  revert b c. induction a as [| x a IH]; intros [| y b] [| z c]; try reflexivity.
  cbn [xor_bits]. rewrite xorb_assoc, IH. reflexivity.
Qed.

Lemma xor_bits_self (a : list bool) : xor_bits a a = repeat false (List.length a).
Proof.
  induction a as [| x a IH]; [reflexivity |].
  cbn [xor_bits List.length repeat]. rewrite xorb_nilpotent, IH. reflexivity.
Qed.

Lemma xor_bits_false_r (a : list bool) (n : nat) :
  (List.length a <= n)%nat -> xor_bits a (repeat false n) = a.
Proof.
  revert n. induction a as [| x a IH]; intros [| n] H; try reflexivity.
  - simpl in H. lia.
  - cbn [repeat xor_bits]. rewrite xorb_false_r, IH by (simpl in H; lia). reflexivity.
Qed.

Lemma xor_bits_false_l (a : list bool) (n : nat) :
  (List.length a <= n)%nat -> xor_bits (repeat false n) a = a.
Proof. intros H. rewrite xor_bits_comm. apply xor_bits_false_r. exact H. Qed.

Lemma xor_bits_cancel (a b : list bool) :
  List.length a = List.length b ->
  xor_bits a b = repeat false (List.length a) -> a = b.
Proof.
  revert b. induction a as [| x a IH]; intros [| y b] Hl H; try reflexivity;
    try discriminate Hl.
  cbn [xor_bits List.length repeat] in H. injection H as Hxy Hab.
  f_equal.
  - destruct x, y; try reflexivity; discriminate Hxy.
  - apply IH; [simpl in Hl; lia | exact Hab].
Qed.

(** [(a + b) + (c + d) = (a + c) + (b + d)]. *)
Lemma xor_bits_swap (a b c d : list bool) :
  xor_bits (xor_bits a b) (xor_bits c d) = xor_bits (xor_bits a c) (xor_bits b d).
Proof.
  rewrite !xor_bits_assoc. f_equal.
  rewrite <- !xor_bits_assoc. f_equal. apply xor_bits_comm.
Qed.

Lemma zeroV_128 : is128 zeroV.
Proof. reflexivity. Qed.

Lemma oneV_128 : is128 oneV.
Proof. reflexivity. Qed.

Lemma xor_128 (a b : list bool) : is128 a -> is128 b -> is128 (xor_bits a b).
Proof. unfold is128. intros Ha Hb. rewrite xor_bits_length, Ha, Hb. reflexivity. Qed.

Lemma xor_zero_r (a : list bool) : is128 a -> xor_bits a zeroV = a.
Proof. intros H. apply xor_bits_false_r. rewrite H. apply Nat.le_refl. Qed.

Lemma xor_zero_l (a : list bool) : is128 a -> xor_bits zeroV a = a.
Proof. intros H. apply xor_bits_false_l. rewrite H. apply Nat.le_refl. Qed.

Lemma xor_self (a : list bool) : is128 a -> xor_bits a a = zeroV.
Proof. intros H. rewrite xor_bits_self, H. reflexivity. Qed.

Lemma xor_cancel (a b : list bool) :
  is128 a -> is128 b -> xor_bits a b = zeroV -> a = b.
Proof.
  intros Ha Hb H. apply xor_bits_cancel; [rewrite Ha, Hb; reflexivity |].
  rewrite Ha. exact H.
Qed.

Lemma unitV_128 (i : nat) : (i < 128)%nat -> is128 (unitV i).
Proof.
  intros H. unfold is128, unitV. rewrite length_app, repeat_length.
  cbn [List.length]. rewrite repeat_length. lia.
Qed.

(** *** Linear maps are determined by their values at the powers of [x] *)

Lemma additive_zero (F : list bool -> list bool) : additive F -> F zeroV = zeroV.
Proof.
  intros [Hl Hadd].
  pose proof (Hadd zeroV zeroV zeroV_128 zeroV_128) as H.
  rewrite (xor_self zeroV zeroV_128) in H.
  pose proof (Hl zeroV zeroV_128) as Hz.
  symmetry. apply (f_equal (xor_bits (F zeroV))) in H.
  rewrite <- xor_bits_assoc, (xor_self _ Hz), (xor_zero_l _ Hz) in H.
  exact H.
Qed.

Lemma split_bit (k : nat) (c : bool) (t : list bool) :
  (k + S (List.length t) = 128)%nat ->
  repeat false k ++ c :: t
  = xor_bits (if c then unitV k else zeroV) (repeat false (S k) ++ t).
Proof.
  intros H.
  assert (G : forall k m c t, List.length t = m ->
            repeat false k ++ c :: t
            = xor_bits (repeat false k ++ c :: repeat false m)
                       (repeat false k ++ false :: t)).
  { clear. intros k m c t Ht. induction k as [| k IH].
    - cbn [repeat app xor_bits]. rewrite xorb_false_r. f_equal.
      symmetry. apply xor_bits_false_l. rewrite Ht. apply Nat.le_refl.
    - cbn [repeat app xor_bits]. rewrite IH. reflexivity. }
  assert (E : repeat false (S k) ++ t = repeat false k ++ false :: t).
  { cbn [repeat]. rewrite repeat_cons, <- app_assoc. reflexivity. }
  rewrite E.
  destruct c.
  - unfold unitV. replace (127 - k)%nat with (List.length t) by lia.
    apply G. reflexivity.
  - unfold zeroV.
    replace 128%nat with (k + S (List.length t))%nat by lia.
    rewrite repeat_app. cbn [repeat].
    apply (G k (List.length t) false t). reflexivity.
Qed.

Lemma lin_ext (F G : list bool -> list bool) :
  additive F -> additive G ->
  (forall i, (i < 128)%nat -> F (unitV i) = G (unitV i)) ->
  forall a, is128 a -> F a = G a.
Proof.
  intros HF HG Hunit.
  assert (K : forall t k, (k + List.length t = 128)%nat ->
            F (repeat false k ++ t) = G (repeat false k ++ t)).
  { induction t as [| c t IH]; intros k Hk.
    - cbn [List.length] in Hk. rewrite Nat.add_0_r in Hk. subst k.
      rewrite app_nil_r. change (repeat false 128) with zeroV.
      rewrite (additive_zero F HF), (additive_zero G HG). reflexivity.
    - cbn [List.length] in Hk.
      rewrite (split_bit k c t Hk).
      assert (H1 : is128 (if c then unitV k else zeroV)).
      { destruct c; [apply unitV_128; lia | exact zeroV_128]. }
      assert (H2 : is128 (repeat false (S k) ++ t)).
      { unfold is128. rewrite length_app, repeat_length. lia. }
      rewrite (proj2 HF _ _ H1 H2), (proj2 HG _ _ H1 H2).
      f_equal.
      + destruct c; [apply Hunit; lia |].
        rewrite (additive_zero F HF), (additive_zero G HG). reflexivity.
      + apply IH. lia. }
  intros a Ha. apply (K a 0%nat). exact Ha.
Qed.

Lemma eqbV_eq (a b : list bool) : eqbV a b = true -> a = b.
Proof.
  revert b. induction a as [| x a IH]; intros [| y b] H; try reflexivity;
    try discriminate H.
  cbn [eqbV] in H. apply andb_true_iff in H as [Hxy H].
  apply Bool.eqb_prop in Hxy. subst y. f_equal. apply IH. exact H.
Qed.

Lemma checked_below (P : nat -> bool) (n : nat) :
  forallb P (seq 0 n) = true -> forall i, (i < n)%nat -> P i = true.
Proof.
  intros H i Hi. rewrite forallb_forall in H. apply H. apply in_seq. lia.
Qed.


(** *** Multiplication by [x] *)

Lemma removelast_xor (a b : list bool) :
  List.length a = List.length b ->
  removelast (xor_bits a b) = xor_bits (removelast a) (removelast b).
Proof.
  revert b. induction a as [| x a IH]; intros [| y b] Hl; try reflexivity;
    try discriminate Hl.
  destruct a as [| x' a], b as [| y' b]; try reflexivity; try discriminate Hl.
  change (removelast (xor_bits (x :: x' :: a) (y :: y' :: b)))
    with (xorb x y :: removelast (xor_bits (x' :: a) (y' :: b))).
  rewrite IH by (simpl in Hl |- *; lia). reflexivity.
Qed.

Lemma last_xor (a b : list bool) :
  List.length a = List.length b ->
  last (xor_bits a b) false = xorb (last a false) (last b false).
Proof.
  revert b. induction a as [| x a IH]; intros [| y b] Hl; try reflexivity;
    try discriminate Hl.
  destruct a as [| x' a], b as [| y' b]; try reflexivity; try discriminate Hl.
  change (last (xor_bits (x :: x' :: a) (y :: y' :: b)) false)
    with (last (xor_bits (x' :: a) (y' :: b)) false).
  rewrite IH by (simpl in Hl |- *; lia). reflexivity.
Qed.

Lemma mulX_sum (v : list bool) :
  is128 v ->
  mulX v = xor_bits (false :: removelast v) (if last v false then fieldR else zeroV).
Proof.
  intros H. unfold mulX. destruct (last v false); [reflexivity |].
  symmetry. apply xor_zero_r. unfold is128. cbn [List.length].
  rewrite removelast_length, H. reflexivity.
Qed.

Lemma mulX_128 (v : list bool) : is128 v -> is128 (mulX v).
Proof. exact (mulX_length v). Qed.

Lemma mulX_add (a b : list bool) :
  is128 a -> is128 b -> mulX (xor_bits a b) = xor_bits (mulX a) (mulX b).
Proof.
  intros Ha Hb.
  assert (Hl : List.length a = List.length b) by (rewrite Ha, Hb; reflexivity).
  rewrite (mulX_sum _ (xor_128 a b Ha Hb)), (mulX_sum a Ha), (mulX_sum b Hb).
  rewrite removelast_xor, last_xor by exact Hl.
  rewrite xor_bits_swap. cbn [xor_bits xorb]. f_equal.
  destruct (last a false), (last b false); reflexivity.
Qed.

Lemma mulX_zero : mulX zeroV = zeroV.
Proof. reflexivity. Qed.

Lemma mulX_additive : additive mulX.
Proof. split; [exact mulX_128 | exact mulX_add]. Qed.

(** *** Products *)

Lemma mul_nil (v : list bool) : mul [] v = zeroV.
Proof. reflexivity. Qed.

Lemma mulLoop_128 (x z v : list bool) : is128 z -> is128 v -> is128 (mulLoop x z v).
Proof. exact (mulLoop_length x z v). Qed.

Lemma mul_128 (x v : list bool) : is128 v -> is128 (mul x v).
Proof. intros H. apply mulLoop_128; [exact zeroV_128 | exact H]. Qed.

(** The accumulator of the loop is added to the product. *)
Lemma mulLoop_acc (x z v : list bool) :
  is128 z -> is128 v -> mulLoop x z v = xor_bits z (mul x v).
Proof.
  revert z v. induction x as [| xi x IH]; intros z v Hz Hv.
  - cbn [mulLoop]. rewrite mul_nil, xor_zero_r by exact Hz. reflexivity.
  - pose proof (mulX_128 v Hv) as HT.
    unfold mul. cbn [mulLoop]. fold (mul x (mulX v)).
    destruct xi.
    + rewrite (IH _ _ (xor_128 z v Hz Hv) HT).
      rewrite (IH _ _ (xor_128 zeroV v zeroV_128 Hv) HT).
      rewrite (xor_zero_l v Hv), xor_bits_assoc. reflexivity.
    + rewrite (IH _ _ Hz HT), (IH _ _ zeroV_128 HT).
      rewrite (xor_zero_l _ (mul_128 x _ HT)). reflexivity.
Qed.

Lemma mul_cons (xi : bool) (x v : list bool) :
  is128 v ->
  mul (xi :: x) v = xor_bits (if xi then v else zeroV) (mul x (mulX v)).
Proof.
  intros Hv. unfold mul at 1. cbn [mulLoop].
  rewrite mulLoop_acc.
  - destruct xi; [rewrite (xor_zero_l v Hv) |]; reflexivity.
  - destruct xi; [apply xor_128; [exact zeroV_128 | exact Hv] | exact zeroV_128].
  - apply mulX_128. exact Hv.
Qed.

Lemma pick_128 (c : bool) (v : list bool) : is128 v -> is128 (if c then v else zeroV).
Proof. intros H. destruct c; [exact H | exact zeroV_128]. Qed.

Lemma mul_zero_r (x : list bool) : mul x zeroV = zeroV.
Proof.
  induction x as [| xi x IH]; [reflexivity |].
  rewrite (mul_cons xi x zeroV zeroV_128), mulX_zero, IH. destruct xi; reflexivity.
Qed.

Lemma mul_false_l (n : nat) (v : list bool) : is128 v -> mul (repeat false n) v = zeroV.
Proof.
  revert v. induction n as [| n IH]; intros v Hv; [reflexivity |].
  cbn [repeat]. rewrite (mul_cons false _ v Hv), IH by (apply mulX_128; exact Hv).
  reflexivity.
Qed.

Lemma mul_zero_l (v : list bool) : is128 v -> mul zeroV v = zeroV.
Proof. apply mul_false_l. Qed.

Lemma mul_one_l (v : list bool) : is128 v -> mul oneV v = v.
Proof.
  intros Hv. unfold oneV. rewrite (mul_cons true _ v Hv).
  rewrite mul_false_l by (apply mulX_128; exact Hv).
  apply xor_zero_r. exact Hv.
Qed.

Lemma mul_add_r (x a b : list bool) :
  is128 a -> is128 b -> mul x (xor_bits a b) = xor_bits (mul x a) (mul x b).
Proof.
  revert a b. induction x as [| xi x IH]; intros a b Ha Hb; [reflexivity |].
  rewrite (mul_cons xi x _ (xor_128 a b Ha Hb)), (mul_cons xi x a Ha), (mul_cons xi x b Hb).
  rewrite (mulX_add a b Ha Hb), IH by (apply mulX_128; assumption).
  rewrite xor_bits_swap. f_equal. destruct xi; reflexivity.
Qed.

Lemma mul_additive_r (x : list bool) : additive (mul x).
Proof. split; [exact (mul_128 x) | exact (mul_add_r x)]. Qed.

Lemma mul_mulX (x v : list bool) : is128 v -> mul x (mulX v) = mulX (mul x v).
Proof.
  revert v. induction x as [| xi x IH]; intros v Hv; [reflexivity |].
  rewrite (mul_cons xi x _ (mulX_128 v Hv)), (mul_cons xi x v Hv).
  rewrite mulX_add by (try apply pick_128; try apply mul_128; try apply mulX_128; exact Hv).
  rewrite IH by (apply mulX_128; exact Hv).
  f_equal. destruct xi; reflexivity.
Qed.

(** Two multiplications commute, as maps. *)
Lemma mul_mul (x y v : list bool) : is128 v -> mul x (mul y v) = mul y (mul x v).
Proof.
  revert v. induction x as [| xi x IH]; intros v Hv.
  - rewrite !mul_nil, mul_zero_r. reflexivity.
  - rewrite (mul_cons xi x _ (mul_128 y v Hv)), (mul_cons xi x v Hv).
    rewrite mul_add_r by (try apply pick_128; try apply mul_128; try apply mulX_128; exact Hv).
    rewrite <- mul_mulX by exact Hv.
    rewrite IH by (apply mulX_128; exact Hv).
    f_equal. destruct xi; [reflexivity |]. rewrite mul_zero_r. reflexivity.
Qed.

Lemma mul_add_l (x y v : list bool) :
  List.length x = List.length y -> is128 v ->
  mul (xor_bits x y) v = xor_bits (mul x v) (mul y v).
Proof.
  revert y v. induction x as [| xi x IH]; intros [| yi y] v Hl Hv; try discriminate Hl.
  - cbn [xor_bits]. rewrite !mul_nil. reflexivity.
  - cbn [xor_bits].
    rewrite !mul_cons by exact Hv.
    rewrite IH by (try apply mulX_128; try exact Hv; simpl in Hl; lia).
    rewrite xor_bits_swap. f_equal.
    destruct xi, yi; cbn [xorb].
    + symmetry. apply xor_self. exact Hv.
    + symmetry. apply xor_zero_r. exact Hv.
    + symmetry. apply xor_zero_l. exact Hv.
    + reflexivity.
Qed.

Lemma mul_one_r_checked :
  forallb (fun i => eqbV (mul (unitV i) oneV) (unitV i)) (seq 0 128) = true.
Proof. vm_compute. reflexivity. Qed.

Lemma mul_one_r (a : list bool) : is128 a -> mul a oneV = a.
Proof.
  apply (lin_ext (fun a => mul a oneV) (fun a => a)).
  - split.
    + intros x _. apply mul_128. exact oneV_128.
    + intros x y Hx Hy. apply mul_add_l; [rewrite Hx, Hy; reflexivity | exact oneV_128].
  - split; [intros x Hx; exact Hx | reflexivity].
  - intros i Hi. apply eqbV_eq.
    exact (checked_below _ 128 mul_one_r_checked i Hi).
Qed.

Lemma mul_comm (a b : list bool) : is128 a -> is128 b -> mul a b = mul b a.
Proof.
  intros Ha Hb.
  rewrite <- (mul_one_r b Hb) at 1.
  rewrite (mul_mul a b oneV oneV_128), (mul_one_r a Ha). reflexivity.
Qed.

Lemma mul_assoc (a b c : list bool) :
  is128 a -> is128 b -> is128 c -> mul (mul a b) c = mul a (mul b c).
Proof.
  intros Ha Hb Hc.
  rewrite (mul_comm (mul a b) c (mul_128 a b Hb) Hc).
  rewrite (mul_mul c a b Hb), (mul_comm c b Hc Hb). reflexivity.
Qed.


(** *** Squaring *)

Lemma sq_128 (a : list bool) : is128 a -> is128 (sq a).
Proof. intros H. apply mul_128. exact H. Qed.

Lemma sq_add (a b : list bool) :
  is128 a -> is128 b -> sq (xor_bits a b) = xor_bits (sq a) (sq b).
Proof.
  intros Ha Hb. unfold sq.
  rewrite mul_add_l by (try apply xor_128; try assumption; rewrite Ha, Hb; reflexivity).
  rewrite !mul_add_r by assumption.
  rewrite (mul_comm b a Hb Ha).
  rewrite xor_bits_assoc, <- (xor_bits_assoc (mul a b)).
  rewrite (xor_self _ (mul_128 a b Hb)), (xor_zero_l _ (mul_128 b b Hb)).
  reflexivity.
Qed.

Lemma sq_mul (a b : list bool) :
  is128 a -> is128 b -> sq (mul a b) = mul (sq a) (sq b).
Proof.
  intros Ha Hb. unfold sq.
  rewrite (mul_assoc a b (mul a b) Ha Hb (mul_128 a b Hb)).
  rewrite (mul_mul b a b Hb).
  rewrite (mul_assoc a a (mul b b) Ha Ha (mul_128 b b Hb)).
  reflexivity.
Qed.

Lemma sq_one : sq oneV = oneV.
Proof. apply mul_one_l. exact oneV_128. Qed.

Lemma sq_additive : additive sq.
Proof. split; [exact sq_128 | exact sq_add]. Qed.

Lemma iter_sq_128 (n : nat) (a : list bool) : is128 a -> is128 (Nat.iter n sq a).
Proof.
  intros H. induction n as [| n IH]; [exact H |].
  cbn [Nat.iter nat_rect]. apply sq_128. exact IH.
Qed.

Lemma iter_sq_add (n : nat) (a b : list bool) :
  is128 a -> is128 b ->
  Nat.iter n sq (xor_bits a b) = xor_bits (Nat.iter n sq a) (Nat.iter n sq b).
Proof.
  intros Ha Hb. induction n as [| n IH]; [reflexivity |].
  cbn [Nat.iter nat_rect]. fold (Nat.iter n sq (xor_bits a b)).
  fold (Nat.iter n sq a). fold (Nat.iter n sq b).
  rewrite IH. apply sq_add; apply iter_sq_128; assumption.
Qed.

Lemma iter_sq_mul (n : nat) (a b : list bool) :
  is128 a -> is128 b ->
  Nat.iter n sq (mul a b) = mul (Nat.iter n sq a) (Nat.iter n sq b).
Proof.
  intros Ha Hb. induction n as [| n IH]; [reflexivity |].
  cbn [Nat.iter nat_rect]. fold (Nat.iter n sq (mul a b)).
  fold (Nat.iter n sq a). fold (Nat.iter n sq b).
  rewrite IH. apply sq_mul; apply iter_sq_128; assumption.
Qed.

Lemma iter_sq_one (n : nat) : Nat.iter n sq oneV = oneV.
Proof.
  induction n as [| n IH]; [reflexivity |].
  cbn [Nat.iter nat_rect]. fold (Nat.iter n sq oneV). rewrite IH. exact sq_one.
Qed.

(** *** [a^(2^128) = a] *)

Lemma frobenius_x_checked : eqbV (Nat.iter 128 sq (unitV 1)) (unitV 1) = true.
Proof. vm_compute. reflexivity. Qed.

Lemma unitV_succ_checked :
  forallb (fun i => eqbV (mul (unitV 1) (unitV i)) (unitV (S i))) (seq 0 127) = true.
Proof. vm_compute. reflexivity. Qed.

Lemma frobenius_unitV (i : nat) : (i < 128)%nat -> Nat.iter 128 sq (unitV i) = unitV i.
Proof.
  induction i as [| i IH]; intros Hi.
  - change (unitV 0) with oneV. apply iter_sq_one.
  - assert (E : mul (unitV 1) (unitV i) = unitV (S i)).
    { apply eqbV_eq. apply (checked_below _ 127 unitV_succ_checked i). lia. }
    rewrite <- E.
    rewrite iter_sq_mul by (apply unitV_128; lia).
    rewrite (eqbV_eq _ _ frobenius_x_checked), IH by lia. reflexivity.
Qed.

Lemma frobenius (a : list bool) : is128 a -> Nat.iter 128 sq a = a.
Proof.
  apply (lin_ext (Nat.iter 128 sq) (fun a => a)).
  - split; [exact (iter_sq_128 128) | exact (iter_sq_add 128)].
  - split; [intros x Hx; exact Hx | reflexivity].
  - exact frobenius_unitV.
Qed.

(** *** [a^2 = a] only for 0 and 1 *)

Lemma psi_additive : additive psi.
Proof.
  split.
  - intros a Ha. apply xor_128; [apply sq_128 |]; exact Ha.
  - intros a b Ha Hb. unfold psi. rewrite sq_add by assumption.
    apply xor_bits_swap.
Qed.

Lemma applyCols_128 (cols : list (list bool)) (v : list bool) :
  Forall is128 cols -> is128 (applyCols cols v).
Proof.
  intros Hc. revert v. induction Hc as [| col cols Hcol Hcols IH]; intros [| c v];
    try exact zeroV_128.
  cbn [applyCols]. destruct c; [apply xor_128; [exact Hcol |] |]; apply IH.
Qed.

Lemma applyCols_add (cols : list (list bool)) (v w : list bool) :
  Forall is128 cols -> List.length v = List.length w ->
  applyCols cols (xor_bits v w) = xor_bits (applyCols cols v) (applyCols cols w).
Proof.
  intros Hc. revert v w.
  induction Hc as [| col cols Hcol Hcols IH]; intros [| c v] [| d w] Hl;
    try discriminate Hl; try reflexivity.
  cbn [xor_bits applyCols].
  rewrite IH by (simpl in Hl; lia).
  pose proof (applyCols_128 cols v Hcols) as Hv.
  pose proof (applyCols_128 cols w Hcols) as Hw.
  destruct c, d; cbn [xorb].
  - rewrite xor_bits_swap, (xor_self col Hcol), xor_zero_l by (apply xor_128; assumption).
    reflexivity.
  - rewrite xor_bits_assoc. reflexivity.
  - rewrite <- !xor_bits_assoc. f_equal. apply xor_bits_comm.
  - reflexivity.
Qed.

Lemma psiInverse_128 : Forall is128 psiInverse.
Proof.
  apply Forall_forall. intros col Hin.
  assert (H : forallb (fun c => (List.length c =? 128)%nat) psiInverse = true)
    by (vm_compute; reflexivity).
  rewrite forallb_forall in H. apply Nat.eqb_eq. apply H. exact Hin.
Qed.

Lemma psiInverse_checked :
  forallb (fun i => eqbV (applyCols psiInverse (psi (unitV i))) (false :: tl (unitV i)))
          (seq 0 128) = true.
Proof. vm_compute. reflexivity. Qed.

(** [psiInverse] undoes [psi] up to the coefficient of [x^0]. *)
Lemma psiInverse_psi (a : list bool) :
  is128 a -> applyCols psiInverse (psi a) = false :: tl a.
Proof.
  apply (lin_ext (fun a => applyCols psiInverse (psi a)) (fun a => false :: tl a)).
  - split.
    + intros x _. apply applyCols_128. exact psiInverse_128.
    + intros x y Hx Hy. rewrite (proj2 psi_additive x y Hx Hy).
      apply applyCols_add; [exact psiInverse_128 |].
      rewrite (proj1 psi_additive x Hx), (proj1 psi_additive y Hy). reflexivity.
  - split.
    + intros [| c x] Hx; [discriminate Hx |]. exact Hx.
    + intros [| c x] [| d y] Hx Hy; try discriminate Hx; try discriminate Hy.
      reflexivity.
  - intros i Hi. apply eqbV_eq.
    exact (checked_below _ 128 psiInverse_checked i Hi).
Qed.

Lemma idempotents (a : list bool) :
  is128 a -> sq a = a -> a = zeroV \/ a = oneV.
Proof.
  intros Ha H.
  pose proof (psiInverse_psi a Ha) as K.
  unfold psi in K. rewrite H, (xor_self a Ha) in K.
  change (applyCols psiInverse zeroV) with zeroV in K.
  destruct a as [| c t]; [discriminate Ha |].
  cbn [tl] in K. injection K as K.
  destruct c; [right | left]; rewrite <- K; reflexivity.
Qed.

(** *** Inverses *)

Lemma conjugates_128 (n : nat) (a : list bool) : is128 a -> is128 (conjugates n a).
Proof.
  revert a. induction n as [| n IH]; intros a Ha; [exact oneV_128 |].
  cbn [conjugates]. apply mul_128. apply IH. apply sq_128. exact Ha.
Qed.

Lemma sq_conjugates (n : nat) (a : list bool) :
  is128 a -> sq (conjugates n a) = conjugates n (sq a).
Proof.
  revert a. induction n as [| n IH]; intros a Ha; [exact sq_one |].
  cbn [conjugates].
  rewrite sq_mul by (try apply conjugates_128; try apply sq_128; exact Ha).
  rewrite IH by (apply sq_128; exact Ha). reflexivity.
Qed.

(** [a * a^(2^n - 1) = a^(2^n)]. *)
Lemma mul_conjugates (n : nat) (a : list bool) :
  is128 a -> mul a (conjugates n a) = Nat.iter n sq a.
Proof.
  revert a. induction n as [| n IH]; intros a Ha.
  - apply mul_one_r. exact Ha.
  - cbn [conjugates].
    rewrite <- mul_assoc by (try apply conjugates_128; try apply sq_128; exact Ha).
    fold (sq a). rewrite IH by (apply sq_128; exact Ha).
    symmetry. apply Nat.iter_succ_r.
Qed.

Lemma conjugates_last (n : nat) (a : list bool) :
  is128 a -> conjugates (S n) a = mul (conjugates n a) (Nat.iter n sq a).
Proof.
  revert a. induction n as [| n IH]; intros a Ha.
  - cbn [conjugates Nat.iter nat_rect].
    rewrite (mul_one_r a Ha), (mul_one_l a Ha). reflexivity.
  - change (conjugates (S (S n)) a) with (mul a (conjugates (S n) (sq a))).
    rewrite IH by (apply sq_128; exact Ha).
    rewrite <- mul_assoc
      by (try apply iter_sq_128; try apply conjugates_128; try apply sq_128; exact Ha).
    rewrite Nat.iter_succ_r. reflexivity.
Qed.

Lemma inv_128 (a : list bool) : is128 a -> is128 (inv a).
Proof. intros Ha. apply conjugates_128. apply sq_128. exact Ha. Qed.

(** Every element but 0 has an inverse. *)
Lemma mul_inv (a : list bool) : is128 a -> a <> zeroV -> mul a (inv a) = oneV.
Proof.
  intros Ha Hnz.
  pose proof (inv_128 a Ha) as Hi.
  assert (He : is128 (mul a (inv a))) by (apply mul_128; exact Hi).
  assert (Hidem : sq (mul a (inv a)) = mul a (inv a)).
  { change (mul a (inv a)) with (conjugates 128 a).
    rewrite (sq_conjugates 128 a Ha).
    rewrite (conjugates_last 127 (sq a) (sq_128 a Ha)).
    rewrite <- Nat.iter_succ_r, (frobenius a Ha).
    fold (inv a). rewrite (mul_comm (inv a) a Hi Ha). reflexivity. }
  destruct (idempotents _ He Hidem) as [E | E]; [| exact E].
  exfalso. apply Hnz.
  rewrite <- (frobenius a Ha), <- (mul_conjugates 128 a Ha).
  change (conjugates 128 a) with (mul a (inv a)). rewrite E.
  apply mul_zero_r.
Qed.

(** Multiplication by an element other than 0 is one to one. *)
Lemma mul_injective (a b h : list bool) :
  is128 a -> is128 b -> is128 h -> h <> zeroV ->
  mul a h = mul b h -> a = b.
Proof.
  intros Ha Hb Hh Hnz E.
  pose proof (xor_128 a b Ha Hb) as Hd.
  apply (xor_cancel a b Ha Hb).
  assert (Z : mul (xor_bits a b) h = zeroV).
  { rewrite mul_add_l by (try exact Hh; rewrite Ha, Hb; reflexivity).
    rewrite E. apply xor_self. apply mul_128. exact Hh. }
  rewrite <- (mul_one_r _ Hd), <- (mul_inv h Hh Hnz).
  rewrite <- mul_assoc by (try apply inv_128; assumption).
  rewrite Z. apply mul_zero_l. apply inv_128. exact Hh.
Qed.

End GFFacts.

(** ** GHASH tells two ciphertexts that differ in one bit apart *)

Module GHASHFacts.
Import GCM GCMFacts GF GFFacts.

Lemma bytes_of_bits_of_bytes (l : list byte) : bytes_of_bits (bits_of_bytes l) = l.
Proof.
  induction l as [| a l IH]; [reflexivity |].
  destruct a. unfold bits_of_bytes in *. cbn [flat_map bits_of_byte app bytes_of_bits].
  rewrite IH. reflexivity.
Qed.

Lemma bits_of_bytes_of_bits (n : nat) (l : list bool) :
  List.length l = (8 * n)%nat -> bits_of_bytes (bytes_of_bits l) = l.
Proof.
  revert l. induction n as [| n IH]; intros l H.
  - destruct l; [reflexivity | discriminate H].
  - do 8 (destruct l as [| ? l]; [simpl in H; lia |]).
    cbn [bytes_of_bits]. unfold bits_of_bytes in *.
    cbn [flat_map bits_of_byte app]. rewrite IH by (simpl in H; lia). reflexivity.
Qed.

Lemma bits_128 (x : list byte) : List.length x = 16%nat -> is128 (bits_of_bytes x).
Proof. intros H. unfold is128. rewrite bits_of_bytes_length, H. reflexivity. Qed.

Lemma gfmul_mul (x y : list byte) :
  gfmul x y = bytes_of_bits (mul (bits_of_bytes x) (bits_of_bytes y)).
Proof. reflexivity. Qed.

Lemma gfmul_zero_r (x : list byte) : gfmul x zeroBlock = zeroBlock.
Proof.
  rewrite gfmul_mul. change (bits_of_bytes zeroBlock) with zeroV.
  rewrite mul_zero_r. reflexivity.
Qed.

(** With a hash key other than zero, [gfmul _ H] is one to one. *)
Lemma gfmul_injective (x x' H : list byte) :
  List.length x = 16%nat -> List.length x' = 16%nat -> List.length H = 16%nat ->
  H <> zeroBlock -> gfmul x H = gfmul x' H -> x = x'.
Proof.
  intros Hx Hx' HH Hnz E.
  rewrite !gfmul_mul in E.
  apply (f_equal bits_of_bytes) in E.
  rewrite !(bits_of_bytes_of_bits 16) in E
    by (apply mul_128; apply bits_128; exact HH).
  apply mul_injective in E; try (apply bits_128; assumption).
  - apply (f_equal bytes_of_bits) in E.
    rewrite !bytes_of_bits_of_bytes in E. exact E.
  - intros Z. apply Hnz. rewrite <- (bytes_of_bits_of_bytes H), Z. reflexivity.
Qed.

Lemma XORBytes_comm (x y : list byte) : XORBytes x y = XORBytes y x.
Proof.
  revert y. induction x as [| a x IH]; intros [| c y]; try reflexivity.
  cbn [XORBytes]. rewrite xor_byte_comm, IH. reflexivity.
Qed.

Lemma XORBytes_injective_l (x x' m : list byte) :
  (List.length x <= List.length m)%nat -> (List.length x' <= List.length m)%nat ->
  XORBytes x m = XORBytes x' m -> x = x'.
Proof.
  intros Hx Hx' E.
  rewrite <- (XORBytes_cancel x m Hx), E. apply XORBytes_cancel. exact Hx'.
Qed.

Lemma XORBytes_injective_r (m x x' : list byte) :
  (List.length x <= List.length m)%nat -> (List.length x' <= List.length m)%nat ->
  XORBytes m x = XORBytes m x' -> x = x'.
Proof.
  intros Hx Hx' E. rewrite !(XORBytes_comm m) in E.
  exact (XORBytes_injective_l x x' m Hx Hx' E).
Qed.

Lemma padBlock_length (blk : list byte) :
  (List.length blk <= 16)%nat -> List.length (padBlock blk) = 16%nat.
Proof.
  intros H. unfold padBlock, gcmBlockSize. rewrite length_app, repeat_length. lia.
Qed.

Lemma padBlock_injective (x x' : list byte) :
  List.length x = List.length x' -> padBlock x = padBlock x' -> x = x'.
Proof.
  intros Hl E. unfold padBlock in E. rewrite Hl in E.
  exact (app_inv_tail _ _ _ E).
Qed.

(** *** A flipped bit and the blocks of the data *)

Lemma flipBit_firstn_lt (n : nat) (l : list byte) (i : nat) :
  (i < 8 * n)%nat -> firstn n (flipBit l i) = flipBit (firstn n l) i.
Proof.
  revert l i. induction n as [| n IH]; intros l i Hi; [lia |].
  destruct l as [| a l]; [reflexivity |].
  cbn [flipBit firstn]. destruct (i <? 8)%nat eqn:E; [reflexivity |].
  apply Nat.ltb_ge in E. cbn [firstn]. rewrite IH by lia. reflexivity.
Qed.

Lemma flipBit_skipn_lt (n : nat) (l : list byte) (i : nat) :
  (i < 8 * n)%nat -> skipn n (flipBit l i) = skipn n l.
Proof.
  revert l i. induction n as [| n IH]; intros l i Hi; [lia |].
  destruct l as [| a l]; [reflexivity |].
  cbn [flipBit]. destruct (i <? 8)%nat eqn:E; [reflexivity |].
  apply Nat.ltb_ge in E. cbn [skipn]. apply IH. lia.
Qed.

Lemma flipBit_firstn_ge (n : nat) (l : list byte) (i : nat) :
  (8 * n <= i)%nat -> firstn n (flipBit l i) = firstn n l.
Proof.
  revert l i. induction n as [| n IH]; intros l i Hi; [reflexivity |].
  destruct l as [| a l]; [reflexivity |].
  cbn [flipBit]. destruct (i <? 8)%nat eqn:E; [apply Nat.ltb_lt in E; lia |].
  cbn [firstn]. rewrite IH by lia. reflexivity.
Qed.

Lemma flipBit_skipn_ge (n : nat) (l : list byte) (i : nat) :
  (8 * n <= i)%nat -> skipn n (flipBit l i) = flipBit (skipn n l) (i - 8 * n).
Proof.
  revert l i. induction n as [| n IH]; intros l i Hi.
  - cbn [skipn]. rewrite Nat.sub_0_r. reflexivity.
  - destruct l as [| a l]; [reflexivity |].
    cbn [flipBit]. destruct (i <? 8)%nat eqn:E; [apply Nat.ltb_lt in E; lia |].
    cbn [skipn]. rewrite IH by lia. f_equal. lia.
Qed.

Lemma flipBit_app_l (x y : list byte) (i : nat) :
  (i < 8 * List.length x)%nat -> flipBit (x ++ y) i = flipBit x i ++ y.
Proof.
  revert i. induction x as [| a x IH]; intros i Hi; [simpl in Hi; lia |].
  cbn [app flipBit]. destruct (i <? 8)%nat eqn:E; [reflexivity |].
  apply Nat.ltb_ge in E. rewrite IH by (cbn [List.length] in Hi; lia). reflexivity.
Qed.

(** *** [update] *)

Section Update.

Variable H : list byte.
Hypothesis H_length : List.length H = 16%nat.

Lemma update_step (fuel : nat) (y data : list byte) :
  data <> [] ->
  update (S fuel) H y data
  = update fuel H (gfmul (XORBytes y (padBlock (firstn gcmBlockSize data))) H)
           (skipn gcmBlockSize data).
Proof. intros Hd. destruct data; [contradiction | reflexivity]. Qed.

Lemma update_length (fuel : nat) (y data : list byte) :
  List.length y = 16%nat -> List.length (update fuel H y data) = 16%nat.
Proof.
  revert y data. induction fuel as [| fuel IH]; intros y data Hy.
  - destruct data; exact Hy.
  - destruct data as [| a data]; [exact Hy |].
    rewrite update_step by discriminate. apply IH. apply gfmul_length. exact H_length.
Qed.

Hypothesis H_nonzero : H <> zeroBlock.

Lemma block_step_injective (y y' blk blk' : list byte) :
  List.length y = 16%nat -> List.length y' = 16%nat ->
  List.length blk = 16%nat -> List.length blk' = 16%nat ->
  gfmul (XORBytes y blk) H = gfmul (XORBytes y' blk') H ->
  XORBytes y blk = XORBytes y' blk'.
Proof.
  intros Hy Hy' Hb Hb'.
  apply gfmul_injective; try assumption; rewrite XORBytes_length; lia.
Qed.

(** Two different states stay different while the same data is folded in. *)
Lemma update_apart (fuel : nat) (y y' data : list byte) :
  List.length y = 16%nat -> List.length y' = 16%nat -> y <> y' ->
  update fuel H y data <> update fuel H y' data.
Proof.
  revert y y' data. induction fuel as [| fuel IH]; intros y y' data Hy Hy' Hne.
  - destruct data; exact Hne.
  - destruct data as [| a data]; [exact Hne |].
    rewrite !update_step by discriminate.
    set (blk := padBlock (firstn gcmBlockSize (a :: data))).
    assert (Hb : List.length blk = 16%nat).
    { apply padBlock_length. rewrite length_firstn. unfold gcmBlockSize. lia. }
    apply IH; try (apply gfmul_length; exact H_length).
    intros E. apply Hne.
    apply block_step_injective in E; try assumption.
    apply (XORBytes_injective_l y y' blk); [lia | lia | exact E].
Qed.

(** One flipped bit of the data changes the state. *)
Lemma update_flipBit (fuel : nat) (y data : list byte) (i : nat) :
  List.length y = 16%nat -> (List.length data <= fuel)%nat ->
  (i < 8 * List.length data)%nat ->
  update fuel H y (flipBit data i) <> update fuel H y data.
Proof.
  revert y data i. induction fuel as [| fuel IH]; intros y data i Hy Hf Hi; [lia |].
  assert (Hd : data <> []) by (intros ->; simpl in Hi; lia).
  assert (Hd' : flipBit data i <> []).
  { intros E. apply (f_equal (@List.length byte)) in E.
    rewrite flipBit_length in E. destruct data; [contradiction | discriminate E]. }
  rewrite !update_step by assumption.
  destruct (Nat.lt_ge_cases i (8 * gcmBlockSize)) as [Hlt | Hge].
  - rewrite flipBit_firstn_lt, flipBit_skipn_lt by exact Hlt.
    set (blk := firstn gcmBlockSize data).
    assert (Hblk : (List.length blk <= 16)%nat).
    { unfold blk. rewrite length_firstn. unfold gcmBlockSize. lia. }
    assert (Hiblk : (i < 8 * List.length blk)%nat).
    { unfold blk. rewrite length_firstn. unfold gcmBlockSize in *. lia. }
    apply update_apart; try (apply gfmul_length; exact H_length).
    intros E.
    apply block_step_injective in E; try assumption;
      try (apply padBlock_length; rewrite ?flipBit_length; exact Hblk).
    apply XORBytes_injective_r in E;
      try (rewrite padBlock_length; rewrite ?flipBit_length; lia).
    apply padBlock_injective in E; [| apply flipBit_length].
    exact (flipBit_neq blk i Hiblk E).
  - rewrite flipBit_firstn_ge, flipBit_skipn_ge by exact Hge.
    apply IH.
    + apply gfmul_length. exact H_length.
    + rewrite length_skipn. unfold gcmBlockSize in *. lia.
    + rewrite length_skipn. unfold gcmBlockSize in *. lia.
Qed.

End Update.

(** *** The tag *)

Lemma auth_flipBit (g : gcm) (ciphertext data tagMask : list byte) (i : nat) :
  List.length (hashKey g) = 16%nat -> hashKey g <> zeroBlock ->
  List.length tagMask = 16%nat ->
  (i < 8 * List.length ciphertext)%nat ->
  auth g (flipBit ciphertext i) data tagMask <> auth g ciphertext data tagMask.
Proof.
  intros HH Hnz Hm Hi. unfold auth. rewrite flipBit_length.
  set (y0 := update (List.length data) (hashKey g) zeroBlock data).
  assert (Hy0 : List.length y0 = 16%nat) by (apply update_length; [exact HH | reflexivity]).
  set (lens := be_bytes 8 (Z.of_nat (List.length data) * 8)
               ++ be_bytes 8 (Z.of_nat (List.length ciphertext) * 8)).
  assert (Hlens : List.length lens = 16%nat).
  { unfold lens. rewrite length_app, !be_bytes_length. reflexivity. }
  pose proof (update_flipBit (hashKey g) HH Hnz (List.length ciphertext) y0 ciphertext i
                Hy0 (Nat.le_refl _) Hi) as Hne.
  set (y := update (List.length ciphertext) (hashKey g) y0 ciphertext) in *.
  set (y' := update (List.length ciphertext) (hashKey g) y0 (flipBit ciphertext i)) in *.
  assert (Hy : List.length y = 16%nat) by (apply update_length; assumption).
  assert (Hy' : List.length y' = 16%nat) by (apply update_length; assumption).
  intros E. apply Hne.
  apply XORBytes_injective_l in E; try (rewrite gfmul_length; lia).
  apply (block_step_injective (hashKey g) HH Hnz) in E; try assumption.
  apply (XORBytes_injective_l y' y lens); [lia | lia | exact E].
Qed.

(** With the hash key zero the tag is the mask, whatever the ciphertext. *)
Lemma auth_zero_key (g : gcm) (ciphertext data tagMask : list byte) :
  hashKey g = zeroBlock -> List.length tagMask = 16%nat ->
  auth g ciphertext data tagMask = tagMask.
Proof.
  intros HH Hm. unfold auth. rewrite HH, gfmul_zero_r.
  rewrite XORBytes_comm.
  assert (K : forall m, (List.length m <= 16)%nat -> XORBytes m (repeat zero 16) = m).
  { clear. intros m. generalize 16%nat as n. induction m as [| a m IH]; intros [| n] Hn;
      try reflexivity; [simpl in Hn; lia |].
    cbn [repeat XORBytes]. rewrite IH by (simpl in Hn; lia).
    destruct a as [[] [] [] [] [] [] [] []]; reflexivity. }
  apply K. lia.
Qed.

End GHASHFacts.

(** ** Seal and Open *)

Module SealFacts.
Import GCM GCMFacts.

Section SealOpen.

Variable b : Block.
Hypothesis laws : BlockLaws b.
Hypothesis size16 : BlockSize b = 16%nat.

Lemma NewGCM_ok :
  exists g, NewGCM b = Ok g /\ cipher g = b /\ List.length (hashKey g) = 16%nat.
Proof.
  unfold NewGCM. rewrite size16. cbn [Nat.eqb gcmBlockSize negb].
  assert (Hz : List.length zeroBlock = BlockSize b).
  { rewrite size16. apply repeat_length. }
  destruct (encrypt_full b laws zeroBlock Hz) as (H & EH & HH).
  rewrite EH. cbn [orPanic bind].
  exists (mkGCM b H). split; [reflexivity |]. split; [reflexivity |].
  cbn [hashKey]. rewrite HH. exact size16.
Qed.

Variable g : gcm.
Hypothesis cipher_g : cipher g = b.
Hypothesis hashKey_g : List.length (hashKey g) = 16%nat.

(** [Seal] returns the counter-mode ciphertext, as long as the plaintext,
    followed by a 16-byte tag; [Open] gives the plaintext back, and
    refuses the sealed text once a bit of the tag is flipped.  Once a bit
    of the ciphertext is flipped, [Open] refuses it when the hash key is
    not the zero block, and takes it (for another plaintext) when it is. *)
Lemma Seal_Open (nonce plaintext data : list byte) :
  List.length nonce = gcmStandardNonceSize ->
  (Z.of_nat (List.length plaintext) <= maxPlaintext g)%Z ->
  exists ct tag,
    Seal g nonce plaintext data = Some (ct ++ tag)
    /\ List.length ct = List.length plaintext
    /\ List.length tag = gcmTagSize
    /\ counterCrypt (List.length plaintext) b (gcmInc32 (deriveCounter nonce)) plaintext
       = Some ct
    /\ Open g nonce (ct ++ tag) data = Ok plaintext
    /\ (forall i, (8 * List.length ct <= i < 8 * List.length (ct ++ tag))%nat ->
         Open g nonce (flipBit (ct ++ tag) i) data = Err errOpen)
    /\ (hashKey g <> zeroBlock ->
        forall i, (i < 8 * List.length ct)%nat ->
          Open g nonce (flipBit (ct ++ tag) i) data = Err errOpen)
    /\ (hashKey g = zeroBlock ->
        forall i, (i < 8 * List.length ct)%nat ->
          exists p, Open g nonce (flipBit (ct ++ tag) i) data = Ok p /\ p <> plaintext).
Proof.
  intros Hn Hmax.
  assert (Hc : List.length (deriveCounter nonce) = 16%nat)
    by (apply deriveCounter_length; exact Hn).
  assert (Hcb : List.length (deriveCounter nonce) = BlockSize b) by (rewrite size16; exact Hc).
  destruct (encrypt_full b laws _ Hcb) as (tagMask & Emask & Hmask). rewrite size16 in Hmask.
  assert (Hinc : List.length (gcmInc32 (deriveCounter nonce)) = 16%nat).
  { rewrite gcmInc32_length; lia. }
  destruct (counterCrypt_involution b laws size16 (List.length plaintext)
              (gcmInc32 (deriveCounter nonce)) plaintext Hinc (Nat.le_refl _))
    as (ct & Ect & Hct & Dct).
  set (tag := auth g ct data tagMask).
  assert (Htag : List.length tag = gcmTagSize) by (apply auth_length; assumption).
  exists ct, tag.
  assert (Hsealed : List.length (ct ++ tag) = (List.length ct + 16)%nat).
  { rewrite length_app, Htag. reflexivity. }
  split.
  { unfold Seal. rewrite Hn, Nat.eqb_refl. cbn [negb].
    replace (maxPlaintext g <? Z.of_nat (List.length plaintext))%Z with false
      by (symmetry; apply Z.ltb_ge; exact Hmax).
    rewrite cipher_g, Emask. cbn [optbind]. rewrite Ect. reflexivity. }
  split; [exact Hct |]. split; [exact Htag |]. split; [exact Ect |].
  assert (Hopen : forall ct' tag',
            List.length ct' = List.length ct -> List.length tag' = gcmTagSize ->
            Open g nonce (ct' ++ tag') data =
              if negb (ConstantTimeCompare (auth g ct' data tagMask) tag') then Err errOpen
              else orPanic (counterCrypt (List.length ct') b
                              (gcmInc32 (deriveCounter nonce)) ct')).
  { intros ct' tag' Hct' Htag'. unfold Open. rewrite Hn, Nat.eqb_refl. cbn [negb].
    rewrite length_app, Htag', Hct'.
    replace (List.length ct + gcmTagSize <? gcmTagSize)%nat with false
      by (symmetry; apply Nat.ltb_ge; lia).
    replace (maxPlaintext g + Z.of_nat gcmTagSize
             <? Z.of_nat (List.length ct + gcmTagSize))%Z with false
      by (symmetry; apply Z.ltb_ge; lia).
    replace (List.length ct + gcmTagSize - gcmTagSize)%nat with (List.length ct) by lia.
    rewrite <- Hct'.
    rewrite skipn_app_exact, firstn_app_exact by reflexivity.
    rewrite cipher_g, Emask. reflexivity. }
  split.
  { rewrite (Hopen ct tag eq_refl Htag). fold tag.
    replace (ConstantTimeCompare tag tag) with true
      by (symmetry; apply ConstantTimeCompare_eq; reflexivity).
    cbn [negb]. rewrite Hct, Dct. reflexivity. }
  split.
  { intros i Hi. rewrite Hsealed in Hi.
    rewrite flipBit_app_r by lia.
    rewrite Hopen by (try rewrite flipBit_length; try exact Htag; reflexivity).
    fold tag.
    destruct (ConstantTimeCompare tag (flipBit tag (i - 8 * List.length ct))) eqn:E;
      [| reflexivity].
    apply ConstantTimeCompare_eq in E. exfalso.
    apply (flipBit_neq tag (i - 8 * List.length ct)); [| symmetry; exact E].
    rewrite Htag. unfold gcmTagSize. lia. }
  split.
  - intros Hnz i Hi.
    rewrite GHASHFacts.flipBit_app_l by exact Hi.
    rewrite Hopen by (try apply flipBit_length; exact Htag).
    destruct (ConstantTimeCompare (auth g (flipBit ct i) data tagMask) tag) eqn:E;
      [| reflexivity].
    apply ConstantTimeCompare_eq in E. exfalso.
    exact (GHASHFacts.auth_flipBit g ct data tagMask i hashKey_g Hnz Hmask Hi E).
  - intros Hz i Hi.
    rewrite GHASHFacts.flipBit_app_l by exact Hi.
    rewrite Hopen by (try apply flipBit_length; exact Htag).
    unfold tag.
    rewrite !(GHASHFacts.auth_zero_key g _ data tagMask Hz Hmask).
    replace (ConstantTimeCompare tagMask tagMask) with true
      by (symmetry; apply ConstantTimeCompare_eq; reflexivity).
    cbn [negb]. rewrite flipBit_length.
    assert (Hle : (List.length (flipBit ct i) <= List.length ct)%nat)
      by (rewrite flipBit_length; apply Nat.le_refl).
    destruct (counterCrypt_involution b laws size16 (List.length ct)
                (gcmInc32 (deriveCounter nonce)) (flipBit ct i) Hinc Hle)
      as (p & Ep & _ & Dp).
    exists p. rewrite Ep. split; [reflexivity |].
    intros ->. rewrite Hct, Ect in Dp. injection Dp as Dp.
    exact (flipBit_neq ct i Hi (eq_sym Dp)).
Qed.

Lemma Seal_too_long (nonce plaintext data : list byte) :
  (maxPlaintext g < Z.of_nat (List.length plaintext))%Z ->
  Seal g nonce plaintext data = None.
Proof.
  intros H. unfold Seal. destruct (negb _); [reflexivity |].
  replace (maxPlaintext g <? Z.of_nat (List.length plaintext))%Z with true
    by (symmetry; apply Z.ltb_lt; exact H).
  reflexivity.
Qed.

End SealOpen.

End SealFacts.

(** ** aesEncrypt in GCM mode *)

Lemma aesEncrypt_GCM_unfold (data : list byte) (opt : EncOpt) (block : Block) :
  ToUpper (Mode opt) = "GCM"%string ->
  AES.NewCipher (bytes_of_string (Key opt)) = Ok block ->
  aesEncrypt data opt =
    let nonce := bytes_of_string (Iv opt) in
    if negb (List.length nonce =? 12)%nat then Err errGCMNonceLength
    else
      aesGCM <- GCM.NewGCM block ;;
      encrypted <- orPanic (GCM.Seal aesGCM nonce data []) ;;
      Ok (EncodeToString encrypted).
Proof.
  intros Hm Hk. unfold aesEncrypt. rewrite Hk. cbn [bind]. rewrite Hm. reflexivity.
Qed.

Lemma NewGCM_hashKey (b : Block) (g : GCM.gcm) :
  GCM.NewGCM b = Ok g -> Encrypt b GCM.zeroBlock = Some (GCM.hashKey g).
Proof.
  unfold GCM.NewGCM. destruct (negb _); [discriminate |].
  destruct (Encrypt b GCM.zeroBlock) as [H |]; [| discriminate].
  cbn [orPanic bind]. intros [= <-]. reflexivity.
Qed.

(** A plaintext above the limit of GCM makes [Seal], and so [aesEncrypt],
    panic. *)
Lemma aesEncrypt_GCM_too_long (data : list byte) (opt : EncOpt) :
  ToUpper (Mode opt) = "GCM"%string ->
  keyLenOK opt ->
  String.length (Iv opt) = 12%nat ->
  (gcmMaxPlaintext < Z.of_nat (List.length data))%Z ->
  aesEncrypt data opt = Panic.
Proof.
  intros Hm Hk Hiv Hlong.
  destruct (AESFacts.NewCipher_ok _ (keyLenOK_bytes opt Hk)) as (block & Eblock & Hbs & laws).
  rewrite (aesEncrypt_GCM_unfold data opt block Hm Eblock). cbv zeta.
  rewrite bytes_of_string_length.
  destruct (SealFacts.NewGCM_ok block laws Hbs) as (g & Eg & Hcg & HHg).
  assert (Hmaxg : GCM.maxPlaintext g = gcmMaxPlaintext).
  { unfold GCM.maxPlaintext, gcmMaxPlaintext. rewrite Hcg, Hbs. reflexivity. }
  rewrite Hiv. cbn [Nat.eqb negb]. rewrite Eg. cbn [bind].
  rewrite (SealFacts.Seal_too_long g) by (rewrite Hmaxg; exact Hlong).
  reflexivity.
Qed.

(** C6, as the code has it.  In GCM mode with a key of 16, 24 or 32 bytes: a nonce
    that is not 12 bytes long is an error; with a 12-byte nonce a plaintext
    above the limit of GCM, (2^32 - 2) * 16 bytes, makes the library panic;
    a plaintext within the limit is sealed unpadded and with no additional
    data, and the result is the ciphertext (as long as the plaintext)
    followed by the 16-byte tag, in base64.  [Open] with the same key and
    nonce gives the plaintext back, and fails once a bit of the tag is
    flipped.  Once a bit of the ciphertext is flipped it fails exactly
    when the hash key, the encryption of the zero block, is not the zero
    block; with a zero hash key it returns another plaintext. *)
Theorem aesEncrypt_GCM_seal (data : list byte) (opt : EncOpt) :
  ToUpper (Mode opt) = "GCM"%string ->
  keyLenOK opt ->
  (String.length (Iv opt) <> 12%nat -> aesEncrypt data opt = Err errGCMNonceLength)
  /\ (String.length (Iv opt) = 12%nat ->
      (gcmMaxPlaintext < Z.of_nat (List.length data))%Z ->
      aesEncrypt data opt = Panic)
  /\ (String.length (Iv opt) = 12%nat ->
      (Z.of_nat (List.length data) <= gcmMaxPlaintext)%Z ->
      exists (block : Block) (g : GCM.gcm) (ct tag : list byte),
        AES.NewCipher (bytes_of_string (Key opt)) = Ok block
        /\ GCM.NewGCM block = Ok g
        /\ Encrypt block GCM.zeroBlock = Some (GCM.hashKey g)
        /\ GCM.Seal g (bytes_of_string (Iv opt)) data [] = Some (ct ++ tag)
        /\ List.length ct = List.length data
        /\ List.length tag = 16%nat
        /\ aesEncrypt data opt = Ok (EncodeToString (ct ++ tag))
        /\ DecodeString (EncodeToString (ct ++ tag)) = Some (ct ++ tag)
        /\ GCM.Open g (bytes_of_string (Iv opt)) (ct ++ tag) [] = Ok data
        /\ (forall i, (8 * List.length ct <= i < 8 * List.length (ct ++ tag))%nat ->
             GCM.Open g (bytes_of_string (Iv opt)) (flipBit (ct ++ tag) i) []
             = Err GCM.errOpen)
        /\ (GCM.hashKey g <> GCM.zeroBlock ->
            forall i, (i < 8 * List.length ct)%nat ->
              GCM.Open g (bytes_of_string (Iv opt)) (flipBit (ct ++ tag) i) []
              = Err GCM.errOpen)
        /\ (GCM.hashKey g = GCM.zeroBlock ->
            forall i, (i < 8 * List.length ct)%nat ->
              exists p, GCM.Open g (bytes_of_string (Iv opt)) (flipBit (ct ++ tag) i) []
                        = Ok p /\ p <> data)).
Proof.
  intros Hm Hk.
  split; [| split].
  - intros Hiv.
    destruct (AESFacts.NewCipher_ok _ (keyLenOK_bytes opt Hk)) as (block & Eblock & _).
    rewrite (aesEncrypt_GCM_unfold data opt block Hm Eblock). cbv zeta.
    rewrite bytes_of_string_length.
    replace (String.length (Iv opt) =? 12)%nat with false
      by (symmetry; apply Nat.eqb_neq; exact Hiv).
    reflexivity.
  - intros Hiv Hlong. exact (aesEncrypt_GCM_too_long data opt Hm Hk Hiv Hlong).
  - intros Hiv Hshort.
    destruct (AESFacts.NewCipher_ok _ (keyLenOK_bytes opt Hk))
      as (block & Eblock & Hbs & laws).
    rewrite (aesEncrypt_GCM_unfold data opt block Hm Eblock). cbv zeta.
    rewrite bytes_of_string_length.
    destruct (SealFacts.NewGCM_ok block laws Hbs) as (g & Eg & Hcg & HHg).
    assert (Hmaxg : GCM.maxPlaintext g = gcmMaxPlaintext).
    { unfold GCM.maxPlaintext, gcmMaxPlaintext. rewrite Hcg, Hbs. reflexivity. }
    rewrite Hiv. cbn [Nat.eqb negb]. rewrite Eg. cbn [bind].
    assert (Hn : List.length (bytes_of_string (Iv opt)) = GCM.gcmStandardNonceSize).
    { rewrite bytes_of_string_length. exact Hiv. }
    destruct (SealFacts.Seal_Open block laws Hbs g Hcg HHg (bytes_of_string (Iv opt)) data []
                Hn ltac:(rewrite Hmaxg; exact Hshort))
      as (ct & tag & Eseal & Hct & Htag & _ & Hopen & Hflip & Hnz & Hz).
    rewrite Eseal. cbn [orPanic bind].
    exists block, g, ct, tag.
    split; [exact Eblock |]. split; [exact Eg |].
    split; [exact (NewGCM_hashKey block g Eg) |]. split; [exact Eseal |].
    split; [exact Hct |]. split; [exact Htag |]. split; [reflexivity |].
    split; [apply base64_roundtrip |]. split; [exact Hopen |].
    split; [exact Hflip |]. split; [exact Hnz | exact Hz].
Qed.

(** ** Decryption undoes aesEncrypt *)

Lemma NewCipher_inv (key : list byte) (block : Block) :
  AES.NewCipher key = Ok block -> BlockSize block = 16%nat /\ BlockLaws block.
Proof.
  intros H.
  assert (Hdec : (List.length key = 16%nat \/ List.length key = 24%nat
                  \/ List.length key = 32%nat)
                 \/ ~ (List.length key = 16%nat \/ List.length key = 24%nat
                       \/ List.length key = 32%nat)) by lia.
  destruct Hdec as [Hok | Hbad].
  - destruct (AESFacts.NewCipher_ok key Hok) as (b' & E & Hs & Hl).
    rewrite E in H. injection H as <-. split; assumption.
  - rewrite (AESFacts.NewCipher_bad key Hbad) in H. discriminate H.
Qed.

Lemma aesDecrypt_undoes (data : list byte) (opt : EncOpt) (cipherText : string) :
  aesEncrypt data opt = Ok cipherText -> aesDecrypt cipherText opt = Ok data.
Proof.
  unfold aesEncrypt, aesDecrypt.
  destruct (AES.NewCipher (bytes_of_string (Key opt))) as [block | e |] eqn:Eblock;
    cbn [bind]; try discriminate.
  destruct (NewCipher_inv _ block Eblock) as (Hbs & laws).
  rewrite Hbs. change (Z.of_nat 16) with 16%Z.
  destruct (String.eqb (ToUpper (Mode opt)) "CBC") eqn:Ecbc.
  { destruct (List.length (bytes_of_string (Iv opt)) =? 16)%nat eqn:Eiv;
      cbn [negb]; [| discriminate].
    apply Nat.eqb_eq in Eiv.
    destruct (padded16 data) as (padded & Epad & Hmod & _ & Hunpad).
    rewrite Epad. cbn [bind].
    destruct (CryptBlocks_roundtrip block laws (bytes_of_string (Iv opt)) padded
                ltac:(rewrite Hbs; exact Eiv) ltac:(rewrite Hbs; exact Hmod))
      as (x & ct & Ex & Ect & Hct & Dct).
    rewrite Ex. cbn [orPanic bind]. rewrite Ect. cbn [orPanic bind].
    intros [= <-]. rewrite base64_roundtrip, Dct, Hunpad. reflexivity. }
  destruct (String.eqb (ToUpper (Mode opt)) "ECB") eqn:Eecb.
  { destruct (padded16 data) as (padded & Epad & Hmod & _ & Hunpad).
    rewrite Epad. cbn [bind].
    pose proof (ecbLoop_roundtrip block laws (List.length padded / 16) padded
                  (List.length padded)) as Hrt.
    rewrite Hbs in Hrt.
    assert (Hdiv : (List.length padded / 16 <= List.length padded)%nat)
      by (apply Nat.Div0.div_le_upper_bound; lia).
    destruct Hrt as (ct & Ect & Hct & Dct); [| exact Hdiv |].
    { pose proof (Nat.div_mod_eq (List.length padded) 16). lia. }
    rewrite Ect. cbn [orPanic bind].
    intros [= <-]. rewrite base64_roundtrip.
    rewrite Dct by (rewrite Hct; exact Hdiv).
    rewrite Hunpad. reflexivity. }
  destruct (String.eqb (ToUpper (Mode opt)) "GCM") eqn:Egcm; [| discriminate].
  destruct (List.length (bytes_of_string (Iv opt)) =? 12)%nat eqn:Eiv;
    cbn [negb]; [| discriminate].
  apply Nat.eqb_eq in Eiv.
  destruct (SealFacts.NewGCM_ok block laws Hbs) as (g & Eg & Hcg & HHg).
  rewrite Eg. cbn [bind].
  destruct (Z_le_gt_dec (Z.of_nat (List.length data)) (GCM.maxPlaintext g)) as [Hle | Hgt].
  - destruct (SealFacts.Seal_Open block laws Hbs g Hcg HHg (bytes_of_string (Iv opt)) data []
                Eiv Hle) as (ct & tag & Eseal & _ & _ & _ & Hopen & _).
    rewrite Eseal. cbn [orPanic bind].
    intros [= <-]. rewrite base64_roundtrip. exact Hopen.
  - rewrite (SealFacts.Seal_too_long g) by lia. discriminate.
Qed.

(** X1.  Whatever [aesEncrypt] returns, [aesDecrypt] with the same key, mode
    and IV or nonce turns back into the plaintext. *)
Theorem aesDecrypt_aesEncrypt (data : list byte) (opt : EncOpt) (cipherText : string) :
  aesEncrypt data opt = Ok cipherText -> aesDecrypt cipherText opt = Ok data.
Proof. exact (aesDecrypt_undoes data opt cipherText). Qed.

(** ** The plaintext of an encrypted push *)

Lemma mapGet_app (k : string) (x y : jobject) :
  mapGet k (x ++ y) = match mapGet k x with Some v => Some v | None => mapGet k y end.
Proof.
  induction x as [| [k' v'] x IH]; [reflexivity |].
  cbn [app mapGet]. destruct (String.eqb k' k); [reflexivity | exact IH].
Qed.

Lemma mapGet_fieldString (k name value : string) :
  mapGet k (fieldString name value) =
    if String.eqb name k && negb (String.eqb value "") then Some (JString value) else None.
Proof.
  unfold fieldString. destruct (String.eqb value ""); cbn [mapGet negb].
  - rewrite andb_false_r. reflexivity.
  - rewrite andb_true_r. destruct (String.eqb name k); reflexivity.
Qed.

Lemma mapGet_fieldStrings_other (k name : string) (value : list string) :
  String.eqb name k = false -> mapGet k (fieldStrings name value) = None.
Proof.
  intros H. destruct value; cbn [fieldStrings mapGet]; [reflexivity |].
  rewrite H. reflexivity.
Qed.

Lemma mapGet_fieldIntPtr_other (k name : string) (value : option Z) :
  String.eqb name k = false -> mapGet k (fieldIntPtr name value) = None.
Proof.
  intros H. destruct value; cbn [fieldIntPtr mapGet]; [| reflexivity].
  rewrite H. reflexivity.
Qed.

Lemma keysOf_app (x y : jobject) : keysOf (x ++ y) = keysOf x ++ keysOf y.
Proof. apply map_app. Qed.

Lemma keysOf_fieldString (name value : string) (l : list string) :
  In name l -> incl (keysOf (fieldString name value)) l.
Proof.
  intros H. unfold fieldString. destruct (String.eqb value "").
  - apply incl_nil_l.
  - intros k [<- | []]. exact H.
Qed.

Lemma keysOf_fieldIntPtr (name : string) (value : option Z) (l : list string) :
  In name l -> incl (keysOf (fieldIntPtr name value)) l.
Proof.
  intros H. destruct value.
  - intros k [<- | []]. exact H.
  - apply incl_nil_l.
Qed.

Lemma contentCopy_fields (o : Options) :
  DeviceKey (contentCopy o) = ""%string
  /\ DeviceKeys (contentCopy o) = []
  /\ Enc (contentCopy o) = None
  /\ Title (contentCopy o) = Title o
  /\ Body (contentCopy o) = Body o.
Proof. repeat split. Qed.

(** The object of a request is its routing fields followed by the object
    of its content copy. *)
Lemma jsonOfOptions_split (o : Options) :
  jsonOfOptions o =
    fieldString "device_key" (DeviceKey o) ++ fieldStrings "device_keys" (DeviceKeys o)
    ++ jsonOfOptions (contentCopy o).
Proof. reflexivity. Qed.

Lemma contentCopy_keys (o : Options) :
  incl (keysOf (jsonOfOptions (contentCopy o))) contentFields.
Proof.
  unfold jsonOfOptions. cbn [contentCopy setEnc setDeviceKeys setDeviceKey DeviceKey DeviceKeys
    Title Body Markdown Subtitle Group URL Icon Sound Badge Level Copy AutoCopy IsArchive Call
    Volume Action ID Delete fieldString fieldStrings String.eqb app].
  rewrite !keysOf_app.
  repeat (apply incl_app;
          [first [apply keysOf_fieldString | apply keysOf_fieldIntPtr];
           unfold contentFields; cbn [In]; tauto |]).
  apply keysOf_fieldString. unfold contentFields; cbn [In]; tauto.
Qed.

Lemma contentCopy_no_device_key (o : Options) :
  mapGet "device_key" (jsonOfOptions (contentCopy o)) = None
  /\ mapGet "device_keys" (jsonOfOptions (contentCopy o)) = None.
Proof.
  unfold jsonOfOptions. cbn [contentCopy setEnc setDeviceKeys setDeviceKey DeviceKey DeviceKeys
    Title Body Markdown Subtitle Group URL Icon Sound Badge Level Copy AutoCopy IsArchive Call
    Volume Action ID Delete fieldString fieldStrings String.eqb app].
  split;
    repeat (rewrite mapGet_app;
            first [rewrite mapGet_fieldString; cbn [String.eqb Ascii.eqb Bool.eqb andb]
                  | rewrite mapGet_fieldIntPtr_other by reflexivity]);
    rewrite mapGet_fieldString; reflexivity.
Qed.

Lemma contentCopy_title_body (o : Options) :
  mapGet "title" (jsonOfOptions (contentCopy o))
    = (if String.eqb (Title o) "" then None else Some (JString (Title o)))
  /\ mapGet "body" (jsonOfOptions (contentCopy o))
    = (if String.eqb (Body o) "" then None else Some (JString (Body o))).
Proof.
  unfold jsonOfOptions. cbn [contentCopy setEnc setDeviceKeys setDeviceKey DeviceKey DeviceKeys
    Title Body Markdown Subtitle Group URL Icon Sound Badge Level Copy AutoCopy IsArchive Call
    Volume Action ID Delete fieldString fieldStrings String.eqb app].
  split.
  - rewrite mapGet_app, mapGet_fieldString. cbn [String.eqb Ascii.eqb Bool.eqb andb].
    destruct (String.eqb (Title o) ""); cbn [negb]; [| reflexivity].
    repeat (rewrite mapGet_app;
            first [rewrite mapGet_fieldString; cbn [String.eqb Ascii.eqb Bool.eqb andb]
                  | rewrite mapGet_fieldIntPtr_other by reflexivity]).
    rewrite mapGet_fieldString. reflexivity.
  - rewrite mapGet_app, mapGet_fieldString. cbn [String.eqb Ascii.eqb Bool.eqb andb].
    rewrite mapGet_app, mapGet_fieldString. cbn [String.eqb Ascii.eqb Bool.eqb andb].
    destruct (String.eqb (Body o) ""); cbn [negb]; [| reflexivity].
    repeat (rewrite mapGet_app;
            first [rewrite mapGet_fieldString; cbn [String.eqb Ascii.eqb Bool.eqb andb]
                  | rewrite mapGet_fieldIntPtr_other by reflexivity]).
    rewrite mapGet_fieldString. reflexivity.
Qed.

Section Plaintext.

Variable quoteString : string -> list byte.

(** Changing the routing keys or the encryption spec of a request does not
    change the bytes handed to the cipher. *)
Lemma plainBytes_routing_independent (o : Options) (k : string) (ks : list string)
    (e : option EncOpt) :
  plainBytes quoteString (setEnc (setDeviceKeys (setDeviceKey o k) ks) e)
  = plainBytes quoteString o.
Proof. reflexivity. Qed.

(** The envelope of a payload holds the ciphertext under ["ciphertext"]. *)
Lemma routingEnvelope_ciphertext (k : string) (ks : list string) (c : string) (env : gomap) :
  routingEnvelope k ks c = Ok env ->
  mapGet "ciphertext" env = Some (JString c)
  /\ mapGet "ciphertext" (jsonOfMap env) = Some (JString c).
Proof.
  destruct ks as [| k0 ks'].
  - rewrite routingEnvelope_nokeys. intros [= <-]. split; reflexivity.
  - rewrite routingEnvelope_keys by discriminate.
    destruct (String.eqb k ""); [discriminate |].
    intros [= <-]. split; reflexivity.
Qed.

(** C3.  With encryption enabled, the bytes [preparePayload] hands to the
    cipher are the JSON of a copy of the request with [device_key],
    [device_keys] and [Enc] cleared.  That JSON has no [device_key] and no
    [device_keys] field, and no field at all besides the content fields
    ([Enc] is never written); it is the JSON of the request without its
    routing fields, so [title] and [body] are there when set.  The bytes
    are the same for two requests that differ only in their routing keys,
    and decrypting the ciphertext of the payload gives these bytes
    back. *)
Theorem plaintext_has_no_routing_keys (o : Options) (enc : EncOpt) :
  Enc o = Some enc ->
  preparePayload quoteString o =
    (cipherText <- aesEncrypt (plainBytes quoteString o) enc ;;
     encryptedPayload <- routingEnvelope (DeviceKey o) (DeviceKeys o) cipherText ;;
     Ok (encode quoteString (jsonOfMap encryptedPayload)))
  /\ plainBytes quoteString o = encode quoteString (jsonOfOptions (contentCopy o))
  /\ DeviceKey (contentCopy o) = ""%string
  /\ DeviceKeys (contentCopy o) = []
  /\ Enc (contentCopy o) = None
  /\ mapGet "device_key" (jsonOfOptions (contentCopy o)) = None
  /\ mapGet "device_keys" (jsonOfOptions (contentCopy o)) = None
  /\ incl (keysOf (jsonOfOptions (contentCopy o))) contentFields
  /\ jsonOfOptions o =
       fieldString "device_key" (DeviceKey o) ++ fieldStrings "device_keys" (DeviceKeys o)
       ++ jsonOfOptions (contentCopy o)
  /\ mapGet "title" (jsonOfOptions (contentCopy o))
       = (if String.eqb (Title o) "" then None else Some (JString (Title o)))
  /\ mapGet "body" (jsonOfOptions (contentCopy o))
       = (if String.eqb (Body o) "" then None else Some (JString (Body o)))
  /\ (forall (k : string) (ks : list string),
        plainBytes quoteString (setDeviceKeys (setDeviceKey o k) ks)
        = plainBytes quoteString o)
  /\ (forall payload, preparePayload quoteString o = Ok payload ->
        exists (cipherText : string) (encryptedPayload : gomap),
          aesEncrypt (plainBytes quoteString o) enc = Ok cipherText
          /\ payload = encode quoteString (jsonOfMap encryptedPayload)
          /\ mapGet "ciphertext" (jsonOfMap encryptedPayload) = Some (JString cipherText)
          /\ aesDecrypt cipherText enc = Ok (plainBytes quoteString o)).
Proof.
  intros He.
  assert (Hsteps := preparePayload_steps quoteString o). rewrite He in Hsteps.
  split; [exact Hsteps |].
  split; [reflexivity |].
  split; [reflexivity |]. split; [reflexivity |]. split; [reflexivity |].
  split; [apply contentCopy_no_device_key |].
  split; [apply contentCopy_no_device_key |].
  split; [apply contentCopy_keys |].
  split; [apply jsonOfOptions_split |].
  split; [apply contentCopy_title_body |].
  split; [apply contentCopy_title_body |].
  split; [intros k ks; reflexivity |].
  intros payload Hp. rewrite Hsteps in Hp.
  destruct (aesEncrypt (plainBytes quoteString o) enc) as [c | e |] eqn:Ec;
    cbn [bind] in Hp; try discriminate Hp.
  destruct (routingEnvelope (DeviceKey o) (DeviceKeys o) c) as [env | e |] eqn:Eenv;
    cbn [bind] in Hp; try discriminate Hp.
  injection Hp as <-.
  exists c, env. split; [reflexivity |]. split; [reflexivity |].
  split; [apply (routingEnvelope_ciphertext _ _ _ _ Eenv) |].
  apply aesDecrypt_undoes. exact Ec.
Qed.

End Plaintext.

Lemma plaintext_has_no_routing_keys_witness :
  Enc scenarioB = Some cbcExample
  /\ mapGet "device_key" (jsonOfOptions (contentCopy scenarioB)) = None
  /\ mapGet "title" (jsonOfOptions (contentCopy scenarioB)) = Some (JString "T")
  /\ mapGet "body" (jsonOfOptions (contentCopy scenarioB)) = Some (JString "B")
  /\ plainBytes quotePlain (setDeviceKeys (setDeviceKey scenarioB "x") ["y"; "z"])
     = plainBytes quotePlain scenarioB.
Proof.
  assert (He : Enc scenarioB = Some cbcExample) by reflexivity.
  split; [exact He |].
  destruct (plaintext_has_no_routing_keys quotePlain scenarioB cbcExample He)
    as (_ & _ & _ & _ & _ & H1 & _ & _ & _ & H2 & H3 & H4 & _).
  split; [exact H1 |]. split; [exact H2 |]. split; [exact H3 |]. apply H4.
Defined.

(** ** The caller's request is left as it was *)

Module MemFacts.

Local Notation "x <== m ;; k" := (Mem.bindM m (fun x => k))
  (at level 61, m at next level, right associativity).

Lemma loadStrings_inv (a : Mem.loc) (h h' : Mem.heap) (l : list string) :
  Mem.loadStrings a h = (Ok l, h') -> h' = h /\ nth_error h a = Some (Mem.CStrings l).
Proof.
  unfold Mem.loadStrings. destruct (nth_error h a) as [[s | e | l'] |]; intros [=]; subst; auto.
Qed.

Lemma loadEncOpt_inv (p : Mem.loc) (h h' : Mem.heap) (e : EncOpt) :
  Mem.loadEncOpt p h = (Ok e, h') -> h' = h /\ nth_error h p = Some (Mem.CEncOpt e).
Proof.
  unfold Mem.loadEncOpt. destruct (nth_error h p) as [[s | e' | l'] |]; intros [=]; subst; auto.
Qed.

Lemma nth_error_ext {A : Type} (h fresh : list A) (l : nat) (c : A) :
  nth_error h l = Some c -> nth_error (h ++ fresh) l = Some c.
Proof.
  intros H. rewrite nth_error_app1; [exact H |].
  apply nth_error_Some. rewrite H. discriminate.
Qed.

Lemma loadStrings_at (a : Mem.loc) (h : Mem.heap) (l : list string) :
  nth_error h a = Some (Mem.CStrings l) -> Mem.loadStrings a h = (Ok l, h).
Proof. intros H. unfold Mem.loadStrings. rewrite H. reflexivity. Qed.

Lemma loadEncOpt_at (p : Mem.loc) (h : Mem.heap) (e : EncOpt) :
  nth_error h p = Some (Mem.CEncOpt e) -> Mem.loadEncOpt p h = (Ok e, h).
Proof. intros H. unfold Mem.loadEncOpt. rewrite H. reflexivity. Qed.

Lemma loadOptions_at (o : Mem.loc) (h : Mem.heap) (s : Mem.OptionsStruct) :
  nth_error h o = Some (Mem.COptions s) -> Mem.loadOptions o h = (Ok s, h).
Proof. intros H. unfold Mem.loadOptions. rewrite H. reflexivity. Qed.

(** What a successful read of a Mem.slice says about the store. *)
Definition sliceHolds (h : Mem.heap) (s : Mem.slice) (keys : list string) : Prop :=
  match Mem.array s with
  | None => Mem.len s = 0%nat /\ keys = []
  | Some a =>
      exists arr, nth_error h a = Some (Mem.CStrings arr)
                  /\ (Mem.offset s + Mem.len s <= List.length arr)%nat
                  /\ keys = firstn (Mem.len s) (skipn (Mem.offset s) arr)
  end.

Lemma readSlice_inv (s : Mem.slice) (h h' : Mem.heap) (keys : list string) :
  Mem.readSlice s h = (Ok keys, h') -> h' = h /\ sliceHolds h s keys.
Proof.
  unfold Mem.readSlice, sliceHolds. destruct (Mem.array s) as [a |].
  - unfold Mem.bindM. destruct (Mem.loadStrings a h) as [[arr | e |] h1] eqn:E; try discriminate.
    apply loadStrings_inv in E as [-> Ha].
    destruct (List.length arr <? Mem.offset s + Mem.len s)%nat eqn:El; [discriminate |].
    apply Nat.ltb_ge in El. intros [=]; subst. split; [reflexivity |].
    exists arr. auto.
  - destruct (Mem.len s =? 0)%nat eqn:El; [| discriminate].
    apply Nat.eqb_eq in El. intros [=]; subst. auto.
Qed.

Lemma readSlice_holds (s : Mem.slice) (h : Mem.heap) (keys : list string) :
  sliceHolds h s keys -> Mem.readSlice s h = (Ok keys, h).
Proof.
  unfold Mem.readSlice, sliceHolds. destruct (Mem.array s) as [a |].
  - intros (arr & Ha & Hl & ->). unfold Mem.bindM. rewrite (loadStrings_at a h arr Ha).
    replace (List.length arr <? Mem.offset s + Mem.len s)%nat with false
      by (symmetry; apply Nat.ltb_ge; exact Hl).
    reflexivity.
  - intros [-> ->]. reflexivity.
Qed.

Lemma sliceHolds_ext (h fresh : Mem.heap) (s : Mem.slice) (keys : list string) :
  sliceHolds h s keys -> sliceHolds (h ++ fresh) s keys.
Proof.
  unfold sliceHolds. destruct (Mem.array s) as [a |]; [| auto].
  intros (arr & Ha & Hl & ->). exists arr. split; [| auto].
  apply nth_error_ext. exact Ha.
Qed.

Lemma sliceHolds_length (h : Mem.heap) (s : Mem.slice) (keys : list string) :
  sliceHolds h s keys -> List.length keys = Mem.len s.
Proof.
  unfold sliceHolds. destruct (Mem.array s) as [a |].
  - intros (arr & Ha & Hl & ->). rewrite length_firstn, length_skipn. lia.
  - intros [-> ->]. reflexivity.
Qed.

(** What [Mem.represents] says, piece by piece. *)
Lemma represents_inv (h : Mem.heap) (o : Mem.loc) (v : Options) :
  Mem.represents h o v ->
  exists s keys,
    nth_error h o = Some (Mem.COptions s)
    /\ sliceHolds h (DeviceKeys s) keys
    /\ match Enc s with
       | None => Enc v = None
       | Some p => exists e, nth_error h p = Some (Mem.CEncOpt e) /\ Enc v = Some e
       end
    /\ v = setEnc (setDeviceKeys s keys) (Enc v).
Proof.
  intros (s & Hs & Hv). exists s.
  unfold Mem.view, Mem.bindM in Hv.
  destruct (Mem.readSlice (DeviceKeys s) h) as [[keys | e |] h1] eqn:Ek; try discriminate Hv.
  apply readSlice_inv in Ek as [-> Hk]. exists keys.
  split; [exact Hs |]. split; [exact Hk |].
  destruct (Enc s) as [p |].
  - destruct (Mem.loadEncOpt p h) as [[e | e |] h1] eqn:Ee; try discriminate Hv.
    apply loadEncOpt_inv in Ee as [-> Hp].
    cbn [Mem.ret fst] in Hv. injection Hv as <-. split; [| reflexivity].
    exists e. split; [exact Hp | reflexivity].
  - cbn [Mem.ret fst] in Hv. injection Hv as <-. split; reflexivity.
Qed.

Lemma represents_ext (h fresh : Mem.heap) (o : Mem.loc) (v : Options) :
  Mem.represents h o v -> Mem.represents (h ++ fresh) o v.
Proof.
  intros Hr. destruct (represents_inv h o v Hr) as (s & keys & Hs & Hk & He & Hv).
  exists s. split; [apply nth_error_ext; exact Hs |].
  unfold Mem.view, Mem.bindM.
  rewrite (readSlice_holds _ _ _ (sliceHolds_ext h fresh _ _ Hk)).
  destruct (Enc s) as [p |].
  - destruct He as (e & Hp & Hev).
    rewrite (loadEncOpt_at p _ e (nth_error_ext h fresh p _ Hp)).
    cbn [Mem.ret fst]. rewrite Hv, Hev. reflexivity.
  - cbn [Mem.ret fst]. rewrite Hv, He. reflexivity.
Qed.

Lemma loadStrings_fresh (h : Mem.heap) (l : list string) :
  Mem.loadStrings (List.length h) (h ++ [Mem.CStrings l]) = (Ok l, h ++ [Mem.CStrings l]).
Proof.
  apply loadStrings_at. rewrite nth_error_app2, Nat.sub_diag by lia. reflexivity.
Qed.

Lemma storeStrings_fresh (h : Mem.heap) (l l' : list string) :
  Mem.storeStrings (List.length h) l' (h ++ [Mem.CStrings l]) = (Ok tt, h ++ [Mem.CStrings l']).
Proof.
  unfold Mem.storeStrings. rewrite nth_error_app2, Nat.sub_diag by lia. cbn [nth_error].
  rewrite firstn_app, firstn_all, Nat.sub_diag. cbn [firstn]. rewrite app_nil_r.
  rewrite skipn_all2 by (rewrite length_app; simpl; lia).
  reflexivity.
Qed.

Section Frame.

Variable quoteString : string -> list byte.

(** [Validate] returns what it returns on the request by value, and
    leaves the store as it was. *)
Lemma Validate_frame (h : Mem.heap) (o : Mem.loc) (v : Options) :
  Mem.represents h o v -> Mem.Validate o h = (Ok (Validate v), h).
Proof.
  intros Hr. destruct (represents_inv h o v Hr) as (s & keys & Hs & Hk & He & Hv).
  unfold Mem.Validate, Mem.bindM. rewrite (loadOptions_at o h s Hs).
  unfold Validate. rewrite Hv.
  cbn [setEnc setDeviceKeys DeviceKey DeviceKeys Title Body Markdown Enc].
  rewrite (sliceHolds_length h _ keys Hk).
  destruct ((String.length (DeviceKey s) =? 0)%nat && (Mem.len (DeviceKeys s) =? 0)%nat);
    [reflexivity |].
  destruct (String.eqb (Title s) "" && String.eqb (Body s) "" && String.eqb (Markdown s) "");
    [reflexivity |].
  destruct (Enc s) as [p |].
  - destruct He as (e & Hp & ->). rewrite (loadEncOpt_at p h e Hp). reflexivity.
  - rewrite He. reflexivity.
Qed.

Lemma Marshal_holds (h : Mem.heap) (s : Mem.OptionsStruct) (keys : list string) :
  sliceHolds h (DeviceKeys s) keys ->
  Mem.Marshal quoteString s h
  = (Ok (encode quoteString (jsonOfOptions (setEnc (setDeviceKeys s keys) (@None EncOpt)))), h).
Proof.
  intros Hk. unfold Mem.Marshal, Mem.bindM. rewrite (readSlice_holds _ _ _ Hk). reflexivity.
Qed.

Lemma bindM_ok {A B : Type} (m : Mem.M A) (k : A -> Mem.M B) (h h' : Mem.heap) (a : A) :
  m h = (Ok a, h') -> Mem.bindM m k h = k a h'.
Proof. intros H. unfold Mem.bindM. rewrite H. reflexivity. Qed.

(** The routing step on the store: what it returns, and the Mem.array it
    adds to the store. *)
Lemma routing_frame (h : Mem.heap) (deviceKey : string) (keysSlice : Mem.slice)
    (keys : list string) (c : string) :
  sliceHolds h keysSlice keys ->
  let encryptedPayload := mapSet "ciphertext" (JString c) [] in
  exists fresh,
    (if (0 <? Mem.len keysSlice)%nat then
       finalRoutingKeys <== Mem.make 0 (Mem.len keysSlice + 1) ;;
       _ <== Mem.copy finalRoutingKeys keysSlice ;;
       finalRoutingKeys <==
         (if String.eqb deviceKey "" then Mem.ret finalRoutingKeys
          else
            has <== Mem.Contains finalRoutingKeys deviceKey ;;
            if has then Mem.ret finalRoutingKeys
            else Mem.append finalRoutingKeys deviceKey) ;;
       if (1 <? Mem.len finalRoutingKeys)%nat then
         keys <== Mem.readSlice finalRoutingKeys ;;
         Mem.ret (encode quoteString
                (jsonOfMap (mapSet "device_keys" (JStrings keys) encryptedPayload)))
       else if (Mem.len finalRoutingKeys =? 1)%nat then
         keys <== Mem.readSlice finalRoutingKeys ;;
         Mem.ret (encode quoteString
                (jsonOfMap (mapSet "device_key" (JString (nth 0 keys ""%string))
                                   encryptedPayload)))
       else Mem.failM errMissingRoutingKey
     else
       Mem.ret (encode quoteString
              (jsonOfMap (mapSet "device_key" (JString deviceKey) encryptedPayload)))) h
    = ((encryptedPayload <- routingEnvelope deviceKey keys c ;;
        Ok (encode quoteString (jsonOfMap encryptedPayload))),
       h ++ fresh).
Proof.
  intros Hk encryptedPayload.
  pose proof (sliceHolds_length h keysSlice keys Hk) as Hlen.
  destruct (0 <? Mem.len keysSlice)%nat eqn:E0.
  - apply Nat.ltb_lt in E0.
    assert (Hne : keys <> []) by (intros ->; simpl in Hlen; lia).
    rewrite (routingEnvelope_keys deviceKey keys c Hne).
    set (arr0 := repeat ""%string (Mem.len keysSlice + 1)).
    set (final := Mem.mkSlice (Some (List.length h)) 0 0 (Mem.len keysSlice + 1)).
    assert (Hmake : Mem.make 0 (Mem.len keysSlice + 1) h = (Ok final, h ++ [Mem.CStrings arr0])).
    { reflexivity. }
    rewrite (bindM_ok _ _ _ _ _ Hmake).
    assert (Hcopy : Mem.copy final keysSlice (h ++ [Mem.CStrings arr0])
                    = (Ok 0%nat, h ++ [Mem.CStrings arr0])).
    { unfold Mem.copy.
      rewrite (bindM_ok _ _ _ _ _
                 (readSlice_holds _ _ _ (sliceHolds_ext h [Mem.CStrings arr0] _ _ Hk))).
      reflexivity. }
    rewrite (bindM_ok _ _ _ _ _ Hcopy).
    destruct (String.eqb deviceKey "") eqn:Ek.
    + exists [Mem.CStrings arr0]. reflexivity.
    + assert (Hread0 : Mem.readSlice final (h ++ [Mem.CStrings arr0]) = (Ok [], h ++ [Mem.CStrings arr0])).
      { apply readSlice_holds. unfold sliceHolds. cbn [final Mem.array Mem.offset Mem.len].
        exists arr0. split; [| split; [simpl; lia | reflexivity]].
        rewrite nth_error_app2, Nat.sub_diag by lia. reflexivity. }
      assert (Harr0 : exists rest, arr0 = ""%string :: rest
                                   /\ List.length rest = Mem.len keysSlice).
      { unfold arr0. rewrite Nat.add_comm. cbn [repeat Nat.add].
        eexists. split; [reflexivity | apply repeat_length]. }
      destruct Harr0 as (rest & Harr0 & Hrest).
      set (arr1 := deviceKey :: rest).
      set (final1 := Mem.mkSlice (Some (List.length h)) 0 1 (Mem.len keysSlice + 1)).
      assert (Happend : Mem.append final deviceKey (h ++ [Mem.CStrings arr0])
                        = (Ok final1, h ++ [Mem.CStrings arr1])).
      { unfold Mem.append. cbn [final Mem.len Mem.cap Mem.array Mem.offset].
        replace (0 <? Mem.len keysSlice + 1)%nat with true by (symmetry; apply Nat.ltb_lt; lia).
        assert (Hw : Mem.writeSlice (Mem.mkSlice (Some (List.length h)) 0 0 (Mem.len keysSlice + 1)) 0
                       deviceKey (h ++ [Mem.CStrings arr0]) = (Ok tt, h ++ [Mem.CStrings arr1])).
        { unfold Mem.writeSlice. cbn [Mem.array Mem.offset Nat.add].
          rewrite (bindM_ok _ _ _ _ _ (loadStrings_fresh h arr0)).
          replace (0 <? List.length arr0)%nat with true
            by (symmetry; apply Nat.ltb_lt; rewrite Harr0; simpl; lia).
          rewrite storeStrings_fresh. rewrite Harr0. reflexivity. }
        rewrite (bindM_ok _ _ _ _ _ Hw). reflexivity. }
      assert (Hread1 : Mem.readSlice final1 (h ++ [Mem.CStrings arr1])
                       = (Ok [deviceKey], h ++ [Mem.CStrings arr1])).
      { apply readSlice_holds. unfold sliceHolds. cbn [final1 Mem.array Mem.offset Mem.len].
        exists arr1. split; [| split; [simpl; lia | reflexivity]].
        rewrite nth_error_app2, Nat.sub_diag by lia. reflexivity. }
      assert (Hstep : (has <== Mem.Contains final deviceKey ;;
                       if has then Mem.ret final else Mem.append final deviceKey)
                        (h ++ [Mem.CStrings arr0])
                      = (Ok final1, h ++ [Mem.CStrings arr1])).
      { assert (Hc : Mem.Contains final deviceKey (h ++ [Mem.CStrings arr0])
                     = (Ok false, h ++ [Mem.CStrings arr0])).
        { unfold Mem.Contains. rewrite (bindM_ok _ _ _ _ _ Hread0). reflexivity. }
        rewrite (bindM_ok _ _ _ _ _ Hc). exact Happend. }
      exists [Mem.CStrings arr1].
      rewrite (bindM_ok _ _ _ _ _ Hstep).
      cbn [final1 Mem.len Nat.ltb Nat.leb Nat.eqb]. fold final1.
      rewrite (bindM_ok _ _ _ _ _ Hread1). reflexivity.
  - apply Nat.ltb_ge in E0.
    assert (keys = []) as -> by (destruct keys; [reflexivity | simpl in Hlen; lia]).
    rewrite routingEnvelope_nokeys. exists []. rewrite app_nil_r. reflexivity.
Qed.

(** [preparePayload] returns what it returns on the request by value; the
    store it leaves is the store it found, followed by what the call
    allocated. *)
Lemma preparePayload_frame (h : Mem.heap) (o : Mem.loc) (v : Options) :
  Mem.represents h o v ->
  exists fresh,
    Mem.preparePayload quoteString o h
    = (preparePayload quoteString v, h ++ fresh).
Proof.
  intros Hr. destruct (represents_inv h o v Hr) as (s & keys & Hs & Hk & He & Hv).
  unfold Mem.preparePayload. rewrite (bindM_ok _ _ _ _ _ (loadOptions_at o h s Hs)).
  rewrite preparePayload_steps.
  destruct (Enc s) as [p |].
  - destruct He as (e & Hp & Hev). rewrite Hev. cbv zeta.
    assert (Hnil : sliceHolds h
                     (DeviceKeys (setEnc (setDeviceKeys (setDeviceKey s "") Mem.nilSlice)
                                         (@None Mem.loc))) [])
      by (split; reflexivity).
    rewrite (bindM_ok _ _ _ _ _ (Marshal_holds h _ [] Hnil)).
    rewrite (bindM_ok _ _ _ _ _ (loadEncOpt_at p h e Hp)).
    assert (Hplain : encode quoteString
                       (jsonOfOptions
                          (setEnc (setDeviceKeys
                             (setEnc (setDeviceKeys (setDeviceKey s "") Mem.nilSlice) (@None Mem.loc))
                             []) (@None EncOpt)))
                     = plainBytes quoteString v).
    { rewrite Hv. reflexivity. }
    rewrite Hplain.
    destruct (aesEncrypt (plainBytes quoteString v) e) as [c | err |] eqn:Ec.
    + assert (Hl : Mem.liftM (Ok c) h = (Ok c, h)) by reflexivity.
      rewrite (bindM_ok _ _ _ _ _ Hl). cbn [bind].
      destruct (routing_frame h (DeviceKey s) (DeviceKeys s) keys c Hk) as (fresh & Hfresh).
      cbv zeta in Hfresh. exists fresh. rewrite Hfresh.
      rewrite Hv. reflexivity.
    + exists []. rewrite app_nil_r. reflexivity.
    + exists []. rewrite app_nil_r. reflexivity.
  - rewrite He. rewrite (Marshal_holds h s keys Hk).
    exists []. rewrite app_nil_r.
    assert (Hv' : v = setEnc (setDeviceKeys s keys) (@None EncOpt))
      by (rewrite Hv, He; reflexivity).
    rewrite <- Hv'. reflexivity.
Qed.

(** C10.  Neither call changes the caller's request.  On a store that
    holds the request [v] at [o], [Validate] and [preparePayload] return
    what they return on [v] by value; [Validate] leaves the store as it
    was, and [preparePayload] leaves it as it was but for the cells the
    call itself allocated: every cell that was there holds what it held,
    and the struct at [o], its keys and its [EncOpt] still stand for
    [v], whether the call returned a payload or an error. *)
Theorem request_not_mutated (h : Mem.heap) (o : Mem.loc) (v : Options) :
  Mem.represents h o v ->
  Mem.Validate o h = (Ok (Validate v), h)
  /\ exists h',
       Mem.preparePayload quoteString o h = (preparePayload quoteString v, h')
       /\ (forall l c, nth_error h l = Some c -> nth_error h' l = Some c)
       /\ Mem.represents h' o v.
Proof.
  intros Hr. split; [apply Validate_frame; exact Hr |].
  destruct (preparePayload_frame h o v Hr) as (fresh & Hp).
  exists (h ++ fresh). split; [exact Hp |]. split.
  - intros l c Hl. apply nth_error_ext. exact Hl.
  - apply represents_ext. exact Hr.
Qed.

End Frame.

End MemFacts.

Lemma request_not_mutated_witness :
  Mem.represents keysOnlyStore 0 keysOnly
  /\ Mem.Validate 0 keysOnlyStore = (Ok (Validate keysOnly), keysOnlyStore)
  /\ exists h',
       Mem.preparePayload quotePlain 0 keysOnlyStore = (preparePayload quotePlain keysOnly, h')
       /\ Mem.represents h' 0 keysOnly.
Proof.
  assert (Hr : Mem.represents keysOnlyStore 0 keysOnly).
  { eexists. split; reflexivity. }
  split; [exact Hr |].
  destruct (MemFacts.request_not_mutated quotePlain keysOnlyStore 0 keysOnly Hr)
    as (Hv & h' & Hp & _ & Hr').
  split; [exact Hv |]. exists h'. split; assumption.
Defined.

(** ** Test vectors *)

(** FIPS 197, Appendix C: AES-128, AES-192 and AES-256. *)
Example aes128_vector :
  encryptVector "000102030405060708090a0b0c0d0e0f" "00112233445566778899aabbccddeeff"
  = Some (unhex "69c4e0d86a7b0430d8cdb78070b4c55a").
Proof. vm_compute. reflexivity. Qed.

Example aes192_vector :
  encryptVector "000102030405060708090a0b0c0d0e0f1011121314151617"
                "00112233445566778899aabbccddeeff"
  = Some (unhex "dda97ca4864cdfe06eaf70a0ec0d7191").
Proof. vm_compute. reflexivity. Qed.

Example aes256_vector :
  encryptVector "000102030405060708090a0b0c0d0e0f101112131415161718191a1b1c1d1e1f"
                "00112233445566778899aabbccddeeff"
  = Some (unhex "8ea2b7ca516745bfeafc49904b496089").
Proof. vm_compute. reflexivity. Qed.

(** FIPS 197, Appendix B. *)
Example aes128_vector_B :
  encryptVector "2b7e151628aed2a6abf7158809cf4f3c" "3243f6a8885a308d313198a2e0370734"
  = Some (unhex "3925841d02dc09fbdc118597196a0b32").
Proof. vm_compute. reflexivity. Qed.

(** The GCM specification, test cases 1 to 3. *)
Example gcm_vector_1 :
  sealVector "00000000000000000000000000000000" "000000000000000000000000" ""
  = Some (unhex "58e2fccefa7e3061367f1d57a4e7455a").
Proof. vm_compute. reflexivity. Qed.

Example gcm_vector_2 :
  sealVector "00000000000000000000000000000000" "000000000000000000000000"
             "00000000000000000000000000000000"
  = Some (unhex "0388dace60b6a392f328c2b971b2fe78ab6e47d42cec13bdf53a67b21257bddf").
Proof. vm_compute. reflexivity. Qed.

Example gcm_vector_3 :
  sealVector "feffe9928665731c6d6a8f9467308308" "cafebabefacedbaddecaf888"
    "d9313225f88406e5a55909c5aff5269a86a7a9531534f7da2e4c303d8a318a721c3c0c95956809532fcf0e2449a6b525b16aedf5aa0de657ba637b391aafd255"
  = Some (unhex
      "42831ec2217774244b7221b784d0d49ce3aa212f2c02a4e035c17e2329aca12e21d514b25466931c7d8f6a5aac84aa051ba30b396a0aac973d58e091473f59854d5c2af327cd64a62cf35abd2ba6fab4").
Proof. vm_compute. reflexivity. Qed.

(** RFC 4648, section 10. *)
Example base64_vectors :
  EncodeToString (bytes_of_string "f") = "Zg=="%string
  /\ EncodeToString (bytes_of_string "fo") = "Zm8="%string
  /\ EncodeToString (bytes_of_string "foo") = "Zm9v"%string
  /\ EncodeToString (bytes_of_string "foobar") = "Zm9vYmFy"%string.
Proof. vm_compute. repeat split. Qed.

(** The three modes on the content of scenario B. *)
Example aesEncrypt_samples :
  aesEncrypt (plainBytes quotePlain scenarioB) cbcExample
    = Ok "3//lM01VF8SfDBGKHwrUIdyZcGYJ/EffZUMcJLRUGRw="%string
  /\ aesEncrypt (plainBytes quotePlain scenarioB) ecbExample
    = Ok "8a9XmNz43e4Nn4GVehzS44O8W9TjC29rBCjFfmu7o/4="%string
  /\ aesEncrypt (plainBytes quotePlain scenarioB) gcmExample
    = Ok "0JPASRv8mMK6iWX6Ob3xQtlqPPtS4oj9Yvo7fdH3w4JvO8/xsCRDmA=="%string.
Proof. vm_compute. repeat split. Qed.

Lemma aesEncrypt_GCM_seal_witness :
  ToUpper (Mode gcmExample) = "GCM"%string
  /\ keyLenOK gcmExample
  /\ exists (g : GCM.gcm) (ct tag : list byte),
       aesEncrypt (bytes_of_string "{}") gcmExample = Ok (EncodeToString (ct ++ tag))
       /\ List.length ct = 2%nat
       /\ GCM.hashKey g <> GCM.zeroBlock
       /\ GCM.Open g (bytes_of_string (Iv gcmExample)) (ct ++ tag) [] = Ok (bytes_of_string "{}")
       /\ GCM.Open g (bytes_of_string (Iv gcmExample)) (flipBit (ct ++ tag) 16) []
          = Err GCM.errOpen
       /\ GCM.Open g (bytes_of_string (Iv gcmExample)) (flipBit (ct ++ tag) 3) []
          = Err GCM.errOpen.
Proof.
  assert (Hm : ToUpper (Mode gcmExample) = "GCM"%string) by reflexivity.
  assert (Hk : keyLenOK gcmExample) by (left; reflexivity).
  split; [exact Hm |]. split; [exact Hk |].
  destruct (aesEncrypt_GCM_seal (bytes_of_string "{}") gcmExample Hm Hk) as (_ & _ & H).
  destruct (H eq_refl ltac:(vm_compute; discriminate))
    as (block & g & ct & tag & Eb & _ & EH & _ & Hct & Htag & He & _ & Ho & Hf & Hnz & _).
  assert (HH : GCM.hashKey g <> GCM.zeroBlock).
  { assert (E : AES.NewCipher (bytes_of_string (Key gcmExample))
                = Ok (mkBlock AES.blockBytes
                        (AES.encryptBlock (AES.KeyExpansion (bytes_of_string (Key gcmExample))))
                        (AES.decryptBlock (AES.KeyExpansion (bytes_of_string (Key gcmExample))))))
      by reflexivity.
    rewrite E in Eb. injection Eb as <-. cbn [Encrypt] in EH.
    intros Z. rewrite Z in EH. vm_compute in EH. discriminate EH. }
  exists g, ct, tag.
  split; [exact He |]. split; [exact Hct |]. split; [exact HH |]. split; [exact Ho |].
  split.
  - apply Hf. rewrite length_app, Hct, Htag. simpl. lia.
  - apply (Hnz HH). rewrite Hct. simpl. lia.
Defined.

(** A plaintext one byte above the limit of GCM: [aesEncrypt] returns
    neither a ciphertext nor an error, the library panics. *)
Lemma aesEncrypt_GCM_oversize : aesEncrypt tooLong gcmExample = Panic.
Proof.
  apply aesEncrypt_GCM_too_long; [reflexivity | left; reflexivity | reflexivity |].
  unfold tooLong. rewrite repeat_length, Z2Nat.id; [lia |].
  unfold gcmMaxPlaintext. lia.
Qed.

Lemma aesDecrypt_aesEncrypt_witness :
  aesEncrypt (plainBytes quotePlain scenarioB) gcmExample
    = Ok "0JPASRv8mMK6iWX6Ob3xQtlqPPtS4oj9Yvo7fdH3w4JvO8/xsCRDmA=="%string
  /\ aesDecrypt "0JPASRv8mMK6iWX6Ob3xQtlqPPtS4oj9Yvo7fdH3w4JvO8/xsCRDmA==" gcmExample
     = Ok (plainBytes quotePlain scenarioB).
Proof.
  assert (He : aesEncrypt (plainBytes quotePlain scenarioB) gcmExample
               = Ok "0JPASRv8mMK6iWX6Ob3xQtlqPPtS4oj9Yvo7fdH3w4JvO8/xsCRDmA=="%string)
    by (vm_compute; reflexivity).
  split; [exact He |].
  exact (aesDecrypt_aesEncrypt _ _ _ He).
Defined.

(* ================================================================== *)
(** * Properties of the rest of the package *)

(** ** strings.HasPrefix, HasSuffix, TrimSuffix *)

Lemma string_length_append (s t : string) :
  String.length (s ++ t) = (String.length s + String.length t)%nat.
Proof. induction s as [| a s IH]; [reflexivity |]. simpl. rewrite IH. reflexivity. Qed.

Lemma substring_all (s : string) : substring 0 (String.length s) s = s.
Proof. induction s as [| a s IH]; [reflexivity |]. simpl. rewrite IH. reflexivity. Qed.

Lemma substring_prefix (s t : string) : substring 0 (String.length s) (s ++ t) = s.
Proof.
  induction s as [| a s IH]; [destruct t; reflexivity |]. simpl. rewrite IH. reflexivity.
Qed.

Lemma string_append_assoc (s t u : string) : ((s ++ t) ++ u = s ++ (t ++ u))%string.
Proof. induction s as [| a s IH]; [reflexivity |]. simpl. rewrite IH. reflexivity. Qed.

Lemma string_append_nil_r (s : string) : (s ++ "" = s)%string.
Proof. induction s as [| a s IH]; [reflexivity |]. simpl. rewrite IH. reflexivity. Qed.

Lemma HasPrefix_append (p s : string) : HasPrefix (p ++ s) p = true.
Proof.
  unfold HasPrefix. rewrite string_length_append, substring_prefix, String.eqb_refl.
  rewrite andb_true_r. apply Nat.leb_le. lia.
Qed.

Lemma HasSuffix_cons (a : ascii) (s x : string) :
  (String.length x <= String.length s)%nat ->
  HasSuffix (String a s) x = HasSuffix s x.
Proof.
  intros H. unfold HasSuffix. cbn [String.length].
  replace (S (String.length s) - String.length x)%nat
    with (S (String.length s - String.length x)) by lia.
  cbn [substring].
  replace (String.length x <=? S (String.length s))%nat with true
    by (symmetry; apply Nat.leb_le; lia).
  replace (String.length x <=? String.length s)%nat with true
    by (symmetry; apply Nat.leb_le; lia).
  reflexivity.
Qed.

Lemma HasSuffix_refl (x : string) : HasSuffix x x = true.
Proof.
  unfold HasSuffix. rewrite Nat.leb_refl, Nat.sub_diag, substring_all.
  apply String.eqb_refl.
Qed.

(** The end of [p ++ t] is the end of [t]. *)
Lemma HasSuffix_app_l (p t x : string) :
  (String.length x <= String.length t)%nat ->
  HasSuffix (p ++ t) x = HasSuffix t x.
Proof.
  intros H. induction p as [| a p IH]; [reflexivity |].
  change (String a p ++ t)%string with (String a (p ++ t)).
  rewrite HasSuffix_cons; [exact IH |].
  rewrite string_length_append. lia.
Qed.

Lemma HasSuffix_append (s t : string) : HasSuffix (s ++ t) t = true.
Proof. rewrite HasSuffix_app_l by apply Nat.le_refl. apply HasSuffix_refl. Qed.

Lemma TrimSuffix_append (s t : string) : TrimSuffix (s ++ t) t = s.
Proof.
  unfold TrimSuffix. rewrite HasSuffix_append, string_length_append.
  replace (String.length s + String.length t - String.length t)%nat
    with (String.length s) by lia.
  apply substring_prefix.
Qed.

Lemma TrimSuffix_none (s t : string) : HasSuffix s t = false -> TrimSuffix s t = s.
Proof. intros H. unfold TrimSuffix. rewrite H. reflexivity. Qed.

(** A string with the suffix [t] is what [TrimSuffix] leaves, then [t]. *)
Lemma HasSuffix_inv (s t : string) :
  HasSuffix s t = true -> s = (TrimSuffix s t ++ t)%string.
Proof.
  induction s as [| a s IH]; intros H.
  - unfold HasSuffix in H. apply andb_true_iff in H as [Hl _].
    apply Nat.leb_le in Hl. destruct t; [reflexivity | simpl in Hl; lia].
  - destruct (Nat.le_gt_cases (String.length t) (String.length s)) as [Hle | Hgt].
    + rewrite (HasSuffix_cons a s t Hle) in H.
      pose proof (IH H) as E.
      assert (T : TrimSuffix (String a s) t = String a (TrimSuffix s t)).
      { unfold TrimSuffix. rewrite (HasSuffix_cons a s t Hle), H.
        cbn [String.length].
        replace (S (String.length s) - String.length t)%nat
          with (S (String.length s - String.length t)) by lia.
        reflexivity. }
      rewrite T. cbn [String.append]. rewrite <- E. reflexivity.
    + pose proof H as H'. unfold HasSuffix in H'.
      apply andb_true_iff in H' as [Hl He].
      apply Nat.leb_le in Hl. cbn [String.length] in Hl.
      assert (Hlen : String.length t = S (String.length s)) by lia.
      cbn [String.length] in He. rewrite Hlen, Nat.sub_diag in He.
      change (S (String.length s)) with (String.length (String a s)) in He.
      rewrite substring_all in He. apply String.eqb_eq in He.
      unfold TrimSuffix. rewrite H. cbn [String.length].
      rewrite Hlen, Nat.sub_diag. cbn [substring String.append]. exact He.
Qed.

(** ** New *)

Definition hasScheme (s : string) : bool :=
  HasPrefix s "http://" || HasPrefix s "https://".

Lemma New_ServerURL (s : string) :
  ServerURL (New s)
  = let t := TrimSuffix (if String.eqb s "" then DefaultURL else s) "/" in
    if hasScheme t then t else ("https://" ++ t)%string.
Proof.
  unfold New, hasScheme. cbn [ServerURL]. cbv zeta.
  rewrite <- negb_orb. destruct (_ || _); reflexivity.
Qed.

Lemma New_has_scheme (s : string) : hasScheme (ServerURL (New s)) = true.
Proof.
  rewrite New_ServerURL. cbv zeta.
  destruct (hasScheme (TrimSuffix _ "/")) eqn:E; [exact E |].
  unfold hasScheme. rewrite (HasPrefix_append "https://"). apply orb_true_r.
Qed.

(** X2.  The server URL of a client made by [New] always starts with
    [http://] or [https://]. *)
Theorem New_scheme (s : string) :
  HasPrefix (ServerURL (New s)) "http://" = true
  \/ HasPrefix (ServerURL (New s)) "https://" = true.
Proof. apply orb_true_iff. exact (New_has_scheme s). Qed.

Lemma hasScheme_nonempty (s : string) : hasScheme s = true -> s <> ""%string.
Proof. intros H ->. discriminate H. Qed.

Lemma New_fixed (u : string) :
  hasScheme u = true -> HasSuffix u "/" = false -> New u = mkClient u (HTTPClient (New u)).
Proof.
  intros Hs Hn.
  assert (E : ServerURL (New u) = u).
  { rewrite New_ServerURL. cbv zeta.
    destruct (String.eqb_spec u "") as [-> | _]; [discriminate Hs |].
    rewrite (TrimSuffix_none u "/" Hn), Hs. reflexivity. }
  destruct (New u) as [url hc] eqn:N. cbn [ServerURL HTTPClient] in *. rewrite E.
  reflexivity.
Qed.

(** X3.  [New] removes one slash from the end of the URL and completes the
    scheme.  For a URL that is neither ["/"] nor ends in two slashes the
    result has no slash at its end and [New] maps it to itself; so does a
    URL with one more slash at its end.  The URL ["/"] gives ["https://"],
    not the default server. *)
Theorem New_normalises (s : string) :
  s <> "/"%string -> HasSuffix s "//" = false ->
  HasSuffix (ServerURL (New s)) "/" = false
  /\ New (ServerURL (New s)) = New s
  /\ (s <> ""%string -> HasSuffix s "/" = false -> New (s ++ "/") = New s)
  /\ ServerURL (New "/") = "https://"%string.
Proof.
  intros Hs1 Hs2.
  set (s1 := if String.eqb s "" then DefaultURL else s).
  assert (H1 : s1 <> "/"%string /\ HasSuffix s1 "//" = false /\ s1 <> ""%string).
  { unfold s1. destruct (String.eqb_spec s "") as [-> | Hne].
    - repeat split; discriminate.
    - repeat split; assumption. }
  destruct H1 as (H1a & H1b & H1c).
  set (s2 := TrimSuffix s1 "/").
  assert (H2 : HasSuffix s2 "/" = false /\ s2 <> ""%string).
  { destruct (HasSuffix s1 "/") eqn:E.
    - pose proof (HasSuffix_inv s1 "/" E) as D. fold s2 in D.
      split.
      + destruct (HasSuffix s2 "/") eqn:E2; [| reflexivity].
        pose proof (HasSuffix_inv s2 "/" E2) as D2.
        rewrite D2, string_append_assoc in D. cbn [String.append] in D.
        rewrite D, HasSuffix_append in H1b. discriminate H1b.
      + intros Z. rewrite Z in D. exact (H1a D).
    - unfold s2. rewrite (TrimSuffix_none s1 "/" E). split; [exact E | exact H1c]. }
  destruct H2 as (H2a & H2b).
  assert (HU : ServerURL (New s) = if hasScheme s2 then s2 else ("https://" ++ s2)%string).
  { rewrite New_ServerURL. reflexivity. }
  assert (Hend : HasSuffix (ServerURL (New s)) "/" = false).
  { rewrite HU. destruct (hasScheme s2); [exact H2a |].
    rewrite HasSuffix_app_l; [exact H2a |].
    destruct s2; [contradiction | simpl; lia]. }
  split; [exact Hend |]. split.
  - rewrite (New_fixed _ (New_has_scheme s) Hend). reflexivity.
  - split; [| reflexivity].
    intros Hne Hno.
    assert (E : ServerURL (New (s ++ "/")) = ServerURL (New s)).
    { rewrite !New_ServerURL. cbv zeta.
      destruct (String.eqb_spec (s ++ "/") "") as [Z | _].
      { destruct s; discriminate Z. }
      destruct (String.eqb_spec s "") as [Z | _]; [contradiction |].
      rewrite TrimSuffix_append, (TrimSuffix_none s "/" Hno). reflexivity. }
    unfold New in *. cbn [ServerURL] in E. rewrite E. reflexivity.
Qed.

Lemma New_normalises_witness :
  "example.org/" <> "/"%string /\ HasSuffix "example.org/" "//" = false
  /\ ServerURL (New "example.org/") = "https://example.org"%string
  /\ New (ServerURL (New "example.org/")) = New "example.org/".
Proof.
  assert (H1 : "example.org/" <> "/"%string) by discriminate.
  assert (H2 : HasSuffix "example.org/" "//" = false) by reflexivity.
  split; [exact H1 |]. split; [exact H2 |]. split; [reflexivity |].
  exact (proj1 (proj2 (New_normalises "example.org/" H1 H2))).
Defined.

(** ** aesEncrypt: every outcome *)

(** The plaintext of the CBC and ECB branches after padding. *)
Definition pad16 (data : list byte) : list byte :=
  data ++ repeat (byte_of_Z (padLen (List.length data) 16))
                 (Z.to_nat (padLen (List.length data) 16)).

Lemma pad16_ok (data : list byte) : pKCS7Padding data 16 = Ok (pad16 data).
Proof. apply pKCS7Padding_pos. lia. Qed.

Lemma pad16_length (data : list byte) :
  List.length (pad16 data) = (16 * (List.length data / 16 + 1))%nat.
Proof.
  unfold pad16. rewrite length_app, repeat_length. unfold padLen.
  pose proof (Nat.div_mod_eq (List.length data) 16) as D.
  pose proof (Nat.mod_upper_bound (List.length data) 16 ltac:(lia)) as B.
  replace (Z.of_nat (List.length data) mod 16)%Z
    with (Z.of_nat (List.length data mod 16)) by (rewrite Nat2Z.inj_mod; reflexivity).
  lia.
Qed.

Lemma pad16_mod (data : list byte) : (List.length (pad16 data) mod 16 = 0)%nat.
Proof.
  rewrite pad16_length, Nat.mul_comm. apply Nat.Div0.mod_mul.
Qed.

Lemma aesEncrypt_CBC_run (data : list byte) (opt : EncOpt) :
  ToUpper (Mode opt) = "CBC"%string -> keyLenOK opt -> String.length (Iv opt) = 16%nat ->
  exists (block : Block) (ct : list byte),
    AES.NewCipher (bytes_of_string (Key opt)) = Ok block
    /\ BlockSize block = 16%nat /\ BlockLaws block
    /\ aesEncrypt data opt = Ok (EncodeToString ct)
    /\ List.length ct = List.length (pad16 data)
    /\ forall i, (i < List.length (pad16 data) / 16)%nat ->
         Encrypt block (XORBytes (chunk 16 i (pad16 data))
                                 (cbcPrev 16 (bytes_of_string (Iv opt)) ct i))
         = Some (chunk 16 i ct).
Proof.
  intros Hm Hk Hiv.
  destruct (AESFacts.NewCipher_ok _ (keyLenOK_bytes opt Hk)) as (block & Eblock & Hbs & laws).
  rewrite (aesEncrypt_CBC data opt block Hm Eblock). cbv zeta.
  rewrite Hbs, bytes_of_string_length, Hiv. cbn [Nat.eqb negb].
  change (Z.of_nat 16) with 16%Z. rewrite pad16_ok. cbn [bind].
  assert (Hiv' : List.length (bytes_of_string (Iv opt)) = BlockSize block).
  { rewrite bytes_of_string_length, Hbs. exact Hiv. }
  assert (Hmod' : (List.length (pad16 data) mod BlockSize block = 0)%nat)
    by (rewrite Hbs; apply pad16_mod).
  destruct (CryptBlocks_roundtrip block laws _ (pad16 data) Hiv' Hmod')
    as (x & ct & Ex & Ect & Hct & Dct).
  rewrite Ex. cbn [orPanic bind]. rewrite Ect. cbn [orPanic bind].
  exists block, ct.
  split; [exact Eblock |]. split; [exact Hbs |]. split; [exact laws |].
  split; [reflexivity |]. split; [exact Hct |].
  intros i Hi.
  assert (Hx : cbc_b x = block /\ cbc_blockSize x = BlockSize block
               /\ cbc_iv x = bytes_of_string (Iv opt)).
  { unfold NewCBCEncrypter in Ex. rewrite Hiv', Nat.eqb_refl in Ex. cbn [negb] in Ex.
    injection Ex as <-. repeat split. }
  destruct Hx as (Hxb & Hxs & Hxi).
  unfold CryptBlocks in Ect. rewrite Hxs, Hbs, pad16_mod, Hxi in Ect.
  cbn [Nat.eqb negb] in Ect.
  pose proof (cbcLoop_chain block laws x (List.length (pad16 data) / 16) Hxb Hxs (pad16 data)
                (bytes_of_string (Iv opt)) ct (List.length (pad16 data))) as Hchain.
  rewrite Hbs in Hchain. apply Hchain; try assumption.
  - pose proof (Nat.div_mod_eq (List.length (pad16 data)) 16).
    pose proof (pad16_mod data). lia.
  - rewrite bytes_of_string_length. exact Hiv.
Qed.

Lemma aesEncrypt_ECB_run (data : list byte) (opt : EncOpt) :
  ToUpper (Mode opt) = "ECB"%string -> keyLenOK opt ->
  exists (ct : list byte),
    aesEncrypt data opt = Ok (EncodeToString ct)
    /\ List.length ct = List.length (pad16 data).
Proof.
  intros Hm Hk.
  destruct (AESFacts.NewCipher_ok _ (keyLenOK_bytes opt Hk)) as (block & Eblock & Hbs & laws).
  rewrite (aesEncrypt_ECB _ opt block Hm Eblock). rewrite Hbs.
  change (Z.of_nat 16) with 16%Z. rewrite pad16_ok. cbn [bind].
  pose proof (ecbLoop_blocks block laws (List.length (pad16 data) / 16) (pad16 data)
                (List.length (pad16 data))) as H.
  rewrite Hbs in H.
  destruct H as (ct & E & L & _).
  - pose proof (Nat.div_mod_eq (List.length (pad16 data)) 16).
    pose proof (pad16_mod data). lia.
  - apply Nat.Div0.div_le_upper_bound. lia.
  - rewrite E. cbn [orPanic bind]. exists ct. split; [reflexivity | exact L].
Qed.

Lemma aesEncrypt_GCM_run (data : list byte) (opt : EncOpt) :
  ToUpper (Mode opt) = "GCM"%string -> keyLenOK opt -> String.length (Iv opt) = 12%nat ->
  (Z.of_nat (List.length data) <= gcmMaxPlaintext)%Z ->
  exists (sealed : list byte),
    aesEncrypt data opt = Ok (EncodeToString sealed)
    /\ List.length sealed = (List.length data + 16)%nat.
Proof.
  intros Hm Hk Hiv Hshort.
  destruct (AESFacts.NewCipher_ok _ (keyLenOK_bytes opt Hk)) as (block & Eblock & Hbs & laws).
  rewrite (aesEncrypt_GCM_unfold data opt block Hm Eblock). cbv zeta.
  rewrite bytes_of_string_length.
  destruct (SealFacts.NewGCM_ok block laws Hbs) as (g & Eg & Hcg & HHg).
  assert (Hmaxg : GCM.maxPlaintext g = gcmMaxPlaintext).
  { unfold GCM.maxPlaintext, gcmMaxPlaintext. rewrite Hcg, Hbs. reflexivity. }
  rewrite Hiv. cbn [Nat.eqb negb]. rewrite Eg. cbn [bind].
  assert (Hn : List.length (bytes_of_string (Iv opt)) = GCM.gcmStandardNonceSize).
  { rewrite bytes_of_string_length. exact Hiv. }
  destruct (SealFacts.Seal_Open block laws Hbs g Hcg HHg (bytes_of_string (Iv opt)) data []
              Hn ltac:(rewrite Hmaxg; exact Hshort))
    as (ct & tag & Eseal & Hct & Htag & _).
  rewrite Eseal. cbn [orPanic bind].
  exists (ct ++ tag). split; [reflexivity |].
  rewrite length_app, Hct, Htag. reflexivity.
Qed.

Lemma aesEncrypt_bad_key (data : list byte) (opt : EncOpt) :
  ~ keyLenOK opt ->
  aesEncrypt data opt = Err (AES.KeySizeError (String.length (Key opt))).
Proof.
  intros Hk. unfold aesEncrypt.
  rewrite AESFacts.NewCipher_bad, bytes_of_string_length; [reflexivity |].
  rewrite bytes_of_string_length. exact Hk.
Qed.

Lemma aesEncrypt_unknown_mode (data : list byte) (opt : EncOpt) :
  keyLenOK opt -> ~ knownMode opt ->
  aesEncrypt data opt = Err errUnsupportedEncryptionMode.
Proof.
  intros Hk Hm.
  destruct (AESFacts.NewCipher_ok _ (keyLenOK_bytes opt Hk)) as (block & Eblock & _).
  unfold aesEncrypt. rewrite Eblock. cbn [bind]. cbv zeta. unfold knownMode in Hm.
  destruct (String.eqb_spec (ToUpper (Mode opt)) "CBC") as [E | _]; [tauto |].
  destruct (String.eqb_spec (ToUpper (Mode opt)) "ECB") as [E | _]; [tauto |].
  destruct (String.eqb_spec (ToUpper (Mode opt)) "GCM") as [E | _]; [tauto |].
  reflexivity.
Qed.

Lemma aesEncrypt_CBC_bad_iv (data : list byte) (opt : EncOpt) :
  ToUpper (Mode opt) = "CBC"%string -> keyLenOK opt -> String.length (Iv opt) <> 16%nat ->
  aesEncrypt data opt = Err (errCBCIVLength 16).
Proof.
  intros Hm Hk Hiv.
  destruct (AESFacts.NewCipher_ok _ (keyLenOK_bytes opt Hk)) as (block & Eblock & Hbs & _).
  rewrite (aesEncrypt_CBC data opt block Hm Eblock). cbv zeta.
  rewrite Hbs, bytes_of_string_length.
  replace (String.length (Iv opt) =? 16)%nat with false
    by (symmetry; apply Nat.eqb_neq; exact Hiv).
  reflexivity.
Qed.

Lemma aesEncrypt_GCM_bad_nonce (data : list byte) (opt : EncOpt) :
  ToUpper (Mode opt) = "GCM"%string -> keyLenOK opt -> String.length (Iv opt) <> 12%nat ->
  aesEncrypt data opt = Err errGCMNonceLength.
Proof.
  intros Hm Hk Hiv.
  destruct (AESFacts.NewCipher_ok _ (keyLenOK_bytes opt Hk)) as (block & Eblock & _).
  rewrite (aesEncrypt_GCM_unfold data opt block Hm Eblock). cbv zeta.
  rewrite bytes_of_string_length.
  replace (String.length (Iv opt) =? 12)%nat with false
    by (symmetry; apply Nat.eqb_neq; exact Hiv).
  reflexivity.
Qed.

(** The ways in which [aesEncrypt] ends. *)
Inductive outcome (data : list byte) (opt : EncOpt) : res string -> Prop :=
| BadKey : ~ keyLenOK opt ->
    outcome data opt (Err (AES.KeySizeError (String.length (Key opt))))
| UnknownMode : keyLenOK opt -> ~ knownMode opt ->
    outcome data opt (Err errUnsupportedEncryptionMode)
| BadIV : keyLenOK opt -> ToUpper (Mode opt) = "CBC"%string ->
    String.length (Iv opt) <> 16%nat ->
    outcome data opt (Err (errCBCIVLength 16))
| BadNonce : keyLenOK opt -> ToUpper (Mode opt) = "GCM"%string ->
    String.length (Iv opt) <> 12%nat ->
    outcome data opt (Err errGCMNonceLength)
| TooLong : keyLenOK opt -> ToUpper (Mode opt) = "GCM"%string ->
    String.length (Iv opt) = 12%nat ->
    (gcmMaxPlaintext < Z.of_nat (List.length data))%Z ->
    outcome data opt Panic
| Blocks : forall encrypted, keyLenOK opt ->
    (ToUpper (Mode opt) = "CBC"%string /\ String.length (Iv opt) = 16%nat
     \/ ToUpper (Mode opt) = "ECB"%string) ->
    List.length encrypted = (16 * (List.length data / 16 + 1))%nat ->
    outcome data opt (Ok (EncodeToString encrypted))
| Sealed : forall encrypted, keyLenOK opt -> ToUpper (Mode opt) = "GCM"%string ->
    String.length (Iv opt) = 12%nat ->
    (Z.of_nat (List.length data) <= gcmMaxPlaintext)%Z ->
    List.length encrypted = (List.length data + 16)%nat ->
    outcome data opt (Ok (EncodeToString encrypted)).

Lemma keyLenOK_dec (opt : EncOpt) : keyLenOK opt \/ ~ keyLenOK opt.
Proof. unfold keyLenOK. lia. Qed.

Lemma aesEncrypt_outcome_of (data : list byte) (opt : EncOpt) :
  outcome data opt (aesEncrypt data opt).
Proof.
  destruct (keyLenOK_dec opt) as [Hk | Hk].
  2: { rewrite (aesEncrypt_bad_key data opt Hk). apply BadKey. exact Hk. }
  destruct (string_dec (ToUpper (Mode opt)) "CBC") as [Hc | Hc].
  { destruct (Nat.eq_dec (String.length (Iv opt)) 16) as [Hiv | Hiv].
    - destruct (aesEncrypt_CBC_run data opt Hc Hk Hiv) as (block & ct & _ & _ & _ & E & L & _).
      rewrite E. apply Blocks; [exact Hk | left; split; assumption |].
      rewrite L. apply pad16_length.
    - rewrite (aesEncrypt_CBC_bad_iv data opt Hc Hk Hiv). apply BadIV; assumption. }
  destruct (string_dec (ToUpper (Mode opt)) "ECB") as [He | He].
  { destruct (aesEncrypt_ECB_run data opt He Hk) as (ct & E & L).
    rewrite E. apply Blocks; [exact Hk | right; exact He |].
    rewrite L. apply pad16_length. }
  destruct (string_dec (ToUpper (Mode opt)) "GCM") as [Hg | Hg].
  { destruct (Nat.eq_dec (String.length (Iv opt)) 12) as [Hiv | Hiv].
    - destruct (Z_le_gt_dec (Z.of_nat (List.length data)) gcmMaxPlaintext) as [Hs | Hl].
      + destruct (aesEncrypt_GCM_run data opt Hg Hk Hiv Hs) as (sealed & E & L).
        rewrite E. apply Sealed; assumption.
      + rewrite (aesEncrypt_GCM_too_long data opt Hg Hk Hiv) by lia.
        apply TooLong; try assumption. lia.
    - rewrite (aesEncrypt_GCM_bad_nonce data opt Hg Hk Hiv). apply BadNonce; assumption. }
  assert (Hm : ~ knownMode opt) by (unfold knownMode; tauto).
  rewrite (aesEncrypt_unknown_mode data opt Hk Hm). apply UnknownMode; assumption.
Qed.

(** ** base64: the size and the alphabet of the text *)

Lemma string_of_bytes_length (l : list byte) :
  String.length (string_of_bytes l) = List.length l.
Proof.
  unfold string_of_bytes.
  rewrite <- (list_ascii_of_string_of_list_ascii l) at 2.
  symmetry. apply bytes_of_string_length.
Qed.

Lemma base64_Encode_length_le (n : nat) (src : list byte) :
  (List.length src <= n)%nat ->
  List.length (base64_Encode src) = (4 * ((List.length src + 2) / 3))%nat.
Proof.
  revert src. induction n as [| n IH]; intros src Hn.
  { destruct src; [reflexivity | simpl in Hn; lia]. }
  destruct src as [| s0 [| s1 [| s2 rest]]]; try reflexivity.
  cbn [base64_Encode List.length]. rewrite IH by (cbn [List.length] in Hn; lia).
  replace (S (S (S (List.length rest))) + 2)%nat
    with ((List.length rest + 2) + 1 * 3)%nat by lia.
  rewrite Nat.div_add by lia. lia.
Qed.

Lemma b64char_alphabet (i : Z) :
  (0 <= i < 64)%Z -> In (b64char i) (bytes_of_string encodeStd).
Proof.
  intros Hi.
  assert (H : exists n, (n < 64)%nat /\ i = Z.of_nat n).
  { exists (Z.to_nat i). split; lia. }
  destruct H as (n & Hn & ->).
  assert (K : forall c, existsb (Ascii.eqb c) (bytes_of_string encodeStd) = true ->
                        In c (bytes_of_string encodeStd)).
  { intros c Hc. apply existsb_exists in Hc as (x & Hx & Hcx).
    apply Ascii.eqb_eq in Hcx. subst x. exact Hx. }
  apply K.
  do 64 (destruct n as [| n]; [vm_compute; reflexivity |]).
  lia.
Qed.

Definition base64Char (c : byte) : Prop :=
  In c (bytes_of_string encodeStd) \/ c = padChar.

Lemma base64_Encode_alphabet_le (n : nat) (src : list byte) :
  (List.length src <= n)%nat -> Forall base64Char (base64_Encode src).
Proof.
  revert src. induction n as [| n IH]; intros src Hn.
  { destruct src; [constructor | simpl in Hn; lia]. }
  assert (A : forall v, base64Char (b64char (Z.land v 63))).
  { intros v. left. apply b64char_alphabet. apply sextet_range. }
  assert (P : base64Char padChar) by (right; reflexivity).
  destruct src as [| s0 [| s1 [| s2 rest]]]; cbn [base64_Encode].
  - apply Forall_nil.
  - apply Forall_cons; [apply A |]. apply Forall_cons; [apply A |].
    apply Forall_cons; [exact P |]. apply Forall_cons; [exact P |]. apply Forall_nil.
  - apply Forall_cons; [apply A |]. apply Forall_cons; [apply A |].
    apply Forall_cons; [apply A |]. apply Forall_cons; [exact P |]. apply Forall_nil.
  - apply Forall_cons; [apply A |]. apply Forall_cons; [apply A |].
    apply Forall_cons; [apply A |]. apply Forall_cons; [apply A |].
    apply IH. cbn [List.length] in Hn. lia.
Qed.

(** X4.  [EncodeToString] writes four characters for every three bytes,
    the last group filled up, all of them letters, digits, [+], [/] or
    [=]; decoding gives the bytes back, so two byte strings with the same
    text are equal. *)
Theorem EncodeToString_text (src : list byte) :
  String.length (EncodeToString src) = (4 * ((List.length src + 2) / 3))%nat
  /\ Forall base64Char (bytes_of_string (EncodeToString src))
  /\ DecodeString (EncodeToString src) = Some src
  /\ (forall src', EncodeToString src' = EncodeToString src -> src' = src).
Proof.
  split; [| split; [| split]].
  - unfold EncodeToString. rewrite string_of_bytes_length.
    apply (base64_Encode_length_le (List.length src)). apply Nat.le_refl.
  - unfold EncodeToString, bytes_of_string, string_of_bytes.
    rewrite list_ascii_of_string_of_list_ascii.
    apply (base64_Encode_alphabet_le (List.length src)). apply Nat.le_refl.
  - apply base64_roundtrip.
  - intros src' E.
    pose proof (base64_roundtrip src') as R. rewrite E, base64_roundtrip in R.
    injection R as R. symmetry. exact R.
Qed.

Lemma EncodeToString_injective (x y : list byte) :
  EncodeToString x = EncodeToString y -> x = y.
Proof.
  intros E. pose proof (base64_roundtrip x) as R. rewrite E, base64_roundtrip in R.
  injection R as R. symmetry. exact R.
Qed.

Lemma EncodeToString_length (src : list byte) :
  String.length (EncodeToString src) = (4 * ((List.length src + 2) / 3))%nat.
Proof.
  unfold EncodeToString. rewrite string_of_bytes_length.
  apply (base64_Encode_length_le (List.length src)). apply Nat.le_refl.
Qed.

(** ** aesEncrypt: outcomes and sizes *)

(** X5.  How [aesEncrypt] ends.  A key that is not 16, 24 or 32 bytes long
    is the error of [aes.NewCipher], whatever the mode; then an unknown
    mode, a CBC IV that is not 16 bytes, a GCM nonce that is not 12 bytes
    are errors; a GCM plaintext above the limit panics; everything else
    returns the base64 text of [16 * (len / 16 + 1)] bytes in CBC and ECB
    mode and of [len + 16] bytes in GCM mode. *)
Theorem aesEncrypt_outcomes (data : list byte) (opt : EncOpt) :
  (~ keyLenOK opt ->
     aesEncrypt data opt = Err (AES.KeySizeError (String.length (Key opt))))
  /\ (keyLenOK opt -> ~ knownMode opt ->
        aesEncrypt data opt = Err errUnsupportedEncryptionMode)
  /\ (keyLenOK opt -> ToUpper (Mode opt) = "CBC"%string ->
        String.length (Iv opt) <> 16%nat ->
        aesEncrypt data opt = Err "CBC IV length must be 16")
  /\ (keyLenOK opt -> ToUpper (Mode opt) = "GCM"%string ->
        String.length (Iv opt) <> 12%nat ->
        aesEncrypt data opt = Err errGCMNonceLength)
  /\ (keyLenOK opt -> ToUpper (Mode opt) = "GCM"%string ->
        String.length (Iv opt) = 12%nat ->
        (gcmMaxPlaintext < Z.of_nat (List.length data))%Z ->
        aesEncrypt data opt = Panic)
  /\ (keyLenOK opt ->
        (ToUpper (Mode opt) = "CBC"%string /\ String.length (Iv opt) = 16%nat)
        \/ ToUpper (Mode opt) = "ECB"%string ->
        exists encrypted,
          aesEncrypt data opt = Ok (EncodeToString encrypted)
          /\ List.length encrypted = (16 * (List.length data / 16 + 1))%nat)
  /\ (keyLenOK opt -> ToUpper (Mode opt) = "GCM"%string ->
        String.length (Iv opt) = 12%nat ->
        (Z.of_nat (List.length data) <= gcmMaxPlaintext)%Z ->
        exists encrypted,
          aesEncrypt data opt = Ok (EncodeToString encrypted)
          /\ List.length encrypted = (List.length data + 16)%nat).
Proof.
  split; [exact (aesEncrypt_bad_key data opt) |].
  split; [exact (aesEncrypt_unknown_mode data opt) |].
  split; [intros Hk Hm Hiv; exact (aesEncrypt_CBC_bad_iv data opt Hm Hk Hiv) |].
  split; [intros Hk Hm Hiv; exact (aesEncrypt_GCM_bad_nonce data opt Hm Hk Hiv) |].
  split; [intros Hk Hm Hiv Hl; exact (aesEncrypt_GCM_too_long data opt Hm Hk Hiv Hl) |].
  split.
  - intros Hk [[Hm Hiv] | Hm].
    + destruct (aesEncrypt_CBC_run data opt Hm Hk Hiv) as (block & ct & _ & _ & _ & E & L & _).
      exists ct. split; [exact E |]. rewrite L. apply pad16_length.
    + destruct (aesEncrypt_ECB_run data opt Hm Hk) as (ct & E & L).
      exists ct. split; [exact E |]. rewrite L. apply pad16_length.
  - intros Hk Hm Hiv Hs. exact (aesEncrypt_GCM_run data opt Hm Hk Hiv Hs).
Qed.

(** X6.  The size of the text [aesEncrypt] returns depends on the mode and
    on the size of the plaintext alone. *)
Theorem aesEncrypt_size (data : list byte) (opt : EncOpt) (cipherText : string) :
  aesEncrypt data opt = Ok cipherText ->
  String.length cipherText
  = if String.eqb (ToUpper (Mode opt)) "GCM"
    then (4 * ((List.length data + 16 + 2) / 3))%nat
    else (4 * ((16 * (List.length data / 16 + 1) + 2) / 3))%nat.
Proof.
  intros E. pose proof (aesEncrypt_outcome_of data opt) as O. rewrite E in O.
  inversion O as [ | | | | | encrypted Hk Hm Hl Hc | encrypted Hk Hm Hiv Hs Hl Hc ].
  - rewrite EncodeToString_length, Hl.
    destruct Hm as [[Hm _] | Hm]; rewrite Hm; reflexivity.
  - rewrite EncodeToString_length, Hl, Hm. reflexivity.
Qed.

Lemma aesEncrypt_size_witness :
  aesEncrypt (bytes_of_string "{}") gcmExample = Ok "0MwQVJKvNueD2L3qhWzWlKLt"%string
  /\ String.length "0MwQVJKvNueD2L3qhWzWlKLt" = 24%nat.
Proof.
  assert (E : aesEncrypt (bytes_of_string "{}") gcmExample = Ok "0MwQVJKvNueD2L3qhWzWlKLt"%string)
    by (vm_compute; reflexivity).
  split; [exact E |].
  exact (aesEncrypt_size _ _ _ E).
Defined.

(** ** CBC mode: the IV and the blocks before a change *)

Lemma bytes_of_string_injective (s t : string) :
  bytes_of_string s = bytes_of_string t -> s = t.
Proof.
  intros E. unfold bytes_of_string in E.
  rewrite <- (string_of_list_ascii_of_string s), <- (string_of_list_ascii_of_string t), E.
  reflexivity.
Qed.

Lemma Encrypt_injective (b : Block) (x y c : list byte) :
  BlockLaws b -> List.length x = BlockSize b -> List.length y = BlockSize b ->
  Encrypt b x = Some c -> Encrypt b y = Some c -> x = y.
Proof.
  intros laws Hx Hy Ex Ey.
  pose proof (decrypt_encrypt b laws x c Hx Ex) as Dx.
  pose proof (decrypt_encrypt b laws y c Hy Ey) as Dy.
  rewrite Dx in Dy. injection Dy as Dy. exact Dy.
Qed.

Lemma aesEncrypt_Ok_keyLen (data : list byte) (opt : EncOpt) (c : string) :
  aesEncrypt data opt = Ok c -> keyLenOK opt.
Proof.
  intros E. destruct (keyLenOK_dec opt) as [Hk | Hk]; [exact Hk |].
  rewrite (aesEncrypt_bad_key data opt Hk) in E. discriminate E.
Qed.

Lemma aesEncrypt_Ok_CBC_iv (data : list byte) (opt : EncOpt) (c : string) :
  ToUpper (Mode opt) = "CBC"%string -> aesEncrypt data opt = Ok c ->
  String.length (Iv opt) = 16%nat.
Proof.
  intros Hm E. pose proof (aesEncrypt_Ok_keyLen data opt c E) as Hk.
  destruct (Nat.eq_dec (String.length (Iv opt)) 16) as [H | H]; [exact H |].
  rewrite (aesEncrypt_CBC_bad_iv data opt Hm Hk H) in E. discriminate E.
Qed.

Lemma pad16_blocks (data : list byte) : (0 < List.length (pad16 data) / 16)%nat.
Proof.
  rewrite pad16_length, Nat.mul_comm, Nat.div_mul by lia. lia.
Qed.

Lemma chunk_length (l : list byte) (i : nat) :
  (16 * (i + 1) <= List.length l)%nat -> List.length (chunk 16 i l) = 16%nat.
Proof.
  intros H. unfold chunk. rewrite length_firstn, length_skipn. lia.
Qed.

(** X7.  In CBC mode the ciphertext depends on the IV: the same plaintext
    under the same key and two different IVs gives two different texts. *)
Theorem aesEncrypt_CBC_iv_matters (data : list byte) (opt1 opt2 : EncOpt) (c1 c2 : string) :
  ToUpper (Mode opt1) = "CBC"%string -> ToUpper (Mode opt2) = "CBC"%string ->
  Key opt1 = Key opt2 -> Iv opt1 <> Iv opt2 ->
  aesEncrypt data opt1 = Ok c1 -> aesEncrypt data opt2 = Ok c2 ->
  c1 <> c2.
Proof.
  intros Hm1 Hm2 Hkey Hiv E1 E2 Hc.
  pose proof (aesEncrypt_Ok_keyLen _ _ _ E1) as Hk1.
  pose proof (aesEncrypt_Ok_keyLen _ _ _ E2) as Hk2.
  pose proof (aesEncrypt_Ok_CBC_iv _ _ _ Hm1 E1) as Hl1.
  pose proof (aesEncrypt_Ok_CBC_iv _ _ _ Hm2 E2) as Hl2.
  destruct (aesEncrypt_CBC_run data opt1 Hm1 Hk1 Hl1)
    as (b1 & ct1 & N1 & Hbs & laws & R1 & L1 & B1).
  destruct (aesEncrypt_CBC_run data opt2 Hm2 Hk2 Hl2)
    as (b2 & ct2 & N2 & _ & _ & R2 & L2 & B2).
  rewrite Hkey, N2 in N1. injection N1 as <-.
  rewrite E1 in R1. rewrite E2 in R2. injection R1 as ->. injection R2 as ->.
  apply EncodeToString_injective in Hc. subst ct2.
  specialize (B1 0%nat (pad16_blocks data)). specialize (B2 0%nat (pad16_blocks data)).
  cbn [cbcPrev] in B1, B2.
  assert (Hp : List.length (chunk 16 0 (pad16 data)) = 16%nat).
  { apply chunk_length. rewrite pad16_length. lia. }
  assert (X : XORBytes (chunk 16 0 (pad16 data)) (bytes_of_string (Iv opt1))
              = XORBytes (chunk 16 0 (pad16 data)) (bytes_of_string (Iv opt2))).
  { apply (Encrypt_injective b2 _ _ (chunk 16 0 ct1) laws); try assumption;
      rewrite XORBytes_length, Hp, bytes_of_string_length, ?Hl1, ?Hl2, Hbs; reflexivity. }
  apply GHASHFacts.XORBytes_injective_r in X;
    try (rewrite Hp, bytes_of_string_length; lia).
  apply Hiv. apply bytes_of_string_injective. exact X.
Qed.

Lemma aesEncrypt_CBC_iv_matters_witness :
  aesEncrypt (bytes_of_string "{}") cbcExample = Ok "wR8lBV2knR0Y+fqQNoqNcA=="%string
  /\ aesEncrypt (bytes_of_string "{}") (mkEncOpt "CBC" "1234567890abcdef" "2222222222222222")
     = Ok "LguhGew+FoNNjMavc5Iw+w=="%string
  /\ "wR8lBV2knR0Y+fqQNoqNcA=="%string <> "LguhGew+FoNNjMavc5Iw+w=="%string.
Proof.
  assert (E1 : aesEncrypt (bytes_of_string "{}") cbcExample
               = Ok "wR8lBV2knR0Y+fqQNoqNcA=="%string) by (vm_compute; reflexivity).
  assert (E2 : aesEncrypt (bytes_of_string "{}")
                 (mkEncOpt "CBC" "1234567890abcdef" "2222222222222222")
               = Ok "LguhGew+FoNNjMavc5Iw+w=="%string) by (vm_compute; reflexivity).
  split; [exact E1 |]. split; [exact E2 |].
  apply (aesEncrypt_CBC_iv_matters (bytes_of_string "{}") cbcExample
           (mkEncOpt "CBC" "1234567890abcdef" "2222222222222222"));
    try reflexivity; try assumption.
  discriminate.
Defined.

Lemma chunk_app_l (x y : list byte) (i : nat) :
  (16 * (i + 1) <= List.length x)%nat -> chunk 16 i (x ++ y) = chunk 16 i x.
Proof.
  intros H. unfold chunk.
  rewrite skipn_app, firstn_app, length_skipn.
  replace (i * 16 - List.length x)%nat with 0%nat by lia.
  replace (16 - (List.length x - i * 16))%nat with 0%nat by lia.
  cbn [skipn firstn]. apply app_nil_r.
Qed.

Lemma chunk_firstn (l : list byte) (i k : nat) :
  (i < k)%nat -> chunk 16 i (firstn (16 * k) l) = chunk 16 i l.
Proof.
  intros H. unfold chunk.
  rewrite skipn_firstn_comm, firstn_firstn.
  replace (Nat.min 16 (16 * k - i * 16)) with 16%nat by lia.
  reflexivity.
Qed.

Lemma firstn_plus {A : Type} (a b : nat) (m : list A) :
  firstn (a + b) m = firstn a m ++ firstn b (skipn a m).
Proof.
  revert m. induction a as [| a IH]; intros m; [reflexivity |].
  destruct m as [| x m]; [destruct b; reflexivity |].
  cbn [Nat.add firstn skipn app]. rewrite IH. reflexivity.
Qed.

Lemma firstn_chunks (l l' : list byte) (k : nat) :
  (16 * k <= List.length l)%nat -> (16 * k <= List.length l')%nat ->
  (forall i, (i < k)%nat -> chunk 16 i l = chunk 16 i l') ->
  firstn (16 * k) l = firstn (16 * k) l'.
Proof.
  induction k as [| k IH]; intros Hl Hl' H; [reflexivity |].
  assert (S1 : forall m : list byte,
            firstn (16 * S k) m = firstn (16 * k) m ++ chunk 16 k m).
  { intros m. unfold chunk.
    replace (16 * S k)%nat with (16 * k + 16)%nat by lia.
    rewrite firstn_plus. f_equal. f_equal. f_equal. lia. }
  rewrite !S1, IH; try lia.
  - rewrite (H k) by lia. reflexivity.
  - intros i Hi. apply H. lia.
Qed.

(** X8.  In CBC mode a block of ciphertext depends on the plaintext up to
    that block only: two plaintexts that agree on their first [k] blocks,
    encrypted under the same key and IV, give ciphertexts that agree on
    their first [k] blocks. *)
Theorem aesEncrypt_CBC_common_prefix (data1 data2 : list byte) (opt : EncOpt)
    (c1 c2 : string) (k : nat) :
  ToUpper (Mode opt) = "CBC"%string ->
  aesEncrypt data1 opt = Ok c1 -> aesEncrypt data2 opt = Ok c2 ->
  (16 * k <= List.length data1)%nat -> (16 * k <= List.length data2)%nat ->
  firstn (16 * k) data1 = firstn (16 * k) data2 ->
  exists ct1 ct2,
    DecodeString c1 = Some ct1 /\ DecodeString c2 = Some ct2
    /\ firstn (16 * k) ct1 = firstn (16 * k) ct2.
Proof.
  intros Hm E1 E2 Hl1 Hl2 Hpre.
  pose proof (aesEncrypt_Ok_keyLen _ _ _ E1) as Hk.
  pose proof (aesEncrypt_Ok_CBC_iv _ _ _ Hm E1) as Hiv.
  destruct (aesEncrypt_CBC_run data1 opt Hm Hk Hiv)
    as (b1 & ct1 & N1 & Hbs & laws & R1 & L1 & B1).
  destruct (aesEncrypt_CBC_run data2 opt Hm Hk Hiv)
    as (b2 & ct2 & N2 & _ & _ & R2 & L2 & B2).
  rewrite N2 in N1. injection N1 as <-.
  rewrite E1 in R1. rewrite E2 in R2. injection R1 as ->. injection R2 as ->.
  exists ct1, ct2.
  split; [apply base64_roundtrip |]. split; [apply base64_roundtrip |].
  pose proof (pad16_length data1) as P1. pose proof (pad16_length data2) as P2.
  pose proof (Nat.div_mod_eq (List.length data1) 16) as D1.
  pose proof (Nat.div_mod_eq (List.length data2) 16) as D2.
  pose proof (Nat.mod_upper_bound (List.length data1) 16 ltac:(lia)) as M1.
  pose proof (Nat.mod_upper_bound (List.length data2) 16 ltac:(lia)) as M2.
  assert (Q1 : (List.length (pad16 data1) / 16 = List.length data1 / 16 + 1)%nat).
  { rewrite P1, Nat.mul_comm, Nat.div_mul by lia. reflexivity. }
  assert (Q2 : (List.length (pad16 data2) / 16 = List.length data2 / 16 + 1)%nat).
  { rewrite P2, Nat.mul_comm, Nat.div_mul by lia. reflexivity. }
  assert (Hblocks : forall i, (i < k)%nat -> chunk 16 i ct1 = chunk 16 i ct2).
  { intros i. induction i as [| i IH]; intros Hi.
    - specialize (B1 0%nat ltac:(lia)). specialize (B2 0%nat ltac:(lia)).
      cbn [cbcPrev] in B1, B2.
      assert (Ep : chunk 16 0 (pad16 data1) = chunk 16 0 (pad16 data2)).
      { unfold pad16. rewrite !chunk_app_l by lia.
        rewrite <- (chunk_firstn data1 0 k Hi), <- (chunk_firstn data2 0 k Hi), Hpre.
        reflexivity. }
      rewrite Ep, B2 in B1. injection B1 as B1. symmetry. exact B1.
    - specialize (IH ltac:(lia)).
      specialize (B1 (S i) ltac:(lia)). specialize (B2 (S i) ltac:(lia)).
      cbn [cbcPrev] in B1, B2.
      assert (Ep : chunk 16 (S i) (pad16 data1) = chunk 16 (S i) (pad16 data2)).
      { unfold pad16. rewrite !chunk_app_l by lia.
        rewrite <- (chunk_firstn data1 (S i) k Hi), <- (chunk_firstn data2 (S i) k Hi), Hpre.
        reflexivity. }
      rewrite Ep, IH, B2 in B1. injection B1 as B1. symmetry. exact B1. }
  apply firstn_chunks; [lia | lia | exact Hblocks].
Qed.

Lemma aesEncrypt_CBC_common_prefix_witness :
  exists c1 c2 ct1 ct2,
    aesEncrypt (bytes_of_string "0123456789abcdefX") cbcExample = Ok c1
    /\ aesEncrypt (bytes_of_string "0123456789abcdefYZ") cbcExample = Ok c2
    /\ DecodeString c1 = Some ct1 /\ DecodeString c2 = Some ct2
    /\ firstn 16 ct1 = firstn 16 ct2.
Proof.
  destruct (aesEncrypt (bytes_of_string "0123456789abcdefX") cbcExample) as [c1 | |] eqn:E1;
    [| vm_compute in E1; discriminate E1 | vm_compute in E1; discriminate E1].
  destruct (aesEncrypt (bytes_of_string "0123456789abcdefYZ") cbcExample) as [c2 | |] eqn:E2;
    [| vm_compute in E2; discriminate E2 | vm_compute in E2; discriminate E2].
  destruct (aesEncrypt_CBC_common_prefix _ _ cbcExample c1 c2 1 eq_refl E1 E2
              ltac:(simpl; lia) ltac:(simpl; lia) eq_refl) as (ct1 & ct2 & D1 & D2 & H).
  exists c1, c2, ct1, ct2. repeat split; assumption.
Defined.

(** ** pKCS7Padding at any block size *)

(** X9.  [pKCS7Padding] panics for a block size of zero (the remainder) or
    below (a negative repeat count).  For a positive block size it appends
    [N] bytes, [1 <= N <= blockSize], that fill the last block; they hold
    [N] as long as the block size is below 256, and the padding can then
    be removed again; a padding of 256 bytes holds zeros, which cannot. *)
Theorem pKCS7Padding_blockSize (data : list byte) (blockSize : Z) :
  ((blockSize <= 0)%Z -> pKCS7Padding data blockSize = Panic)
  /\ ((0 < blockSize)%Z ->
      exists N : Z,
        (1 <= N <= blockSize)%Z
        /\ pKCS7Padding data blockSize = Ok (data ++ repeat (byte_of_Z N) (Z.to_nat N))
        /\ ((Z.of_nat (List.length data) + N) mod blockSize = 0)%Z
        /\ ((blockSize < 256)%Z ->
              Z_of_byte (byte_of_Z N) = N
              /\ pKCS7Unpadding (data ++ repeat (byte_of_Z N) (Z.to_nat N))
                                (Z.to_nat blockSize) = Some data)
        /\ ((N mod 256 = 0)%Z ->
              pKCS7Unpadding (data ++ repeat (byte_of_Z N) (Z.to_nat N))
                             (Z.to_nat blockSize) = None)).
Proof.
  split.
  - intros Hb. unfold pKCS7Padding.
    destruct (Z.eqb_spec blockSize 0) as [_ | Hne]; [reflexivity |].
    assert (Hneg : (blockSize < 0)%Z) by lia.
    pose proof (Z.rem_nonneg (Z.of_nat (List.length data)) blockSize ltac:(lia) ltac:(lia)) as R.
    unfold bytes_Repeat.
    replace (blockSize - Z.rem (Z.of_nat (List.length data)) blockSize <? 0)%Z with true
      by (symmetry; apply Z.ltb_lt; lia).
    reflexivity.
  - intros Hb. exists (padLen (List.length data) blockSize).
    pose proof (padLen_range (List.length data) blockSize Hb) as Hr.
    split; [exact Hr |]. split; [apply pKCS7Padding_pos; exact Hb |].
    split; [apply padded_length; exact Hb |]. split.
    + intros H256. split; [apply Z_of_byte_of_Z; lia |].
      apply pKCS7Unpadding_padded; lia.
    + intros H0. set (N := padLen (List.length data) blockSize) in *.
      unfold pKCS7Unpadding. rewrite rev_app_distr, rev_repeat.
      destruct (Z.to_nat N) as [| n] eqn:En; [lia |].
      cbn [repeat app].
      assert (Z0 : Z_of_byte (byte_of_Z N) = 0%Z).
      { unfold byte_of_Z. rewrite H0. reflexivity. }
      rewrite Z0. reflexivity.
Qed.

(** ** The envelope of an encrypted push *)

Section Envelope.

Variable quoteString : string -> list byte.

Lemma encrypted_payload_inv (o : Options) (enc : EncOpt) (payload : list byte) :
  Enc o = Some enc -> preparePayload quoteString o = Ok payload ->
  exists cipherText,
    aesEncrypt (plainBytes quoteString o) enc = Ok cipherText
    /\ payload = encode quoteString [("ciphertext", JString cipherText);
                                     ("device_key", JString (DeviceKey o))]
    /\ (DeviceKeys o <> [] -> DeviceKey o <> ""%string).
Proof.
  intros He Hp.
  destruct (DeviceKeys o) as [| k ks] eqn:Ek.
  - rewrite (preparePayload_nokeys quoteString o enc He Ek) in Hp.
    destruct (aesEncrypt (plainBytes quoteString o) enc) as [ct | e |]; cbn [bind] in Hp;
      try discriminate Hp.
    injection Hp as <-. exists ct. split; [reflexivity |]. split; [reflexivity |].
    intros H. exfalso. apply H. reflexivity.
  - assert (Hne : DeviceKeys o <> []) by (rewrite Ek; discriminate).
    rewrite (preparePayload_keys quoteString o enc He Hne) in Hp.
    destruct (aesEncrypt (plainBytes quoteString o) enc) as [ct | e |]; cbn [bind] in Hp;
      try discriminate Hp.
    destruct (String.eqb_spec (DeviceKey o) "") as [Z | Hk]; [discriminate Hp |].
    injection Hp as <-. exists ct. split; [reflexivity |]. split; [reflexivity |].
    intros _. exact Hk.
Qed.

(** X10.  Whatever [preparePayload] returns for a request with encryption
    is the object of two fields, [ciphertext] and [device_key], in this
    order, the second being the [DeviceKey] of the request as it is; the
    field [device_keys] is never part of it, whatever the list holds. *)
Theorem encrypted_payload_shape (o : Options) (enc : EncOpt) (payload : list byte) :
  Enc o = Some enc -> preparePayload quoteString o = Ok payload ->
  exists cipherText,
    aesEncrypt (plainBytes quoteString o) enc = Ok cipherText
    /\ payload = encode quoteString [("ciphertext", JString cipherText);
                                     ("device_key", JString (DeviceKey o))]
    /\ (DeviceKeys o <> [] -> DeviceKey o <> ""%string).
Proof. exact (encrypted_payload_inv o enc payload). Qed.

End Envelope.

Lemma encrypted_payload_shape_witness :
  exists payload cipherText,
    preparePayload quotePlain scenarioC = Ok payload
    /\ payload = encode quotePlain [("ciphertext", JString cipherText);
                                    ("device_key", JString "a")].
Proof.
  destruct (preparePayload quotePlain scenarioC) as [payload | |] eqn:E;
    [| vm_compute in E; discriminate E | vm_compute in E; discriminate E].
  destruct (encrypted_payload_shape quotePlain scenarioC cbcExample payload eq_refl E)
    as (ct & _ & H & _).
  exists payload, ct. split; [reflexivity | exact H].
Defined.

(** ** The mode is read without regard to case *)

Lemma upper_byte_idem (c : byte) : upper_byte (upper_byte c) = upper_byte c.
Proof.
  destruct c as [[] [] [] [] [] [] [] []]; reflexivity.
Qed.

Lemma ToUpper_idem (s : string) : ToUpper (ToUpper s) = ToUpper s.
Proof.
  induction s as [| c s IH]; [reflexivity |].
  cbn [ToUpper]. rewrite upper_byte_idem, IH. reflexivity.
Qed.

(** X11.  [Validate] and [aesEncrypt] read the mode through
    [strings.ToUpper] only: two specs whose modes differ in case alone,
    with the same key and IV, encrypt to the same text, and [Validate]
    accepts both or neither; writing the mode in upper case changes
    nothing. *)
Theorem mode_case_insensitive (a b : EncOpt) (data : list byte) :
  ToUpper (Mode a) = ToUpper (Mode b) -> Key a = Key b -> Iv a = Iv b ->
  aesEncrypt data a = aesEncrypt data b
  /\ (validateEnc a = None <-> validateEnc b = None)
  /\ aesEncrypt data (mkEncOpt (ToUpper (Mode a)) (Key a) (Iv a)) = aesEncrypt data a.
Proof.
  intros Hm Hk Hi.
  split; [| split].
  - unfold aesEncrypt. rewrite Hm, Hk, Hi. reflexivity.
  - unfold validateEnc. rewrite Hm, Hk, Hi. cbv zeta.
    destruct (_ && _); [split; discriminate |].
    destruct (String.eqb _ EncModeCBC); [reflexivity |].
    destruct (String.eqb _ EncModeGCM); [reflexivity |].
    destruct (String.eqb _ EncModeECB); [reflexivity |].
    split; discriminate.
  - unfold aesEncrypt. cbn [Mode Key Iv]. rewrite ToUpper_idem. reflexivity.
Qed.

Lemma mode_case_insensitive_witness :
  aesEncrypt (bytes_of_string "{}") cbcExample
  = aesEncrypt (bytes_of_string "{}") (mkEncOpt "Cbc" "1234567890abcdef" "1111111111111111").
Proof.
  exact (proj1 (mode_case_insensitive cbcExample
                  (mkEncOpt "Cbc" "1234567890abcdef" "1111111111111111")
                  (bytes_of_string "{}") eq_refl eq_refl eq_refl)).
Defined.

(** ** Client.Push *)

Lemma validateEnc_accepts (enc : EncOpt) :
  validateEnc enc = None ->
  keyLenOK enc /\ knownMode enc
  /\ (ToUpper (Mode enc) = "CBC"%string -> Iv enc <> ""%string)
  /\ (ToUpper (Mode enc) = "GCM"%string -> Iv enc <> ""%string).
Proof.
  intros H.
  destruct (keyLenOK_dec enc) as [Hk | Hk].
  2: { rewrite (validateEnc_keyLen enc Hk) in H. discriminate H. }
  rewrite (validateEnc_keyOK enc Hk) in H. cbv zeta in H.
  split; [exact Hk |]. unfold knownMode.
  destruct (String.eqb_spec (ToUpper (Mode enc)) EncModeCBC) as [Ec | Nc].
  { split; [left; exact Ec |]. split.
    - intros _ Z. rewrite Z in H. discriminate H.
    - intros G. rewrite G in Ec. discriminate Ec. }
  destruct (String.eqb_spec (ToUpper (Mode enc)) EncModeGCM) as [Eg | Ng].
  { split; [right; right; exact Eg |]. split.
    - intros C. contradiction.
    - intros _ Z. rewrite Z in H. discriminate H. }
  destruct (String.eqb_spec (ToUpper (Mode enc)) EncModeECB) as [Ee | Ne].
  { split; [right; left; exact Ee |]. split; intros C; contradiction. }
  discriminate H.
Qed.

(** The errors [Validate] returns. *)
Definition validateError (o : Options) (e : error) : Prop :=
  e = errDeviceKeyRequired \/ e = errContentRequired \/ e = errKeyLength
  \/ e = errCBCRequiresIV \/ e = errGCMRequiresNonce
  \/ exists enc, Enc o = Some enc /\ e = errUnsupportedMode (Mode enc).

Lemma Validate_errors (o : Options) (e : error) :
  Validate o = Some e -> validateError o e.
Proof.
  unfold Validate, validateError.
  destruct (_ && _); [intros [= <-]; tauto |].
  destruct (_ && _); [intros [= <-]; tauto |].
  destruct (Enc o) as [enc |]; [| discriminate].
  unfold validateEnc.
  destruct (_ && _); [intros [= <-]; tauto |]. cbv zeta.
  destruct (String.eqb _ EncModeCBC).
  { destruct (_ =? 0)%nat; [intros [= <-]; tauto | discriminate]. }
  destruct (String.eqb _ EncModeGCM).
  { destruct (_ =? 0)%nat; [intros [= <-]; tauto | discriminate]. }
  destruct (String.eqb _ EncModeECB); [discriminate |].
  intros [= <-]. right. right. right. right. right. exists enc. split; reflexivity.
Qed.

Section PushFacts.

Variable quoteString : string -> list byte.
Variable urlParse : string -> option error.
Variable Do : httpClient -> Request -> res Response.
Variable Unmarshal : list byte -> option (Z * string).

Let push := Push quoteString urlParse Do Unmarshal.

(** The request [Push] builds from a payload. *)
Definition pushRequest (c : Client) (payload : list byte) : Request :=
  mkRequest "POST" (ServerURL c ++ "/push")
            [("Content-Type", "application/json; charset=utf-8")] payload.

(** What [Push] makes of a response. *)
Definition pushResult (resp : Response) : res unit :=
  match ReadAll resp with
  | (_, Some err) => Err err
  | (respBody, None) =>
      match Unmarshal respBody with
      | None => Err (errStatus (StatusCode resp) respBody)
      | Some (code, message) =>
          if negb (code =? 200)%Z then Err (errBark code message) else Ok tt
      end
  end.

Lemma Push_steps (c : Client) (o : Options) :
  push c o =
    match Validate o with
    | Some err => (Err err, [])
    | None =>
        match preparePayload quoteString o with
        | Err err => (Err err, [])
        | Panic => (Panic, [])
        | Ok payload =>
            match urlParse (ServerURL c ++ "/push") with
            | Some err => (Err err, [])
            | None =>
                match HTTPClient c with
                | None => (Panic, [])
                | Some hc =>
                    match Do hc (pushRequest c payload) with
                    | Err err => (Err err, [Sent hc (pushRequest c payload)])
                    | Panic => (Panic, [Sent hc (pushRequest c payload)])
                    | Ok resp =>
                        (pushResult resp, [Sent hc (pushRequest c payload); Closed resp])
                    end
                end
            end
        end
    end.
Proof.
  unfold push, Push, NewRequest, pushRequest, pushResult.
  destruct (Validate o); [reflexivity |].
  destruct (preparePayload quoteString o); try reflexivity.
  destruct (urlParse _); reflexivity.
Qed.

(** X12.  What [Push] sends.  Nothing at all unless [Validate] accepts the
    request, [preparePayload] returns a payload, the URL parses and the
    client has an HTTP client; then one POST to [ServerURL + "/push"] with
    the JSON content type and the payload as its body, and nothing more.
    When a response comes back its body is closed, on every path. *)
Theorem Push_trace (c : Client) (o : Options) :
  match snd (push c o) with
  | [] =>
      Validate o <> None
      \/ (forall payload, preparePayload quoteString o <> Ok payload)
      \/ urlParse (ServerURL c ++ "/push") <> None
      \/ HTTPClient c = None
  | Sent hc req :: rest =>
      Validate o = None
      /\ preparePayload quoteString o = Ok (RequestBody req)
      /\ urlParse (RequestURL req) = None
      /\ HTTPClient c = Some hc
      /\ Method req = "POST"%string
      /\ RequestURL req = (ServerURL c ++ "/push")%string
      /\ Header req = [("Content-Type", "application/json; charset=utf-8")%string]
      /\ match Do hc req with
         | Ok resp => rest = [Closed resp]
         | _ => rest = []
         end
  | Closed _ :: _ => False
  end.
Proof.
  rewrite Push_steps.
  destruct (Validate o) as [e |] eqn:EV; [left; discriminate |].
  destruct (preparePayload quoteString o) as [payload | e |] eqn:EP;
    [| right; left; intros p; discriminate | right; left; intros p; discriminate].
  destruct (urlParse (ServerURL c ++ "/push")) as [e |] eqn:EU;
    [right; right; left; discriminate |].
  destruct (HTTPClient c) as [hc |] eqn:EH; [| right; right; right; reflexivity].
  destruct (Do hc (pushRequest c payload)) as [resp | e |] eqn:ED; cbn [snd];
    rewrite ?ED; repeat split; try reflexivity; exact EU.
Qed.

(** X13.  [Push] returns nil exactly when a response came back whose body
    could be read and parsed and holds the code 200; the HTTP status of
    the response plays no part in it. *)
Theorem Push_nil (c : Client) (o : Options) :
  fst (push c o) = Ok tt
  <-> exists hc req resp body message,
        snd (push c o) = [Sent hc req; Closed resp]
        /\ Do hc req = Ok resp
        /\ ReadAll resp = (body, None)
        /\ Unmarshal body = Some (200%Z, message).
Proof.
  rewrite Push_steps.
  destruct (Validate o) as [e |] eqn:EV.
  { split; [discriminate | intros (? & ? & ? & ? & ? & H & _); discriminate H]. }
  destruct (preparePayload quoteString o) as [payload | e |] eqn:EP;
    try (split; [discriminate | intros (? & ? & ? & ? & ? & H & _); discriminate H]).
  destruct (urlParse (ServerURL c ++ "/push")) as [e |] eqn:EU;
    try (split; [discriminate | intros (? & ? & ? & ? & ? & H & _); discriminate H]).
  destruct (HTTPClient c) as [hc |] eqn:EH;
    try (split; [discriminate | intros (? & ? & ? & ? & ? & H & _); discriminate H]).
  destruct (Do hc (pushRequest c payload)) as [resp | e |] eqn:ED;
    try (split; [discriminate | intros (? & ? & ? & ? & ? & H & _); discriminate H]).
  cbn [fst snd]. unfold pushResult. split.
  - intros H. destruct (ReadAll resp) as [body [e |]] eqn:ER; [discriminate H |].
    destruct (Unmarshal body) as [[code message] |] eqn:EM; [| discriminate H].
    destruct (Z.eqb_spec code 200) as [-> | Hne]; [| discriminate H].
    exists hc, (pushRequest c payload), resp, body, message.
    repeat split; assumption.
  - intros (hc' & req & resp' & body & message & Ht & _ & ER & EM).
    injection Ht as <- <- <-. rewrite ER, EM. reflexivity.
Qed.

(** X14.  The errors [Push] returns without having sent anything are those
    of [Validate], an IV or nonce of the wrong length, the missing routing
    key, and a URL that does not parse.  The key-size error of
    [aes.NewCipher] and the unsupported-mode error of [aesEncrypt] never
    come out of [Push]: [Validate] has refused such requests before. *)
Theorem Push_errors_before_sending (c : Client) (o : Options) (e : error) :
  push c o = (Err e, []) ->
  validateError o e
  \/ e = errCBCIVLength 16
  \/ e = errGCMNonceLength
  \/ e = errMissingRoutingKey
  \/ urlParse (ServerURL c ++ "/push") = Some e.
Proof.
  rewrite Push_steps.
  destruct (Validate o) as [e' |] eqn:EV.
  { intros [= <-]. left. apply Validate_errors. exact EV. }
  destruct (preparePayload quoteString o) as [payload | e' |] eqn:EP.
  - destruct (urlParse _) as [e' |]; [intros [= <-]; tauto |].
    destruct (HTTPClient c) as [hc |]; [| discriminate].
    destruct (Do hc _); discriminate.
  - intros [= <-]. right.
    rewrite preparePayload_steps in EP.
    destruct (Enc o) as [enc |] eqn:EE; [| discriminate EP].
    assert (HV : validateEnc enc = None).
    { unfold Validate in EV. rewrite EE in EV.
      destruct (_ && _); [discriminate EV |]. destruct (_ && _); [discriminate EV |].
      exact EV. }
    destruct (validateEnc_accepts enc HV) as (Hk & Hm & _).
    pose proof (aesEncrypt_outcome_of (plainBytes quoteString o) enc) as O.
    destruct (aesEncrypt (plainBytes quoteString o) enc) as [ct | e'' |] eqn:EA;
      cbn [bind] in EP.
    + destruct (routingEnvelope (DeviceKey o) (DeviceKeys o) ct) as [env | e'' |] eqn:ER;
        cbn [bind] in EP; try discriminate EP.
      injection EP as <-. unfold routingEnvelope in ER. cbv zeta in ER.
      repeat match type of ER with
             | context [if ?b then _ else _] => destruct b
             end; try discriminate ER.
      injection ER as <-. tauto.
    + injection EP as <-.
      inversion O; subst; try contradiction; tauto.
    + discriminate EP.
  - discriminate.
Qed.

(** X15.  With encryption, an empty [DeviceKey] and a list of keys, [Push]
    sends nothing and returns an error, although [Validate] may well have
    accepted the request: such a push never reaches the server. *)
Theorem Push_keys_only_never_sent (c : Client) (o : Options) (enc : EncOpt) :
  Enc o = Some enc -> DeviceKey o = ""%string -> DeviceKeys o <> [] ->
  snd (push c o) = [] /\ fst (push c o) <> Ok tt
  /\ (Validate o = None ->
      forall cipherText, aesEncrypt (plainBytes quoteString o) enc = Ok cipherText ->
        push c o = (Err errMissingRoutingKey, [])).
Proof.
  intros He Hk Hks. rewrite Push_steps.
  rewrite (preparePayload_keys quoteString o enc He Hks), Hk. cbn [String.eqb].
  destruct (Validate o) as [e |].
  { split; [reflexivity |]. split; [discriminate | discriminate]. }
  destruct (aesEncrypt (plainBytes quoteString o) enc) as [ct | e |]; cbn [bind];
    (split; [reflexivity |]); (split; [discriminate |]); intros _ ct' E;
    try discriminate E; reflexivity.
Qed.

End PushFacts.

Lemma Push_errors_before_sending_witness :
  Push quotePlain (fun _ => None) (fun _ _ => Panic) (fun _ => None) DefaultClient scenarioD
  = (Err errDeviceKeyRequired, [])
  /\ validateError scenarioD errDeviceKeyRequired.
Proof.
  assert (E : Push quotePlain (fun _ => None) (fun _ _ => Panic) (fun _ => None)
                DefaultClient scenarioD = (Err errDeviceKeyRequired, []))
    by reflexivity.
  split; [exact E |].
  destruct (Push_errors_before_sending _ _ _ _ _ _ _ E) as [H | [H | [H | [H | H]]]];
    [exact H | discriminate H | discriminate H | discriminate H | discriminate H].
Defined.

Lemma Push_keys_only_never_sent_witness :
  Validate keysOnly = None
  /\ Push quotePlain (fun _ => None) (fun _ _ => Panic) (fun _ => None) DefaultClient keysOnly
     = (Err errMissingRoutingKey, []).
Proof.
  split; [reflexivity |].
  destruct (Push_keys_only_never_sent quotePlain (fun _ => None) (fun _ _ => Panic)
              (fun _ => None) DefaultClient keysOnly cbcExample eq_refl eq_refl
              ltac:(discriminate)) as (_ & _ & H).
  destruct (aesEncrypt (plainBytes quotePlain keysOnly) cbcExample) as [ct | |] eqn:E;
    [| vm_compute in E; discriminate E | vm_compute in E; discriminate E].
  exact (H eq_refl ct eq_refl).
Defined.

(** ** The JSON of a request *)

(** What [omitempty] leaves of a field. *)
Definition omitEmptyString (v : string) : option jvalue :=
  if String.eqb v "" then None else Some (JString v).

Definition omitEmptyStrings (v : list string) : option jvalue :=
  match v with
  | [] => None
  | _ :: _ => Some (JStrings v)
  end.

Definition omitNil (v : option Z) : option jvalue :=
  match v with
  | None => None
  | Some z => Some (JNumber z)
  end.

Lemma mapGet_fieldString_other (k name value : string) :
  String.eqb name k = false -> mapGet k (fieldString name value) = None.
Proof. intros H. rewrite mapGet_fieldString, H. reflexivity. Qed.

Lemma mapGet_fieldString_same (name value : string) :
  mapGet name (fieldString name value) = omitEmptyString value.
Proof.
  rewrite mapGet_fieldString, String.eqb_refl. unfold omitEmptyString.
  destruct (String.eqb value ""); reflexivity.
Qed.

Lemma mapGet_fieldStrings_same (name : string) (value : list string) :
  mapGet name (fieldStrings name value) = omitEmptyStrings value.
Proof.
  destruct value; cbn [fieldStrings mapGet omitEmptyStrings]; [reflexivity |].
  rewrite String.eqb_refl. reflexivity.
Qed.

Lemma mapGet_fieldIntPtr_same (name : string) (value : option Z) :
  mapGet name (fieldIntPtr name value) = omitNil value.
Proof.
  destruct value; cbn [fieldIntPtr mapGet omitNil]; [| reflexivity].
  rewrite String.eqb_refl. reflexivity.
Qed.

Lemma mapGet_app_hit (k : string) (x y : jobject) (v : option jvalue) :
  mapGet k x = v -> mapGet k y = None -> mapGet k (x ++ y) = v.
Proof. intros Hx Hy. rewrite mapGet_app, Hx, Hy. destruct v; reflexivity. Qed.

Lemma mapGet_app_miss (k : string) (x y : jobject) :
  mapGet k x = None -> mapGet k (x ++ y) = mapGet k y.
Proof. intros Hx. rewrite mapGet_app, Hx. reflexivity. Qed.

Ltac field_other :=
  first [ apply mapGet_fieldString_other | apply mapGet_fieldStrings_other
        | apply mapGet_fieldIntPtr_other ].

Ltac field_same :=
  first [ apply mapGet_fieldString_same | apply mapGet_fieldStrings_same
        | apply mapGet_fieldIntPtr_same ].

(** No field after the current one has the name looked up. *)
Ltac rest_none :=
  repeat (rewrite mapGet_app_miss by (field_other; reflexivity));
  field_other; reflexivity.

Ltac lookup :=
  unfold jsonOfOptions;
  repeat (rewrite mapGet_app_miss by (field_other; reflexivity));
  first [ field_same | apply mapGet_app_hit; [field_same | rest_none] ].

(** The JSON names of the fields of [Options]. *)
Definition fieldNames : list string := "device_key" :: "device_keys" :: contentFields.

Section PlainPayload.

Variable quoteString : string -> list byte.

(** X16.  The JSON object of a request holds a field exactly when it is not
    empty: a string that is not [""], a list of keys that is not empty, a
    pointer that is not nil (a badge of 0 is written).  Looking a name up
    gives the field of that name, and no other name occurs; without
    encryption this object, routing keys included, is the payload, and
    [preparePayload] cannot fail. *)
Theorem jsonOfOptions_lookup (o : Options) :
  let obj := jsonOfOptions o in
  mapGet "device_key" obj = omitEmptyString (DeviceKey o)
  /\ mapGet "device_keys" obj = omitEmptyStrings (DeviceKeys o)
  /\ mapGet "title" obj = omitEmptyString (Title o)
  /\ mapGet "body" obj = omitEmptyString (Body o)
  /\ mapGet "markdown" obj = omitEmptyString (Markdown o)
  /\ mapGet "subtitle" obj = omitEmptyString (Subtitle o)
  /\ mapGet "group" obj = omitEmptyString (Group o)
  /\ mapGet "url" obj = omitEmptyString (URL o)
  /\ mapGet "icon" obj = omitEmptyString (Icon o)
  /\ mapGet "sound" obj = omitEmptyString (Sound o)
  /\ mapGet "badge" obj = omitNil (Badge o)
  /\ mapGet "level" obj = omitEmptyString (Level o)
  /\ mapGet "copy" obj = omitEmptyString (Copy o)
  /\ mapGet "autoCopy" obj = omitEmptyString (AutoCopy o)
  /\ mapGet "isArchive" obj = omitNil (IsArchive o)
  /\ mapGet "call" obj = omitEmptyString (Call o)
  /\ mapGet "volume" obj = omitNil (Volume o)
  /\ mapGet "action" obj = omitEmptyString (Action o)
  /\ mapGet "id" obj = omitEmptyString (ID o)
  /\ mapGet "delete" obj = omitEmptyString (Delete o)
  /\ (forall k, ~ In k fieldNames -> mapGet k obj = None)
  /\ (Enc o = None -> preparePayload quoteString o = Ok (encode quoteString obj)).
Proof.
  cbv zeta.
  do 20 (split; [lookup |]).
  split.
  - intros k Hk. unfold jsonOfOptions.
    assert (N : forall name, In name fieldNames -> String.eqb name k = false).
    { intros name Hin. apply String.eqb_neq. intros ->. exact (Hk Hin). }
    repeat (rewrite mapGet_app_miss
              by (field_other; apply N; unfold fieldNames, contentFields; simpl; tauto)).
    field_other. apply N. unfold fieldNames, contentFields. simpl. tauto.
  - intros He. unfold preparePayload. rewrite He. reflexivity.
Qed.

End PlainPayload.

(** ** The blocks of GHASH form a field *)

(** The block of the polynomial 1: the first bit set. *)
Definition oneBlock : list byte := "128"%char :: repeat zero 15.

Module GHASHField.
Import GCM GCMFacts GF GFFacts GHASHFacts.

Lemma bits_gfmul (x y : list byte) :
  List.length y = 16%nat ->
  bits_of_bytes (gfmul x y) = mul (bits_of_bytes x) (bits_of_bytes y).
Proof.
  intros Hy. rewrite gfmul_mul. apply (bits_of_bytes_of_bits 16).
  apply mul_128. apply bits_128. exact Hy.
Qed.

Lemma bytes_eq_bits (x y : list byte) : bits_of_bytes x = bits_of_bytes y -> x = y.
Proof.
  intros E. apply (f_equal bytes_of_bits) in E.
  rewrite !bytes_of_bits_of_bytes in E. exact E.
Qed.

Lemma bits_XORBytes (x y : list byte) :
  bits_of_bytes (XORBytes x y) = xor_bits (bits_of_bytes x) (bits_of_bytes y).
Proof.
  revert y. induction x as [| a x IH]; intros [| c y]; try reflexivity.
  - destruct a. reflexivity.
  - cbn [XORBytes]. unfold bits_of_bytes in *. cbn [flat_map].
    rewrite IH. destruct a, c. reflexivity.
Qed.

(** X17.  Under [gfmul] and [XORBytes] the 16-byte blocks are a field:
    the product is commutative and associative, has a unit, distributes
    over the sum, and every block but zero has an inverse. *)
Theorem gfmul_field (x y z : list byte) :
  List.length x = 16%nat -> List.length y = 16%nat -> List.length z = 16%nat ->
  gfmul x y = gfmul y x
  /\ gfmul (gfmul x y) z = gfmul x (gfmul y z)
  /\ gfmul x oneBlock = x
  /\ gfmul x (XORBytes y z) = XORBytes (gfmul x y) (gfmul x z)
  /\ (x <> zeroBlock -> exists x', List.length x' = 16%nat /\ gfmul x x' = oneBlock).
Proof.
  intros Hx Hy Hz.
  pose proof (bits_128 x Hx) as Bx. pose proof (bits_128 y Hy) as By.
  pose proof (bits_128 z Hz) as Bz.
  split; [| split; [| split; [| split]]].
  - apply bytes_eq_bits. rewrite !bits_gfmul by assumption. apply mul_comm; assumption.
  - apply bytes_eq_bits.
    rewrite !bits_gfmul by (try apply gfmul_length; assumption).
    apply mul_assoc; assumption.
  - apply bytes_eq_bits. rewrite bits_gfmul by reflexivity.
    change (bits_of_bytes oneBlock) with oneV. apply mul_one_r. exact Bx.
  - apply bytes_eq_bits.
    rewrite bits_gfmul by (rewrite XORBytes_length, Hy, Hz; reflexivity).
    rewrite !bits_XORBytes, !bits_gfmul by assumption.
    apply mul_add_r; assumption.
  - intros Hnz.
    assert (Bnz : bits_of_bytes x <> zeroV).
    { intros Z. apply Hnz. apply bytes_eq_bits. exact Z. }
    exists (bytes_of_bits (inv (bits_of_bytes x))).
    pose proof (inv_128 _ Bx) as Bi.
    split; [apply (bytes_of_bits_length 16); exact Bi |].
    apply bytes_eq_bits.
    rewrite bits_gfmul by (apply (bytes_of_bits_length 16); exact Bi).
    rewrite (bits_of_bytes_of_bits 16) by exact Bi.
    change (bits_of_bytes oneBlock) with oneV. apply mul_inv; assumption.
Qed.

End GHASHField.

Lemma gfmul_field_witness :
  exists x', GCM.gfmul (bytes_of_string "0123456789abcdef") x' = oneBlock.
Proof.
  destruct (GHASHField.gfmul_field (bytes_of_string "0123456789abcdef")
              GCM.zeroBlock GCM.zeroBlock eq_refl eq_refl eq_refl)
    as (_ & _ & _ & _ & H).
  destruct (H ltac:(discriminate)) as (x' & _ & E).
  exists x'. exact E.
Defined.

(** ** src/bark.go: handleOpt and Push *)

Module BarkGoFacts.
Import BarkGo.

(** A value brought into the range from [lo] to [hi]. *)
Definition clamp (lo hi v : Z) : Z := Z.max lo (Z.min hi v).

Definition wellFormed (o : Options) : Prop :=
  Title o <> ""%string /\ Token o <> ""%string.

Lemma options_eta (o : Options) :
  o = mkOptions (OptClient o) (Token o) (Title o) (Msg o) (Group o) (URL o) (Level o)
                (Copy o) (AutoCopy o) (Sound o) (Icon o) (Badge o) (IsArchive o) (Call o)
                (Volume o) (Enc o).
Proof. destruct o. reflexivity. Qed.

Lemma clampIsArchive_set (o : Options) :
  clampIsArchive o = setIsArchive o (clamp 0 1 (IsArchive o)).
Proof.
  unfold clampIsArchive, clamp, setIsArchive.
  destruct (Z.eqb_spec (IsArchive o) 0) as [E | E]; cbn [negb].
  - rewrite E. cbn. rewrite <- E. apply options_eta.
  - destruct (Z.ltb_spec (IsArchive o) 0) as [L | L].
    + replace (Z.max 0 (Z.min 1 (IsArchive o))) with 0%Z by lia. reflexivity.
    + destruct (Z.ltb_spec 1 (IsArchive o)) as [G | G].
      * replace (Z.max 0 (Z.min 1 (IsArchive o))) with 1%Z by lia. reflexivity.
      * replace (Z.max 0 (Z.min 1 (IsArchive o))) with (IsArchive o) by lia.
        apply options_eta.
Qed.

Lemma clampCall_set (o : Options) :
  clampCall o = setCall o (clamp 0 1 (Call o)).
Proof.
  unfold clampCall, clamp, setCall.
  destruct (Z.eqb_spec (Call o) 0) as [E | E]; cbn [negb].
  - rewrite E. cbn. rewrite <- E. apply options_eta.
  - destruct (Z.ltb_spec (Call o) 0) as [L | L].
    + replace (Z.max 0 (Z.min 1 (Call o))) with 0%Z by lia. reflexivity.
    + destruct (Z.ltb_spec 1 (Call o)) as [G | G].
      * replace (Z.max 0 (Z.min 1 (Call o))) with 1%Z by lia. reflexivity.
      * replace (Z.max 0 (Z.min 1 (Call o))) with (Call o) by lia.
        apply options_eta.
Qed.

Lemma clampVolume_at (o : Options) (m : store) (q : nat) :
  clampVolume o m q
  = match Volume o with
    | Some p =>
        if String.eqb (Level o) "critical" && (q =? p)%nat then clamp 0 10 (m p) else m q
    | None => m q
    end.
Proof.
  unfold clampVolume, clamp, storeAt, load.
  destruct (Volume o) as [p |]; [| reflexivity].
  destruct (String.eqb (Level o) "critical"); [| reflexivity]. cbn [andb].
  destruct (Z.ltb_spec (m p) 0) as [L | L].
  - replace (Z.max 0 (Z.min 10 (m p))) with 0%Z by lia. reflexivity.
  - destruct (Z.ltb_spec 10 (m p)) as [G | G].
    + replace (Z.max 0 (Z.min 10 (m p))) with 10%Z by lia. reflexivity.
    + replace (Z.max 0 (Z.min 10 (m p))) with (m p) by lia.
      destruct (Nat.eqb_spec q p) as [-> | _]; reflexivity.
Qed.

Lemma clamp_idem (lo hi v : Z) : (lo <= hi)%Z -> clamp lo hi (clamp lo hi v) = clamp lo hi v.
Proof. unfold clamp. lia. Qed.

Lemma clamp_range (lo hi v : Z) : (lo <= hi)%Z -> (lo <= clamp lo hi v <= hi)%Z.
Proof. unfold clamp. lia. Qed.

(** The request as [handleOpt] leaves it. *)
Definition clamped (o : Options) : Options := clampCall (clampIsArchive o).

Lemma clamped_set (o : Options) :
  clamped o = setCall (setIsArchive o (clamp 0 1 (IsArchive o))) (clamp 0 1 (Call o)).
Proof. unfold clamped. rewrite clampIsArchive_set, clampCall_set. reflexivity. Qed.

Lemma clamped_idem (o : Options) : clamped (clamped o) = clamped o.
Proof.
  rewrite !clamped_set. unfold setCall, setIsArchive. cbn.
  rewrite !clamp_idem by lia. reflexivity.
Qed.

Lemma clampVolume_clamped (o : Options) (m : store) :
  clampVolume (clamped o) m = clampVolume o m.
Proof. rewrite clamped_set. reflexivity. Qed.

Lemma clampVolume_idem (o : Options) (m : store) :
  clampVolume o (clampVolume o m) = clampVolume o m.
Proof.
  unfold clampVolume, storeAt, load.
  destruct (Volume o) as [p |]; [| reflexivity].
  destruct (String.eqb (Level o) "critical"); [| reflexivity].
  destruct (Z.ltb_spec (m p) 0) as [L | L].
  - rewrite Nat.eqb_refl. reflexivity.
  - destruct (Z.ltb_spec 10 (m p)) as [G | G].
    + rewrite Nat.eqb_refl. reflexivity.
    + destruct (Z.ltb_spec (m p) 0); [lia |].
      destruct (Z.ltb_spec 10 (m p)); [lia |]. reflexivity.
Qed.

Section Package.

Variable quoteString : string -> list byte.
Variable ECB CBC : string.
Variable Cryptobin : Type.
Variable encryptECB : string -> list byte -> Cryptobin.
Variable encryptCBC : string -> string -> list byte -> Cryptobin.
Variable Error : Cryptobin -> option error.
Variable ToBase64String : Cryptobin -> string.

Let barkEncrypt := barkEncrypt ECB CBC Cryptobin encryptECB encryptCBC Error ToBase64String.
Let handleOpt :=
  handleOpt quoteString ECB CBC Cryptobin encryptECB encryptCBC Error ToBase64String.

(** The text [handleOpt] returns for a request that is in range. *)
Definition payloadOf (o : Options) (m : store) : res string :=
  let b := encode quoteString (jsonOfOptions m o) in
  match Enc o with
  | Some enc =>
      c <- barkEncrypt enc b ;;
      Ok (string_of_bytes (encode quoteString [("ciphertext", JString c)]))
  | None => Ok (string_of_bytes b)
  end.

Lemma handleOpt_steps (o : Options) (m : store) :
  wellFormed o ->
  handleOpt o m = (payloadOf (clamped o) (clampVolume o m), clamped o, clampVolume o m).
Proof.
  intros [Ht Hk]. unfold handleOpt, BarkGo.handleOpt.
  replace (String.eqb (Title o) "") with false by (symmetry; apply String.eqb_neq; exact Ht).
  replace (String.eqb (Token o) "") with false by (symmetry; apply String.eqb_neq; exact Hk).
  cbv zeta. fold (clamped o). unfold payloadOf. fold barkEncrypt.
  destruct (Enc (clamped o)) as [enc |]; [| reflexivity].
  destruct (barkEncrypt enc _) as [c | e |]; reflexivity.
Qed.

Lemma wellFormed_clamped (o : Options) : wellFormed o -> wellFormed (clamped o).
Proof. rewrite clamped_set. exact (fun H => H). Qed.

(** X18.  [handleOpt] refuses a request without title, then one without
    token, and leaves both untouched.  Any other request it brings into
    range in place, whether or not the encryption then fails: [IsArchive]
    and [Call] into 0..1, and, at level [critical], the int behind
    [Volume] into 0..10; no other field and no other int changes. *)
Theorem handleOpt_clamps (o : Options) (m : store) :
  (Title o = ""%string -> handleOpt o m = (Err errTitleEmpty, o, m))
  /\ (Title o <> ""%string -> Token o = ""%string ->
        handleOpt o m = (Err errTokenEmpty, o, m))
  /\ (wellFormed o ->
      exists r o' m',
        handleOpt o m = (r, o', m')
        /\ o' = setCall (setIsArchive o (clamp 0 1 (IsArchive o))) (clamp 0 1 (Call o))
        /\ (0 <= IsArchive o' <= 1)%Z /\ (0 <= Call o' <= 1)%Z
        /\ (forall p, Volume o = Some p -> Level o = "critical"%string ->
              m' p = clamp 0 10 (m p) /\ (0 <= m' p <= 10)%Z)
        /\ (forall q, Volume o <> Some q -> m' q = m q)
        /\ (Level o <> "critical"%string -> forall q, m' q = m q)).
Proof.
  split; [| split].
  - intros Ht. unfold handleOpt, BarkGo.handleOpt. rewrite Ht. reflexivity.
  - intros Ht Hk. unfold handleOpt, BarkGo.handleOpt. rewrite Hk.
    replace (String.eqb (Title o) "") with false by (symmetry; apply String.eqb_neq; exact Ht).
    reflexivity.
  - intros Hw. rewrite (handleOpt_steps o m Hw).
    eexists _, _, _. split; [reflexivity |].
    split; [apply clamped_set |].
    rewrite clamped_set. cbn [IsArchive Call setCall setIsArchive].
    split; [apply clamp_range; lia |]. split; [apply clamp_range; lia |].
    split; [| split].
    + intros p Hp Hl. rewrite clampVolume_at, Hp, Hl, Nat.eqb_refl. cbn.
      split; [reflexivity | apply clamp_range; lia].
    + intros q Hq. rewrite clampVolume_at.
      destruct (Volume o) as [p |]; [| reflexivity].
      destruct (Nat.eqb_spec q p) as [-> | _]; [congruence |].
      rewrite andb_false_r. reflexivity.
    + intros Hl q. rewrite clampVolume_at.
      destruct (Volume o) as [p |]; [| reflexivity].
      replace (String.eqb (Level o) "critical") with false
        by (symmetry; apply String.eqb_neq; exact Hl).
      reflexivity.
Qed.

(** X19.  A second run of [handleOpt] on the request and the store that the
    first left returns the same and changes nothing. *)
Theorem handleOpt_idempotent (o o' : Options) (m m' : store) (r : res string) :
  handleOpt o m = (r, o', m') -> handleOpt o' m' = (r, o', m').
Proof.
  intros H. unfold handleOpt, BarkGo.handleOpt in H.
  destruct (String.eqb (Title o) "") eqn:Et.
  { injection H as <- <- <-. unfold handleOpt, BarkGo.handleOpt. rewrite Et. reflexivity. }
  destruct (String.eqb (Token o) "") eqn:Ek.
  { injection H as <- <- <-. unfold handleOpt, BarkGo.handleOpt. rewrite Et, Ek.
    reflexivity. }
  assert (Hw : wellFormed o).
  { split; apply String.eqb_neq; assumption. }
  fold (BarkGo.handleOpt quoteString ECB CBC Cryptobin encryptECB encryptCBC Error
          ToBase64String o m) in H.
  clear Et Ek.
  assert (H' : handleOpt o m = (r, o', m')).
  { unfold handleOpt, BarkGo.handleOpt.
    destruct Hw as [Ht Hk].
    replace (String.eqb (Title o) "") with false by (symmetry; apply String.eqb_neq; exact Ht).
    replace (String.eqb (Token o) "") with false by (symmetry; apply String.eqb_neq; exact Hk).
    exact H. }
  rewrite (handleOpt_steps o m Hw) in H'. injection H' as <- <- <-.
  rewrite (handleOpt_steps _ _ (wellFormed_clamped o Hw)).
  rewrite clamped_idem, clampVolume_clamped, clampVolume_idem. reflexivity.
Qed.

End Package.

End BarkGoFacts.

Module BarkGoJSON.
Import BarkGo BarkGoFacts.

Lemma lookup_app (k : string) (x y : jobject) :
  lookup k (x ++ y) = match lookup k x with Some v => Some v | None => lookup k y end.
Proof.
  induction x as [| [k' v'] x IH]; [reflexivity |].
  cbn [app lookup]. destruct (String.eqb k' k); [reflexivity | exact IH].
Qed.

Lemma lookup_app_hit (k : string) (x y : jobject) (v : option jvalue) :
  lookup k x = v -> lookup k y = None -> lookup k (x ++ y) = v.
Proof. intros Hx Hy. rewrite lookup_app, Hx, Hy. destruct v; reflexivity. Qed.

Lemma lookup_app_miss (k : string) (x y : jobject) :
  lookup k x = None -> lookup k (x ++ y) = lookup k y.
Proof. intros Hx. rewrite lookup_app, Hx. reflexivity. Qed.

(** What the tag of a field leaves of it. *)
Definition keepString (v : string) : option jvalue :=
  if String.eqb v "" then None else Some (JString v).

Definition keepQuoted (v : Z) : option jvalue :=
  if (v =? 0)%Z then None else Some (JQuoted v).

Lemma lookup_always (k name value : string) :
  lookup k (always name value) = if String.eqb name k then Some (JString value) else None.
Proof. reflexivity. Qed.

Lemma lookup_omitString (k name value : string) :
  lookup k (omitString name value) = if String.eqb name k then keepString value else None.
Proof.
  unfold omitString, keepString. destruct (String.eqb value ""); cbn [lookup];
    destruct (String.eqb name k); reflexivity.
Qed.

Lemma lookup_omitStringPtr (k name : string) (value : option string) :
  lookup k (omitStringPtr name value)
  = if String.eqb name k then option_map JString value else None.
Proof.
  destruct value; cbn [omitStringPtr lookup option_map]; destruct (String.eqb name k);
    reflexivity.
Qed.

Lemma lookup_omitBoolPtr (k name : string) (value : option bool) :
  lookup k (omitBoolPtr name value)
  = if String.eqb name k then option_map JBool value else None.
Proof.
  destruct value; cbn [omitBoolPtr lookup option_map]; destruct (String.eqb name k);
    reflexivity.
Qed.

Lemma lookup_omitIntPtr (m : store) (k name : string) (value : intPtr) :
  lookup k (omitIntPtr m name value)
  = if String.eqb name k then option_map (fun p => JNumber (m p)) value else None.
Proof.
  destruct value; cbn [omitIntPtr lookup option_map]; destruct (String.eqb name k);
    reflexivity.
Qed.

Lemma lookup_omitQuotedInt (k name : string) (value : Z) :
  lookup k (omitQuotedInt name value) = if String.eqb name k then keepQuoted value else None.
Proof.
  unfold omitQuotedInt, keepQuoted. destruct (value =? 0)%Z; cbn [lookup];
    destruct (String.eqb name k); reflexivity.
Qed.

Lemma lookup_omitQuotedIntPtr (m : store) (k name : string) (value : intPtr) :
  lookup k (omitQuotedIntPtr m name value)
  = if String.eqb name k then option_map (fun p => JQuoted (m p)) value else None.
Proof.
  destruct value; cbn [omitQuotedIntPtr lookup option_map]; destruct (String.eqb name k);
    reflexivity.
Qed.

(** The JSON names of the fields of [Options]. *)
Definition fieldNames : list string :=
  ["title"; "body"; "group"; "url"; "level"; "copy"; "autoCopy"; "sound"; "icon"; "badge";
   "isArchive"; "call"; "volume"].

Ltac lookup_field :=
  rewrite ?lookup_always, ?lookup_omitString, ?lookup_omitStringPtr, ?lookup_omitBoolPtr,
    ?lookup_omitIntPtr, ?lookup_omitQuotedInt, ?lookup_omitQuotedIntPtr.

Lemma jsonOfOptions_fields (m : store) (o : Options) :
  let obj := jsonOfOptions m o in
  lookup "title" obj = Some (JString (Title o))
  /\ lookup "body" obj = keepString (Msg o)
  /\ lookup "group" obj = keepString (Group o)
  /\ lookup "url" obj = keepString (URL o)
  /\ lookup "level" obj = keepString (Level o)
  /\ lookup "copy" obj = option_map JString (Copy o)
  /\ lookup "autoCopy" obj = option_map JBool (AutoCopy o)
  /\ lookup "sound" obj = keepString (Sound o)
  /\ lookup "icon" obj = keepString (Icon o)
  /\ lookup "badge" obj = option_map (fun p => JNumber (m p)) (Badge o)
  /\ lookup "isArchive" obj = keepQuoted (IsArchive o)
  /\ lookup "call" obj = keepQuoted (Call o)
  /\ lookup "volume" obj = option_map (fun p => JQuoted (m p)) (Volume o)
  /\ (forall k, ~ In k fieldNames -> lookup k obj = None).
Proof.
  cbv zeta. unfold jsonOfOptions.
  repeat split;
    try (rewrite !lookup_app; lookup_field; cbn [String.eqb Ascii.eqb Bool.eqb andb];
         repeat match goal with
                | |- context [match ?x with Some _ => _ | None => _ end] =>
                    destruct x; try reflexivity
                end; reflexivity).
  intros k Hk.
  assert (N : forall name, In name fieldNames -> String.eqb name k = false).
  { intros name Hin. apply String.eqb_neq. intros ->. exact (Hk Hin). }
  rewrite !lookup_app. lookup_field.
  rewrite !N by (unfold fieldNames; simpl; tauto). reflexivity.
Qed.

End BarkGoJSON.

Module BarkGoPush.
Import BarkGo BarkGoFacts BarkGoJSON.

Lemma keepQuoted_clamp01 (v : Z) :
  keepQuoted (clamp 0 1 v) = if (0 <? v)%Z then Some (JQuoted 1) else None.
Proof.
  unfold keepQuoted, clamp.
  destruct (Z.ltb_spec 0 v) as [H | H].
  - replace (Z.max 0 (Z.min 1 v)) with 1%Z by lia. reflexivity.
  - replace (Z.max 0 (Z.min 1 v)) with 0%Z by lia. reflexivity.
Qed.

Section Package.

Variable quoteString : string -> list byte.
Variable ECB CBC : string.
Variable Cryptobin : Type.
Variable encryptECB : string -> list byte -> Cryptobin.
Variable encryptCBC : string -> string -> list byte -> Cryptobin.
Variable Error : Cryptobin -> option error.
Variable ToBase64String : Cryptobin -> string.

Let barkEncrypt := barkEncrypt ECB CBC Cryptobin encryptECB encryptCBC Error ToBase64String.
Let handleOpt :=
  handleOpt quoteString ECB CBC Cryptobin encryptECB encryptCBC Error ToBase64String.

(** X20.  Without encryption [handleOpt] returns the JSON of the request as
    it has clamped it.  The title is always there and the token never;
    [isArchive] and [call] are there only when the field was positive,
    and then as ["1"]; [volume] and [badge] are read through their
    pointers after the clamping, so that a badge behind the same pointer
    as the volume is clamped with it. *)
Theorem handleOpt_plain (o : Options) (m : store) :
  wellFormed o -> Enc o = None ->
  exists obj o' m',
    handleOpt o m = (Ok (string_of_bytes (encode quoteString obj)), o', m')
    /\ lookup "title" obj = Some (JString (Title o))
    /\ lookup "body" obj = keepString (Msg o)
    /\ lookup "group" obj = keepString (Group o)
    /\ lookup "url" obj = keepString (URL o)
    /\ lookup "level" obj = keepString (Level o)
    /\ lookup "copy" obj = option_map JString (Copy o)
    /\ lookup "autoCopy" obj = option_map JBool (AutoCopy o)
    /\ lookup "sound" obj = keepString (Sound o)
    /\ lookup "icon" obj = keepString (Icon o)
    /\ lookup "badge" obj = option_map (fun p => JNumber (m' p)) (Badge o)
    /\ lookup "isArchive" obj = (if (0 <? IsArchive o)%Z then Some (JQuoted 1) else None)
    /\ lookup "call" obj = (if (0 <? Call o)%Z then Some (JQuoted 1) else None)
    /\ lookup "volume" obj = option_map (fun p => JQuoted (m' p)) (Volume o)
    /\ (forall k, ~ In k fieldNames -> lookup k obj = None)
    /\ (forall p, Volume o = Some p -> Badge o = Some p -> Level o = "critical"%string ->
          lookup "badge" obj = Some (JNumber (clamp 0 10 (m p)))).
Proof.
  intros Hw He.
  set (o' := setCall (setIsArchive o (clamp 0 1 (IsArchive o))) (clamp 0 1 (Call o))).
  exists (jsonOfOptions (clampVolume o m) o'), o', (clampVolume o m).
  split.
  { unfold handleOpt. rewrite (handleOpt_steps quoteString ECB CBC Cryptobin encryptECB encryptCBC
                                  Error ToBase64String o m Hw).
    unfold payloadOf. rewrite clamped_set. fold o'.
    change (Enc o') with (Enc o). rewrite He. reflexivity. }
  pose proof (jsonOfOptions_fields (clampVolume o m) o') as L. cbv zeta in L.
  change (Title o') with (Title o) in L. change (Msg o') with (Msg o) in L.
  change (Group o') with (Group o) in L. change (URL o') with (URL o) in L.
  change (Level o') with (Level o) in L. change (Copy o') with (Copy o) in L.
  change (AutoCopy o') with (AutoCopy o) in L. change (Sound o') with (Sound o) in L.
  change (Icon o') with (Icon o) in L. change (Badge o') with (Badge o) in L.
  change (Volume o') with (Volume o) in L.
  change (IsArchive o') with (clamp 0 1 (IsArchive o)) in L.
  change (Call o') with (clamp 0 1 (Call o)) in L.
  rewrite !keepQuoted_clamp01 in L.
  destruct L as (L1 & L2 & L3 & L4 & L5 & L6 & L7 & L8 & L9 & L10 & L11 & L12 & L13 & L14).
  repeat (split; [assumption |]).
  intros p Hv Hb Hl. rewrite L10, Hb. cbn [option_map].
  rewrite clampVolume_at, Hv, Hl, Nat.eqb_refl. reflexivity.
Qed.


Variable Post : string -> string -> string -> res Response.
Variable Decode : Response -> res (Z * string).

Let ClientPush :=
  ClientPush quoteString ECB CBC Cryptobin encryptECB encryptCBC Error ToBase64String
             Post Decode.

Lemma ClientPush_trace_of (c : Client) (o : Options) (m : store) :
  let '(result, o', m', trace) := ClientPush c o m in
  match trace with
  | [] =>
      exists r, handleOpt o m = (r, o', m') /\ (forall s, r <> Ok s)
                /\ match r with Err e => result = Err e | _ => result = Panic end
  | Posted url contentType body :: rest =>
      handleOpt o m = (Ok body, o', m')
      /\ url = ((if String.eqb (ServerURL (OptClient o)) "" then ServerURL c
                 else ServerURL (OptClient o)) ++ "/" ++ Token o)%string
      /\ contentType = "application/json;charset:utf-8"%string
      /\ match Post url contentType body with
         | Ok r =>
             rest = [Closed r]
             /\ (result = Ok tt <-> exists message, Decode r = Ok (200%Z, message))
             /\ (forall code message, Decode r = Ok (code, message) -> code <> 200%Z ->
                   result = Err message)
         | Err e => rest = [] /\ result = Err e
         | Panic => rest = [] /\ result = Panic
         end
  | Closed _ :: _ => False
  end.
Proof.
  unfold ClientPush, BarkGo.ClientPush. fold handleOpt.
  assert (Hserver : ServerURL (OptClient (snd (fst (handleOpt o m)))) = ServerURL (OptClient o)
                    /\ Token (snd (fst (handleOpt o m))) = Token o).
  { unfold handleOpt, BarkGo.handleOpt.
    destruct (String.eqb (Title o) ""); [split; reflexivity |].
    destruct (String.eqb (Token o) ""); [split; reflexivity |].
    cbv zeta. fold (clamped o).
    assert (K : OptClient (clamped o) = OptClient o /\ Token (clamped o) = Token o
                /\ Enc (clamped o) = Enc o).
    { rewrite clamped_set. repeat split. }
    destruct K as (K1 & K2 & K3). rewrite K3.
    destruct (Enc o) as [enc |]; [| cbn [fst snd]; rewrite K1, K2; split; reflexivity].
    destruct (BarkGo.barkEncrypt _ _ _ _ _ _ _ _ _); cbn [fst snd]; rewrite K1, K2;
      split; reflexivity. }
  destruct (handleOpt o m) as [[r o'] m'] eqn:EH. cbn [fst snd] in Hserver.
  destruct Hserver as [Hs Ht].
  destruct r as [s | e |].
  - rewrite Hs, Ht.
    assert (U : (if String.eqb (ServerURL (OptClient o)) ""
                 then (ServerURL c ++ "/" ++ Token o)%string
                 else (ServerURL (OptClient o) ++ "/" ++ Token o)%string)
                = ((if String.eqb (ServerURL (OptClient o)) "" then ServerURL c
                    else ServerURL (OptClient o)) ++ "/" ++ Token o)%string).
    { destruct (String.eqb (ServerURL (OptClient o)) ""); reflexivity. }
    rewrite U. clear U.
    set (url := ((if String.eqb (ServerURL (OptClient o)) "" then ServerURL c
                  else ServerURL (OptClient o)) ++ "/" ++ Token o)%string).
    destruct (Post url "application/json;charset:utf-8" s) as [resp | e |] eqn:EP.
    + split; [reflexivity |]. split; [reflexivity |]. split; [reflexivity |].
      rewrite EP. split; [reflexivity |].
      destruct (Decode resp) as [[code message] | e |]; split;
        try (split; [discriminate | intros (? & H); discriminate H]);
        try (intros ? ? H; discriminate H).
      * destruct (Z.eqb_spec code 200) as [-> | Hne]; cbn [negb].
        -- split; [intros _; exists message; reflexivity | reflexivity].
        -- split; [discriminate | intros (msg & H); injection H as H _; contradiction].
      * intros code' message' H Hne. injection H as <- <-.
        destruct (Z.eqb_spec code 200) as [E | _]; [contradiction | reflexivity].
    + split; [reflexivity |]. split; [reflexivity |]. split; [reflexivity |].
      rewrite EP. split; reflexivity.
    + split; [reflexivity |]. split; [reflexivity |]. split; [reflexivity |].
      rewrite EP. split; reflexivity.
  - exists (Err e). split; [reflexivity |]. split; [discriminate | reflexivity].
  - exists Panic. split; [reflexivity |]. split; [discriminate | reflexivity].
Qed.

(** X22.  [Push] posts nothing when [handleOpt] fails.  Otherwise it posts
    once, the text of [handleOpt], to the server of the request, or to
    that of the client when the request names none, followed by ["/"] and
    the token; the body of a response is closed; and the result is nil
    exactly when the reply decodes to the code 200, the error being the
    message of the reply otherwise. *)
Theorem ClientPush_trace (c : Client) (o : Options) (m : store) :
  let '(result, o', m', trace) := ClientPush c o m in
  match trace with
  | [] =>
      exists r, handleOpt o m = (r, o', m') /\ (forall s, r <> Ok s)
                /\ match r with Err e => result = Err e | _ => result = Panic end
  | Posted url contentType body :: rest =>
      handleOpt o m = (Ok body, o', m')
      /\ url = ((if String.eqb (ServerURL (OptClient o)) "" then ServerURL c
                 else ServerURL (OptClient o)) ++ "/" ++ Token o)%string
      /\ contentType = "application/json;charset:utf-8"%string
      /\ match Post url contentType body with
         | Ok r =>
             rest = [Closed r]
             /\ (result = Ok tt <-> exists message, Decode r = Ok (200%Z, message))
             /\ (forall code message, Decode r = Ok (code, message) -> code <> 200%Z ->
                   result = Err message)
         | Err e => rest = [] /\ result = Err e
         | Panic => rest = [] /\ result = Panic
         end
  | Closed _ :: _ => False
  end.
Proof. exact (ClientPush_trace_of c o m). Qed.

End Package.

End BarkGoPush.

Lemma handleOpt_idempotent_witness :
  exists r o' m',
    BarkGo.handleOpt quotePlain "ECB" "CBC" (res string) standInECB standInCBC standInError
                     standInText barkGoRequest barkGoStore = (r, o', m')
    /\ BarkGo.IsArchive o' = 1%Z /\ BarkGo.Call o' = 0%Z /\ m' 0%nat = 10%Z
    /\ BarkGo.handleOpt quotePlain "ECB" "CBC" (res string) standInECB standInCBC standInError
                        standInText o' m' = (r, o', m').
Proof.
  destruct (BarkGo.handleOpt quotePlain "ECB" "CBC" (res string) standInECB standInCBC
              standInError standInText barkGoRequest barkGoStore) as [[r o'] m'] eqn:E.
  exists r, o', m'. split; [reflexivity |].
  pose proof (BarkGoFacts.handleOpt_idempotent _ _ _ _ _ _ _ _ _ _ _ _ _ E) as H.
  vm_compute in E. injection E as <- <- <-.
  split; [reflexivity |]. split; [reflexivity |]. split; [reflexivity |]. exact H.
Defined.

Lemma handleOpt_plain_witness :
  BarkGoFacts.wellFormed barkGoRequest
  /\ BarkGo.Enc barkGoRequest = None
  /\ exists obj o' m',
       BarkGo.handleOpt quotePlain "ECB" "CBC" (res string) standInECB standInCBC standInError
                        standInText barkGoRequest barkGoStore
       = (Ok (string_of_bytes (BarkGo.encode quotePlain obj)), o', m')
       /\ BarkGo.lookup "badge" obj = Some (BarkGo.JNumber 10)
       /\ BarkGo.lookup "isArchive" obj = Some (BarkGo.JQuoted 1)
       /\ BarkGo.lookup "call" obj = None.
Proof.
  assert (Hw : BarkGoFacts.wellFormed barkGoRequest) by (split; discriminate).
  split; [exact Hw |]. split; [reflexivity |].
  destruct (BarkGoPush.handleOpt_plain quotePlain "ECB" "CBC" (res string) standInECB standInCBC
              standInError standInText barkGoRequest barkGoStore Hw eq_refl)
    as (obj & o' & m' & E & _ & _ & _ & _ & _ & _ & _ & _ & _ & _ & Ha & Hc & _ & _ & Hb).
  exists obj, o', m'. split; [exact E |].
  split; [exact (Hb 0%nat eq_refl eq_refl eq_refl) |]. split; [exact Ha | exact Hc].
Defined.


(** ** GCM mode under one nonce *)

(** The key stream of counter mode: the encrypted counters, one block
    after the other. *)
Fixpoint keystream (blocks : nat) (b : Block) (counter : list byte) : option (list byte) :=
  match blocks with
  | O => Some []
  | S k =>
      mask <~ Encrypt b counter ;;
      rest <~ keystream k b (GCM.gcmInc32 counter) ;;
      Some (mask ++ rest)
  end.

Lemma XORBytes_nil_r (x : list byte) : XORBytes x [] = [].
Proof. destruct x; reflexivity. Qed.

Lemma XORBytes_app_r (x m k : list byte) :
  XORBytes x (m ++ k)
  = XORBytes (firstn (List.length m) x) m ++ XORBytes (skipn (List.length m) x) k.
Proof.
  revert x. induction m as [| c m IH]; intros x; [reflexivity |].
  destruct x as [| a x]; [reflexivity |].
  cbn [app XORBytes List.length firstn skipn]. rewrite IH. reflexivity.
Qed.

Lemma XORBytes_same_mask (a b ks : list byte) :
  (List.length a <= List.length ks)%nat -> (List.length b <= List.length ks)%nat ->
  XORBytes (XORBytes a ks) (XORBytes b ks) = XORBytes a b.
Proof.
  revert b ks. induction a as [| x a IH]; intros b ks Ha Hb; [reflexivity |].
  destruct ks as [| k ks]; [simpl in Ha; lia |].
  destruct b as [| y b]; [reflexivity |].
  cbn [XORBytes]. rewrite IH by (simpl in Ha, Hb; lia). f_equal.
  rewrite (xor_byte_comm y k), <- xor_byte_assoc, xor_byte_cancel. reflexivity.
Qed.

Section KeyStream.

Variable b : Block.
Hypothesis laws : BlockLaws b.
Hypothesis size16 : BlockSize b = 16%nat.

Lemma keystream_total (k : nat) :
  forall counter, List.length counter = 16%nat ->
    exists ks, keystream k b counter = Some ks /\ List.length ks = (16 * k)%nat.
Proof.
  induction k as [| k IH]; intros counter Hc; [exists []; split; reflexivity |].
  assert (Hcb : List.length counter = BlockSize b) by (rewrite size16; exact Hc).
  destruct (encrypt_full b laws counter Hcb) as (mask & Em & Hm). rewrite size16 in Hm.
  destruct (IH (GCM.gcmInc32 counter)) as (rest & Er & Hr).
  { rewrite GCMFacts.gcmInc32_length; lia. }
  exists (mask ++ rest). cbn [keystream]. rewrite Em. cbn [optbind]. rewrite Er.
  split; [reflexivity |]. rewrite length_app, Hm, Hr. lia.
Qed.

(** Counter mode is the xor with the key stream. *)
Lemma counterCrypt_keystream (k : nat) :
  forall fuel counter input out ks,
    List.length counter = 16%nat -> (List.length input <= 16 * k)%nat ->
    GCM.counterCrypt fuel b counter input = Some out ->
    keystream k b counter = Some ks ->
    out = XORBytes input ks.
Proof.
  induction k as [| k IH]; intros fuel counter input out ks Hc Hl Ho Hk.
  - destruct input; [| simpl in Hl; lia].
    rewrite GCMFacts.counterCrypt_nil in Ho. injection Ho as <-. reflexivity.
  - destruct input as [| a input'] eqn:Ei.
    { rewrite GCMFacts.counterCrypt_nil in Ho. injection Ho as <-. reflexivity. }
    rewrite <- Ei in *.
    destruct fuel as [| fuel]; [rewrite Ei in Ho; discriminate Ho |].
    rewrite GCMFacts.counterCrypt_step in Ho by (rewrite Ei; discriminate).
    cbn [keystream] in Hk.
    destruct (Encrypt b counter) as [mask |] eqn:Em; [| discriminate Ho].
    cbn [optbind] in Ho, Hk.
    assert (Hm : List.length mask = 16%nat).
    { assert (Hcb : List.length counter = BlockSize b) by (rewrite size16; exact Hc).
      destruct (encrypt_full b laws counter Hcb) as (mask' & Em' & Hm').
      rewrite Em in Em'. injection Em' as <-. rewrite Hm'. exact size16. }
    destruct (GCM.counterCrypt fuel b (GCM.gcmInc32 counter) (skipn GCM.gcmBlockSize input))
      as [rest |] eqn:Er; [| discriminate Ho].
    destruct (keystream k b (GCM.gcmInc32 counter)) as [ks' |] eqn:Ek; [| discriminate Hk].
    cbn [optbind] in Ho, Hk. injection Ho as <-. injection Hk as <-.
    rewrite XORBytes_app_r, Hm. f_equal.
    apply (IH fuel (GCM.gcmInc32 counter) _ rest ks'); try assumption.
    + rewrite GCMFacts.gcmInc32_length; lia.
    + rewrite length_skipn. unfold GCM.gcmBlockSize. lia.
Qed.

End KeyStream.

Lemma aesEncrypt_GCM_parts (data : list byte) (opt : EncOpt) :
  ToUpper (Mode opt) = "GCM"%string -> keyLenOK opt -> String.length (Iv opt) = 12%nat ->
  (Z.of_nat (List.length data) <= gcmMaxPlaintext)%Z ->
  exists (block : Block) (ct tag : list byte),
    AES.NewCipher (bytes_of_string (Key opt)) = Ok block
    /\ BlockSize block = 16%nat /\ BlockLaws block
    /\ aesEncrypt data opt = Ok (EncodeToString (ct ++ tag))
    /\ List.length ct = List.length data
    /\ GCM.counterCrypt (List.length data) block
         (GCM.gcmInc32 (GCM.deriveCounter (bytes_of_string (Iv opt)))) data = Some ct.
Proof.
  intros Hm Hk Hiv Hshort.
  destruct (AESFacts.NewCipher_ok _ (keyLenOK_bytes opt Hk)) as (block & Eblock & Hbs & laws).
  rewrite (aesEncrypt_GCM_unfold data opt block Hm Eblock). cbv zeta.
  rewrite bytes_of_string_length.
  destruct (SealFacts.NewGCM_ok block laws Hbs) as (g & Eg & Hcg & HHg).
  assert (Hmaxg : GCM.maxPlaintext g = gcmMaxPlaintext).
  { unfold GCM.maxPlaintext, gcmMaxPlaintext. rewrite Hcg, Hbs. reflexivity. }
  rewrite Hiv. cbn [Nat.eqb negb]. rewrite Eg. cbn [bind].
  assert (Hn : List.length (bytes_of_string (Iv opt)) = GCM.gcmStandardNonceSize).
  { rewrite bytes_of_string_length. exact Hiv. }
  destruct (SealFacts.Seal_Open block laws Hbs g Hcg HHg (bytes_of_string (Iv opt)) data []
              Hn ltac:(rewrite Hmaxg; exact Hshort))
    as (ct & tag & Eseal & Hct & Htag & Ectr & _).
  rewrite Eseal. cbn [orPanic bind].
  exists block, ct, tag.
  split; [exact Eblock |]. split; [exact Hbs |]. split; [exact laws |].
  split; [reflexivity |]. split; [exact Hct | exact Ectr].
Qed.

Lemma aesEncrypt_Ok_GCM (data : list byte) (opt : EncOpt) (c : string) :
  ToUpper (Mode opt) = "GCM"%string -> aesEncrypt data opt = Ok c ->
  keyLenOK opt /\ String.length (Iv opt) = 12%nat
  /\ (Z.of_nat (List.length data) <= gcmMaxPlaintext)%Z.
Proof.
  intros Hm E. pose proof (aesEncrypt_outcome_of data opt) as O. rewrite E in O.
  inversion O as [ | | | | | encrypted Hk Hm' Hl Hc | encrypted Hk Hm' Hiv Hs Hl Hc ].
  - destruct Hm' as [[Hm' _] | Hm']; rewrite Hm in Hm'; discriminate Hm'.
  - repeat split; assumption.
Qed.

(** X24.  In GCM mode two plaintexts sealed under the same key and nonce
    are xored with the same key stream: the xor of the two ciphertexts is
    the xor of the two plaintexts (up to the length of the shorter). *)
Theorem aesEncrypt_GCM_nonce_reuse (data1 data2 : list byte) (opt : EncOpt)
    (c1 c2 : string) :
  ToUpper (Mode opt) = "GCM"%string ->
  aesEncrypt data1 opt = Ok c1 -> aesEncrypt data2 opt = Ok c2 ->
  exists s1 s2,
    DecodeString c1 = Some s1 /\ DecodeString c2 = Some s2
    /\ XORBytes (firstn (List.length data1) s1) (firstn (List.length data2) s2)
       = XORBytes data1 data2.
Proof.
  intros Hm E1 E2.
  destruct (aesEncrypt_Ok_GCM _ _ _ Hm E1) as (Hk & Hiv & Hs1).
  destruct (aesEncrypt_Ok_GCM _ _ _ Hm E2) as (_ & _ & Hs2).
  destruct (aesEncrypt_GCM_parts data1 opt Hm Hk Hiv Hs1)
    as (b1 & ct1 & tag1 & N1 & Hbs & laws & R1 & L1 & C1).
  destruct (aesEncrypt_GCM_parts data2 opt Hm Hk Hiv Hs2)
    as (b2 & ct2 & tag2 & N2 & _ & _ & R2 & L2 & C2).
  rewrite N2 in N1. injection N1 as <-.
  rewrite E1 in R1. rewrite E2 in R2. injection R1 as ->. injection R2 as ->.
  exists (ct1 ++ tag1), (ct2 ++ tag2).
  split; [apply base64_roundtrip |]. split; [apply base64_roundtrip |].
  rewrite <- L1, <- L2, !firstn_app_exact by reflexivity.
  set (counter := GCM.gcmInc32 (GCM.deriveCounter (bytes_of_string (Iv opt)))) in *.
  assert (Hc : List.length counter = 16%nat).
  { unfold counter. rewrite GCMFacts.gcmInc32_length;
      rewrite GCMFacts.deriveCounter_length; try reflexivity;
      try (rewrite bytes_of_string_length; exact Hiv);
      unfold GCM.gcmBlockSize; lia. }
  set (k := (List.length data1 + List.length data2)%nat).
  destruct (keystream_total b2 laws Hbs k counter Hc) as (ks & Eks & Lks).
  rewrite (counterCrypt_keystream b2 laws Hbs k _ counter data1 ct1 ks Hc
             ltac:(unfold k; lia) C1 Eks).
  rewrite (counterCrypt_keystream b2 laws Hbs k _ counter data2 ct2 ks Hc
             ltac:(unfold k; lia) C2 Eks).
  apply XORBytes_same_mask; rewrite Lks; unfold k; lia.
Qed.

Lemma aesEncrypt_GCM_nonce_reuse_witness :
  exists c1 c2 s1 s2,
    aesEncrypt (bytes_of_string "attack at dawn") gcmExample = Ok c1
    /\ aesEncrypt (bytes_of_string "attack at dusk!") gcmExample = Ok c2
    /\ DecodeString c1 = Some s1 /\ DecodeString c2 = Some s2
    /\ XORBytes (firstn 14 s1) (firstn 15 s2)
       = XORBytes (bytes_of_string "attack at dawn") (bytes_of_string "attack at dusk!").
Proof.
  destruct (aesEncrypt (bytes_of_string "attack at dawn") gcmExample) as [c1 | |] eqn:E1;
    [| vm_compute in E1; discriminate E1 | vm_compute in E1; discriminate E1].
  destruct (aesEncrypt (bytes_of_string "attack at dusk!") gcmExample) as [c2 | |] eqn:E2;
    [| vm_compute in E2; discriminate E2 | vm_compute in E2; discriminate E2].
  destruct (aesEncrypt_GCM_nonce_reuse _ _ gcmExample c1 c2 eq_refl E1 E2)
    as (s1 & s2 & D1 & D2 & H).
  exists c1, c2, s1, s2. repeat split; assumption.
Defined.

(** ** Push of an encrypted request, end to end *)

Section PushEncrypted.

Variable quoteString : string -> list byte.
Variable urlParse : string -> option error.
Variable Do : httpClient -> Request -> res Response.
Variable Unmarshal : list byte -> option (Z * string).

(** X23.  When [Push] sends a request with encryption, the body is the
    object of [ciphertext] and [device_key], the key is not empty, and the
    ciphertext decrypts, under the key, mode and IV of the request, to the
    JSON of the request without its routing keys. *)
Theorem Push_encrypted_body (c : Client) (o : Options) (enc : EncOpt)
    (hc : httpClient) (req : Request) :
  Enc o = Some enc ->
  In (Sent hc req) (snd (Push quoteString urlParse Do Unmarshal c o)) ->
  exists cipherText,
    RequestBody req = encode quoteString [("ciphertext", JString cipherText);
                                          ("device_key", JString (DeviceKey o))]
    /\ DeviceKey o <> ""%string
    /\ aesDecrypt cipherText enc = Ok (plainBytes quoteString o)
    /\ plainBytes quoteString o
       = encode quoteString (jsonOfOptions (setEnc (setDeviceKeys (setDeviceKey o "") []) None)).
Proof.
  intros He Hin. rewrite Push_steps in Hin.
  destruct (Validate o) as [e |] eqn:EV; [destruct Hin |].
  destruct (preparePayload quoteString o) as [payload | e |] eqn:EP;
    [| destruct Hin | destruct Hin].
  destruct (urlParse _) as [e |]; [destruct Hin |].
  destruct (HTTPClient c) as [hc' |]; [| destruct Hin].
  assert (Hreq : req = pushRequest c payload).
  { destruct (Do hc' (pushRequest c payload)) as [resp | e |]; cbn [snd In] in Hin;
      repeat match goal with
             | H : _ \/ _ |- _ => destruct H as [H | H]
             | H : Sent _ _ = Sent _ _ |- _ => injection H as _ <-
             | H : Closed _ = Sent _ _ |- _ => discriminate H
             | H : False |- _ => destruct H
             end; reflexivity. }
  subst req. cbn [RequestBody pushRequest].
  destruct (encrypted_payload_inv quoteString o enc payload He EP) as (ct & Ea & -> & Hk).
  exists ct. split; [reflexivity |]. split.
  - destruct (DeviceKeys o) as [| k ks] eqn:Ek; [| apply Hk; discriminate].
    intros Z. unfold Validate in EV. rewrite Z, Ek in EV. discriminate EV.
  - split; [exact (aesDecrypt_undoes _ _ _ Ea) | reflexivity].
Qed.

End PushEncrypted.

Lemma Push_encrypted_body_witness :
  exists hc req cipherText,
    snd (Push quotePlain (fun _ => None) (fun _ _ => Err "no route to host"%string)
              (fun _ => None) DefaultClient scenarioB) = [Sent hc req]
    /\ RequestBody req = encode quotePlain [("ciphertext", JString cipherText);
                                            ("device_key", JString "abc")]
    /\ aesDecrypt cipherText cbcExample = Ok (plainBytes quotePlain scenarioB).
Proof.
  destruct (snd (Push quotePlain (fun _ => None) (fun _ _ => Err "no route to host"%string)
                      (fun _ => None) DefaultClient scenarioB))
    as [| [hc req | resp] [| ev rest]] eqn:E;
    try (vm_compute in E; discriminate E).
  destruct (Push_encrypted_body quotePlain (fun _ => None)
              (fun _ _ => Err "no route to host"%string) (fun _ => None)
              DefaultClient scenarioB cbcExample hc req eq_refl
              ltac:(rewrite E; left; reflexivity)) as (ct & H1 & _ & H3 & _).
  exists hc, req, ct. split; [reflexivity |]. split; [exact H1 | exact H3].
Defined.

(** ** aes.NewCipher *)

(** X25.  [aes.NewCipher] takes keys of 16, 24 and 32 bytes and refuses
    every other key with its key-size error.  The cipher it returns works
    on blocks of 16 bytes: [Encrypt] returns a block for every block,
    [Decrypt] turns it back, and so two different blocks never encrypt to
    the same block. *)
Theorem aes_NewCipher_block (key : list byte) :
  (List.length key = 16%nat \/ List.length key = 24%nat \/ List.length key = 32%nat ->
     exists block,
       AES.NewCipher key = Ok block
       /\ BlockSize block = 16%nat
       /\ (forall src, List.length src = 16%nat ->
             exists dst, Encrypt block src = Some dst
                         /\ List.length dst = 16%nat
                         /\ Decrypt block dst = Some src)
       /\ (forall src src' dst, List.length src = 16%nat -> List.length src' = 16%nat ->
             Encrypt block src = Some dst -> Encrypt block src' = Some dst -> src = src'))
  /\ (~ (List.length key = 16%nat \/ List.length key = 24%nat \/ List.length key = 32%nat) ->
        AES.NewCipher key = Err (AES.KeySizeError (List.length key))).
Proof.
  split; [| apply AESFacts.NewCipher_bad].
  intros Hk. destruct (AESFacts.NewCipher_ok key Hk) as (block & E & Hbs & laws).
  exists block. split; [exact E |]. split; [exact Hbs |]. split.
  - intros src Hs. rewrite <- Hbs in Hs.
    destruct (encrypt_full block laws src Hs) as (dst & Ed & Hd).
    exists dst. split; [exact Ed |]. split; [rewrite Hd; exact Hbs |].
    exact (decrypt_encrypt block laws src dst Hs Ed).
  - intros src src' dst Hs Hs' Ed Ed'. rewrite <- Hbs in Hs, Hs'.
    exact (Encrypt_injective block src src' dst laws Hs Hs' Ed Ed').
Qed.

(** ** src/bark.go: New and Push *)

Module BarkGoDefault.
Import BarkGo.

Section Package.

Variable quoteString : string -> list byte.
Variable ECB CBC : string.
Variable Cryptobin : Type.
Variable encryptECB : string -> list byte -> Cryptobin.
Variable encryptCBC : string -> string -> list byte -> Cryptobin.
Variable Error : Cryptobin -> option error.
Variable ToBase64String : Cryptobin -> string.
Variable Post : string -> string -> string -> res Response.
Variable Decode : Response -> res (Z * string).

(** X26.  [New] removes one slash from the end of the URL and nothing
    else (it adds no scheme).  The function [Push] posts to the server the
    request names, and to [https://api.day.app] when it names none, the
    token after a slash; a server named by the request is used as it is,
    slash at the end included. *)
Theorem Push_server (o : Options) (m : store) (url contentType body : string)
    (rest : list event) :
  snd (Push quoteString ECB CBC Cryptobin encryptECB encryptCBC Error ToBase64String
            Post Decode o m) = Posted url contentType body :: rest ->
  url = ((if String.eqb (ServerURL (OptClient o)) "" then "https://api.day.app"
          else ServerURL (OptClient o)) ++ "/" ++ Token o)%string
  /\ (forall s, ServerURL (New (s ++ "/")) = s)
  /\ (forall s, HasSuffix s "/" = false -> ServerURL (New s) = s).
Proof.
  intros H. unfold Push in H.
  pose proof (BarkGoPush.ClientPush_trace_of quoteString ECB CBC Cryptobin encryptECB encryptCBC
                Error ToBase64String Post Decode DefaultClient o m) as T.
  destruct (ClientPush _ _ _ _ _ _ _ _ _ _ DefaultClient o m) as [[[result o'] m'] trace].
  cbn [snd] in H. subst trace.
  destruct T as (_ & -> & _).
  split; [reflexivity |]. split.
  - intros s. unfold New. cbn [ServerURL]. apply TrimSuffix_append.
  - intros s Hs. unfold New. cbn [ServerURL]. apply TrimSuffix_none. exact Hs.
Qed.

End Package.

End BarkGoDefault.

Lemma Push_server_witness :
  exists body,
    snd (BarkGo.Push quotePlain "ECB" "CBC" (res string) standInECB standInCBC standInError
           standInText (fun _ _ _ => Err "no route to host"%string) (fun _ => Panic)
           barkGoRequest barkGoStore)
    = [BarkGo.Posted "https://api.day.app/token" "application/json;charset:utf-8" body].
Proof.
  destruct (snd (BarkGo.Push quotePlain "ECB" "CBC" (res string) standInECB standInCBC
                   standInError standInText (fun _ _ _ => Err "no route to host"%string)
                   (fun _ => Panic) barkGoRequest barkGoStore))
    as [| [url ct body | resp] rest] eqn:E; try (vm_compute in E; discriminate E).
  destruct (BarkGoDefault.Push_server _ _ _ _ _ _ _ _ _ _ _ _ _ _ _ _ E) as (Hu & _).
  cbn in Hu. subst url.
  exists body. vm_compute in E. injection E as E1 E2 E3. subst ct rest. reflexivity.
Defined.
